(** * spotify_project: the rate-limited fetchers, the persisters and the
    stage scheduler of [spot_load.py] and [musicbrainz_load.py]

    The development is a shallow embedding.  Wall-clock time ([time.time()],
    a Python float) is idealised as an exact rational number of seconds.
    The outside world (the clock, the HTTP server, the random generator) is
    explicit: a function that sleeps advances the clock, a function that
    calls [requests.get] consumes the next scripted response.  Console
    output is not modelled. *)

From Stdlib Require Import QArith Lqa.
From stdpp Require Import gmap strings list pretty.

Open Scope Z_scope.
Open Scope string_scope.
Open Scope list_scope.

(* ===================================================================== *)
(** * Part I: the model                                                   *)
(* ===================================================================== *)

(** ** Python results *)

Inductive Exn :=
| ValueError (msg : string)
| KeyError (key : string)
| TypeError (msg : string).

Inductive Result (A : Type) :=
| Return (a : A)
| Raise (e : Exn).
Arguments Return {A} a.
Arguments Raise {A} e.

(** ** The environment: clock, server, observable effects *)

(** What [requests.get] followed by [raise_for_status] and [json()] can
    do: deliver a body, raise [HTTPError] (the status and the parsed
    [Retry-After] header, if the server sent one), or raise another
    [RequestException] (connection error, timeout, undecodable body). *)
Inductive Response (B : Type) :=
| RespOk (body : B)
| RespHttpError (status_code : Z) (retry_after : option Z)
| RespTransportError.
Arguments RespOk {B} body.
Arguments RespHttpError {B} status_code retry_after.
Arguments RespTransportError {B}.

Inductive Event :=
| EvSleep (secs : Q)
| EvGet (url : string).

Record Env (B : Type) := {
  now : Q;                      (* what time.time() returns *)
  http : list (Response B);     (* the server's future answers, in order *)
  events : list Event           (* sleeps and requests so far, oldest first *)
}.
Arguments now {B} e.
Arguments http {B} e.
Arguments events {B} e.

(** [time.sleep(secs)] for a non-negative [secs]. *)
Definition sleep {B} (secs : Q) (e : Env B) : Env B :=
  {| now := (now e + secs)%Q; http := http e;
     events := events e ++ [EvSleep secs] |}.

(** Time that passes outside the modelled calls. *)
Definition elapse {B} (gap : Q) (e : Env B) : Env B :=
  {| now := (now e + gap)%Q; http := http e; events := events e |}.

(** [requests.get(url, ...)]: with no scripted answer left the network is
    down. *)
Definition requests_get {B} (url : string) (e : Env B) : Response B * Env B :=
  match http e with
  | r :: rest =>
      (r, {| now := now e; http := rest; events := events e ++ [EvGet url] |})
  | [] =>
      (RespTransportError,
       {| now := now e; http := []; events := events e ++ [EvGet url] |})
  end.

(** ** spot_load.py: the sliding-window limiter *)

Definition MAX_REQUESTS_PER_30_SEC : nat := 40.
Definition MAX_REQUESTS_PER_HOUR : nat := 2500.
Definition MAX_REQUESTS_PER_DAY : nat := 4500.
Definition base_wait : Q := 1 # 10.

(** The module globals of spot_load.py; deques are lists, oldest first. *)
Record Limiter := {
  halfmin_timestamps : list Q;
  hourly_timestamps : list Q;
  daily_timestamps : list Q;
  total_requests : Z
}.

Definition limiter0 : Limiter :=
  {| halfmin_timestamps := []; hourly_timestamps := [];
     daily_timestamps := []; total_requests := 0 |}.

Definition Qgtb (x y : Q) : bool := negb (Qle_bool x y).

(** [while d and current_time - d[0] > window: d.popleft()] *)
Fixpoint evict (current_time window : Q) (d : list Q) : list Q :=
  match d with
  | t :: d' =>
      if Qgtb (current_time - t) window then evict current_time window d' else d
  | [] => []
  end.

(** [if len(d) >= cap: wait_time = window - (current_time - d[0]);
     time.sleep(wait_time + 1)].  The caps are positive, so [d[0]] exists
    whenever the test succeeds. *)
Definition wait_if_full {B} (current_time window : Q) (cap : nat)
    (d : list Q) (e : Env B) : Env B :=
  match d with
  | t0 :: _ =>
      if (cap <=? length d)%nat
      then sleep (window - (current_time - t0) + 1)%Q e
      else e
  | [] => e
  end.

(** The three [while] loops under "Clean old timestamps". *)
Definition clean_old (current_time : Q) (l : Limiter) : Limiter :=
  {| halfmin_timestamps := evict current_time 30 (halfmin_timestamps l);
     hourly_timestamps := evict current_time 3600 (hourly_timestamps l);
     daily_timestamps := evict current_time 86400 (daily_timestamps l);
     total_requests := total_requests l |}.

(** The four appends and increments that end check_rate_limit. *)
Definition record_request (current_time : Q) (l : Limiter) : Limiter :=
  {| halfmin_timestamps := halfmin_timestamps l ++ [current_time];
     hourly_timestamps := hourly_timestamps l ++ [current_time];
     daily_timestamps := daily_timestamps l ++ [current_time];
     total_requests := total_requests l + 1 |}.

Definition check_rate_limit {B} (w : Env B * Limiter) : Env B * Limiter :=
  let (e, l) := w in
  let current_time := now e in
  let l := clean_old current_time l in
  let e := sleep base_wait e in
  let e := wait_if_full current_time 30 MAX_REQUESTS_PER_30_SEC
             (halfmin_timestamps l) e in
  let e := wait_if_full current_time 3600 MAX_REQUESTS_PER_HOUR
             (hourly_timestamps l) e in
  let e := wait_if_full current_time 86400 MAX_REQUESTS_PER_DAY
             (daily_timestamps l) e in
  (e, record_request current_time l).

(** ** spot_load.py: get_info and get_batch_info *)

Definition World (B : Type) : Type := Env B * Limiter.

(** [2 ** attempt] *)
Definition pow2 (attempt : nat) : Q := inject_Z (2 ^ Z.of_nat attempt).

(** The retry loop, the same text in get_info (lines 115-131) and in
    get_batch_info (lines 159-175):
    [for attempt in range(retries): ...] followed by [return None].
    [remaining] counts the iterations still to run.  [Retry-After] is
    read as an integer; [time.sleep] of a negative number raises. *)
Fixpoint request_loop {B} (url : string) (retries attempt remaining : nat)
    (w : World B) : Result (option B) * World B :=
  match remaining with
  | O => (Return None, w)
  | S remaining' =>
      let (e, l) := check_rate_limit w in
      let (response, e) := requests_get url e in
      match response with
      | RespOk body => (Return (Some body), (e, l))
      | RespHttpError status_code header =>
          if (status_code =? 429)%Z && (attempt <? retries - 1)%nat then
            let retry_after := default 1 header in
            if (retry_after <? 0)%Z
            then (Raise (ValueError "sleep length must be non-negative"), (e, l))
            else
              let e := sleep (inject_Z retry_after) e in
              let e := sleep (pow2 attempt) e in
              request_loop url retries (S attempt) remaining' (e, l)
          else
            let e := sleep (pow2 attempt) e in
            request_loop url retries (S attempt) remaining' (e, l)
      | RespTransportError =>
          let e := sleep (pow2 attempt) e in
          request_loop url retries (S attempt) remaining' (e, l)
      end
  end.

Definition mem_string (s : string) (l : list string) : bool :=
  existsb (String.eqb s) l.

Definition get_info {B} (item_type item_id : string) (retries : nat)
    (w : World B) : Result (option B) * World B :=
  let valid_types := ["track"; "album"; "artist"; "playlist"] in
  if negb (mem_string item_type valid_types)
  then (Raise (ValueError "Invalid item_type. Expected one of ['track', 'album', 'artist', 'playlist']"), w)
  else
    let url := "https://api.spotify.com/v1/" +:+ item_type +:+ "s/" +:+ item_id in
    request_loop url retries 0 retries w.

(** [max_sizes = {'track': 50, 'artist': 50, 'album': 20}] *)
Definition max_sizes : list (string * nat) :=
  [("track", 50%nat); ("artist", 50%nat); ("album", 20%nat)].

Fixpoint dict_get {V} (d : list (string * V)) (k : string) : option V :=
  match d with
  | (k', v) :: d' => if String.eqb k k' then Some v else dict_get d' k
  | [] => None
  end.

Definition batch_url (item_type : string) (item_ids : list string) : string :=
  "https://api.spotify.com/v1/" +:+ item_type +:+ "s?ids="
    +:+ String.concat "," item_ids.

Definition get_batch_info {B} (item_type : string) (item_ids : list string)
    (retries : nat) (w : World B) : Result (option B) * World B :=
  let valid_types := ["track"; "album"; "artist"] in
  if negb (mem_string item_type valid_types)
  then (Raise (ValueError "Invalid item_type. Expected one of ['track', 'album', 'artist']"), w)
  else
    match item_ids with
    | [] => (Return None, w)
    | _ :: _ =>
        match dict_get max_sizes item_type with
        | None => (Raise (KeyError item_type), w)
        | Some max_size =>
            if (max_size <? length item_ids)%nat
            then (Raise (ValueError ("Max batch size for " +:+ item_type
                                       +:+ "s is " +:+ pretty max_size)), w)
            else request_loop (batch_url item_type item_ids) retries 0 retries w
        end
    end.

(** *** Reading the effects of a fetch *)

(** The URLs requested, in order. *)
Definition requests_of (evs : list Event) : list string :=
  omap (λ ev, match ev with EvGet url => Some url | EvSleep _ => None end) evs.

(** The waits that follow a request at once: the sleep of the handler of
    a failed attempt. *)
Fixpoint backoff_waits (evs : list Event) : list Q :=
  match evs with
  | EvGet _ :: EvSleep secs :: rest => secs :: backoff_waits rest
  | _ :: rest => backoff_waits rest
  | [] => []
  end.

(** ** musicbrainz_load.py: get_artist_data_batch *)

(** A member of a JSON object, where the loader reads a string: the key
    is absent, its value is null, or it is a string.  The body of a
    response is a parsed JSON object whose [artists] is a list of objects
    (an empty list, if the key is absent); a value of another JSON type
    than the MusicBrainz schema gives a member is not modelled. *)
Inductive Member :=
| Absent
| Null
| Str (s : string).

(** [d.get(key, default)]; the result [None] is Python's [None]. *)
Definition member_get (default : string) (m : Member) : option string :=
  match m with
  | Absent => Some default
  | Null => None
  | Str s => Some s
  end.

(** [d[key]] *)
Definition member_item (key : string) (m : Member) : Result (option string) :=
  match m with
  | Absent => Raise (KeyError key)
  | Null => Return None
  | Str s => Return (Some s)
  end.

(** [[d[key] for d in ds]], each object given by its member [key]. *)
Fixpoint member_items (key : string) (ms : list Member)
    : Result (list (option string)) :=
  match ms with
  | [] => Return []
  | m :: rest =>
      match member_item key m with
      | Raise e => Raise e
      | Return item =>
          match member_items key rest with
          | Raise e => Raise e
          | Return items => Return (item :: items)
          end
      end
  end.

(** An area object: its members [name] and [type], and whether it has any
    other key. *)
Record MBArea := {
  area_name : Member;
  area_type : Member;
  area_other_keys : bool
}.

(** A search hit.  [mb_area], [mb_begin_area] and [mb_tags] are what
    [artist.get("area")], [artist.get("begin-area")] and
    [artist.get("tags")] give: [None] when the key is absent or its value
    null.  A tag is an object, given by its member [name]. *)
Record MBArtist := {
  mb_name : Member;
  mb_area : option MBArea;
  mb_begin_area : option MBArea;
  mb_tags : option (list Member)
}.

(** Python's truth value of an area: [None] and the object without keys
    are falsy. *)
Definition truthy (area_info : option MBArea) : bool :=
  match area_info with
  | None => false
  | Some a =>
      match area_name a, area_type a with
      | Absent, Absent => area_other_keys a
      | _, _ => true
      end
  end.

(** [x or y] *)
Definition py_or (x y : option MBArea) : option MBArea :=
  if truthy x then x else y.

(** [area_info.get(key, "Unknown") if area_info else "Unknown"], for the
    member [m] of the area. *)
Definition area_member (m : MBArea → Member) (area_info : option MBArea)
    : option string :=
  match area_info with
  | Some a => if truthy area_info then member_get "Unknown" (m a) else Some "Unknown"
  | None => Some "Unknown"
  end.

(** [((area_name, area_type), [genres])]; a component [None] is Python's
    [None], read from a JSON null. *)
Definition ArtistInfo : Type :=
  (option string * option string) * list (option string).

(** Lines 41-47, the body of the loop over the hits. *)
Definition organize_artist (artist : MBArtist)
    : Result (option string * ArtistInfo) :=
  match member_item "name" (mb_name artist) with
  | Raise e => Raise e
  | Return name =>
      let area_info := py_or (mb_area artist) (mb_begin_area artist) in
      let area_name := area_member area_name area_info in
      let area_type := area_member area_type area_info in
      let genres :=
        match mb_tags artist with
        | None | Some [] => Return [Some "Unknown"]
        | Some tags => member_items "name" tags
        end in
      match genres with
      | Raise e => Raise e
      | Return genres => Return (name, ((area_name, area_type), genres))
      end
  end.

(** [organized_data[name] = ...] for each hit, later hits overwriting. *)
Fixpoint organize_into (organized_data : gmap (option string) ArtistInfo)
    (artists : list MBArtist) : Result (gmap (option string) ArtistInfo) :=
  match artists with
  | [] => Return organized_data
  | artist :: rest =>
      match organize_artist artist with
      | Raise e => Raise e
      | Return (name, info) =>
          organize_into (<[name := info]> organized_data) rest
      end
  end.

(** Lines 31-49.  Line 34 reads the name of every hit (for the report of
    the missing artists) before the first hit is organized. *)
Definition organize (artists : list MBArtist)
    : Result (gmap (option string) ArtistInfo) :=
  match member_items "name" (map mb_name artists) with
  | Raise e => Raise e
  | Return returned_artists => organize_into ∅ artists
  end.

(** The body of a response with status 200: JSON, of which [artists] are
    the hits, or something [response.json()] cannot decode.  For this
    loader an undecodable body is told apart from the other failures
    ([RespTransportError]), because the response is recorded in
    [timestamps] before its body is decoded. *)
Inductive MBBody :=
| MBJson (artists : list MBArtist)
| MBUndecodable.

(** The process state of musicbrainz_load.py: the environment, the global
    deque [timestamps] and the future draws of [random.uniform(0, 1)]. *)
Record MBWorld := {
  mb_env : Env MBBody;
  timestamps : list Q;
  uniform_draws : list Q
}.

Definition dquote : string := String (Ascii.ascii_of_nat 34) EmptyString.

(** The search query: an OR-disjunction of quoted artist names. *)
Definition mb_query (artist_names : list string) : string :=
  String.concat " OR "
    (map (fun name => "artist:" +:+ dquote +:+ name +:+ dquote) artist_names).

Definition mb_url (artist_names : list string) : string :=
  "https://musicbrainz.org/ws/2/artist/?query=" +:+ mb_query artist_names
    +:+ "&fmt=json&limit=100".

(** [random.uniform(0, 1)] *)
Definition next_draw (draws : list Q) : Q * list Q :=
  match draws with
  | u :: rest => (u, rest)
  | [] => (0%Q, [])
  end.

(** [for attempt in range(retries): try: ... except RequestException: ...]
    and, after the loop, [return {}].  [HTTPError] is a
    [RequestException], and so is the error of [response.json()] on an
    undecodable body: every failure takes the same handler, the last one
    after the timestamp has been appended (line 30).  A [KeyError] raised
    while the body is read is no [RequestException]: it leaves the
    function. *)
Fixpoint mb_request_loop (url : string) (attempt remaining : nat)
    (w : MBWorld) : Result (gmap (option string) ArtistInfo) * MBWorld :=
  match remaining with
  | O => (Return ∅, w)
  | S remaining' =>
      let (response, e) := requests_get url (mb_env w) in
      (* the handler's [wait_time]; a success draws nothing *)
      let (u, draws) := next_draw (uniform_draws w) in
      let wait_time := (pow2 attempt + u)%Q in
      match response with
      | RespOk (MBJson data) =>
          (organize data,
           {| mb_env := e; timestamps := timestamps w ++ [now e];
              uniform_draws := uniform_draws w |})
      | RespOk MBUndecodable =>
          mb_request_loop url (S attempt) remaining'
            {| mb_env := sleep wait_time e;
               timestamps := timestamps w ++ [now e];
               uniform_draws := draws |}
      | RespHttpError _ _ | RespTransportError =>
          mb_request_loop url (S attempt) remaining'
            {| mb_env := sleep wait_time e; timestamps := timestamps w;
               uniform_draws := draws |}
      end
  end.

Definition get_artist_data_batch (artist_names : list string) (retries : nat)
    (w : MBWorld) : Result (gmap (option string) ArtistInfo) * MBWorld :=
  let cur_time := now (mb_env w) in
  let ts := evict cur_time 1 (timestamps w) in
  let e :=
    match ts with
    | t0 :: _ => sleep (1 - (cur_time - t0))%Q (mb_env w)
    | [] => mb_env w
    end in
  mb_request_loop (mb_url artist_names) 0 retries
    {| mb_env := e; timestamps := ts; uniform_draws := uniform_draws w |}.

(** ** The relational store *)

(** A column is [option]: [None] is SQL NULL. *)
Record TrackRow := {
  track_name : option string;
  track_album_id : option string;
  track_duration : option Z;
  track_popularity : option Z;
  track_explicit : option Z;
  track_number : option Z
}.

Record AlbumRow := {
  album_name : option string;
  album_release_date : option string;
  album_total_tracks : option Z;
  album_label : option string;
  album_type : option string;
  album_popularity : option Z
}.

Record ArtistRow := {
  artist_name : option string;
  artist_popularity : option Z;
  artist_followers : option Z;
  artist_area_id : option nat;
  artist_retrieved_albums : option Z
}.

(** Modelled from the spec: the DDL of the current schema is not in the
    sources ([create_tables] is marked deprecated and lacks [Area],
    [Artist.area_id] and [Artist.retrieved_albums]).  The spec gives
    [Artist(id, name, popularity, followers, area_id, retrieved_albums
    flag)], [Genre(id, name unique)] and [Area(id, name, type)]
    deduplicated by (name, type).  [Track], [Album] and [Artist] are keyed
    by their text id; [Genre] and [Area] map the natural key to the
    integer id, with the largest id handed out so far; the junction tables
    are sets of pairs (their primary key is the pair).  The name columns
    are nullable, as [name TEXT UNIQUE] of [Genre] is in [create_tables]:
    a row whose name (or type) is NULL is no duplicate of any row.
    [Genre_unnamed] holds the ids of the Genre rows without name,
    [Area_unkeyed] the Area rows that lack name or type, by id; no SELECT
    of the loaders finds them. *)
Record Store := {
  Track : gmap string TrackRow;
  Album : gmap string AlbumRow;
  Artist : gmap string ArtistRow;
  Genre : gmap string nat;
  Genre_seq : nat;
  Genre_unnamed : gset nat;
  Area : gmap (string * string) nat;
  Area_seq : nat;
  Area_unkeyed : gmap nat (option string * option string);
  TrackArtist : gset (string * string);
  AlbumArtist : gset (string * string);
  ArtistGenre : gset (string * nat)
}.

(** Modelled from the spec: the column default of the per-artist stage
    marker [retrieved_albums]; the scheduler's scan
    [WHERE retrieved_albums IS 0] finds fresh rows, so it is 0. *)
Definition default_retrieved_albums : option Z := Some 0.

Definition placeholder_track : TrackRow :=
  {| track_name := None; track_album_id := None; track_duration := None;
     track_popularity := None; track_explicit := None; track_number := None |}.

Definition placeholder_album : AlbumRow :=
  {| album_name := None; album_release_date := None;
     album_total_tracks := None; album_label := None; album_type := None;
     album_popularity := None |}.

Definition placeholder_artist : ArtistRow :=
  {| artist_name := None; artist_popularity := None;
     artist_followers := None; artist_area_id := None;
     artist_retrieved_albums := default_retrieved_albums |}.

Definition set_Track (f : gmap string TrackRow → gmap string TrackRow)
    (s : Store) : Store :=
  {| Track := f (Track s); Album := Album s; Artist := Artist s;
     Genre := Genre s; Genre_seq := Genre_seq s;
     Genre_unnamed := Genre_unnamed s;
     Area := Area s; Area_seq := Area_seq s; Area_unkeyed := Area_unkeyed s;
     TrackArtist := TrackArtist s;
     AlbumArtist := AlbumArtist s; ArtistGenre := ArtistGenre s |}.

Definition set_Album (f : gmap string AlbumRow → gmap string AlbumRow)
    (s : Store) : Store :=
  {| Track := Track s; Album := f (Album s); Artist := Artist s;
     Genre := Genre s; Genre_seq := Genre_seq s;
     Genre_unnamed := Genre_unnamed s;
     Area := Area s; Area_seq := Area_seq s; Area_unkeyed := Area_unkeyed s;
     TrackArtist := TrackArtist s;
     AlbumArtist := AlbumArtist s; ArtistGenre := ArtistGenre s |}.

Definition set_Artist (f : gmap string ArtistRow → gmap string ArtistRow)
    (s : Store) : Store :=
  {| Track := Track s; Album := Album s; Artist := f (Artist s);
     Genre := Genre s; Genre_seq := Genre_seq s;
     Genre_unnamed := Genre_unnamed s;
     Area := Area s; Area_seq := Area_seq s; Area_unkeyed := Area_unkeyed s;
     TrackArtist := TrackArtist s;
     AlbumArtist := AlbumArtist s; ArtistGenre := ArtistGenre s |}.

Definition set_TrackArtist (f : gset (string * string) → gset (string * string))
    (s : Store) : Store :=
  {| Track := Track s; Album := Album s; Artist := Artist s;
     Genre := Genre s; Genre_seq := Genre_seq s;
     Genre_unnamed := Genre_unnamed s;
     Area := Area s; Area_seq := Area_seq s; Area_unkeyed := Area_unkeyed s;
     TrackArtist := f (TrackArtist s);
     AlbumArtist := AlbumArtist s; ArtistGenre := ArtistGenre s |}.

Definition set_AlbumArtist (f : gset (string * string) → gset (string * string))
    (s : Store) : Store :=
  {| Track := Track s; Album := Album s; Artist := Artist s;
     Genre := Genre s; Genre_seq := Genre_seq s;
     Genre_unnamed := Genre_unnamed s;
     Area := Area s; Area_seq := Area_seq s; Area_unkeyed := Area_unkeyed s;
     TrackArtist := TrackArtist s;
     AlbumArtist := f (AlbumArtist s); ArtistGenre := ArtistGenre s |}.

Definition set_ArtistGenre (f : gset (string * nat) → gset (string * nat))
    (s : Store) : Store :=
  {| Track := Track s; Album := Album s; Artist := Artist s;
     Genre := Genre s; Genre_seq := Genre_seq s;
     Genre_unnamed := Genre_unnamed s;
     Area := Area s; Area_seq := Area_seq s; Area_unkeyed := Area_unkeyed s;
     TrackArtist := TrackArtist s;
     AlbumArtist := AlbumArtist s; ArtistGenre := f (ArtistGenre s) |}.

(** *** SQL statements used by the loaders *)

(** [INSERT OR IGNORE INTO t (id) VALUES (?)] on a table keyed by [id]. *)
Definition insert_or_ignore {V} (id : string) (row : V) (t : gmap string V)
    : gmap string V :=
  match t !! id with
  | Some _ => t
  | None => <[id := row]> t
  end.

Definition insert_or_replace_Track (id : string) (row : TrackRow) : Store → Store :=
  set_Track (insert id row).
Definition insert_or_ignore_Track (id : string) : Store → Store :=
  set_Track (insert_or_ignore id placeholder_track).

Definition insert_or_replace_Album (id : string) (row : AlbumRow) : Store → Store :=
  set_Album (insert id row).
Definition insert_or_ignore_Album (id : string) : Store → Store :=
  set_Album (insert_or_ignore id placeholder_album).

Definition insert_or_replace_Artist (id : string) (row : ArtistRow) : Store → Store :=
  set_Artist (insert id row).
Definition insert_or_ignore_Artist (id : string) : Store → Store :=
  set_Artist (insert_or_ignore id placeholder_artist).

Definition insert_or_ignore_TrackArtist (track_id artist_id : string) : Store → Store :=
  set_TrackArtist (union {[ (track_id, artist_id) ]}).
Definition insert_or_ignore_AlbumArtist (album_id artist_id : string) : Store → Store :=
  set_AlbumArtist (union {[ (album_id, artist_id) ]}).
Definition insert_or_ignore_ArtistGenre (artist_id : string) (genre_id : nat) : Store → Store :=
  set_ArtistGenre (union {[ (artist_id, genre_id) ]}).

(** [INSERT OR IGNORE INTO Genre (name) VALUES (?)] with a string. *)
Definition insert_or_ignore_Genre (name : string) (s : Store) : Store :=
  match Genre s !! name with
  | Some _ => s
  | None =>
      {| Track := Track s; Album := Album s; Artist := Artist s;
         Genre := <[name := S (Genre_seq s)]> (Genre s);
         Genre_seq := S (Genre_seq s);
         Genre_unnamed := Genre_unnamed s;
         Area := Area s; Area_seq := Area_seq s;
         Area_unkeyed := Area_unkeyed s;
         TrackArtist := TrackArtist s;
         AlbumArtist := AlbumArtist s; ArtistGenre := ArtistGenre s |}
  end.

(** [SELECT id FROM Genre WHERE name = ?] then [fetchone()], with a
    string. *)
Definition select_Genre_id (name : string) (s : Store) : option nat :=
  Genre s !! name.

(** [INSERT OR IGNORE INTO Area (name, type) VALUES (?, ?)] with two
    strings. *)
Definition insert_or_ignore_Area (name type : string) (s : Store) : Store :=
  match Area s !! (name, type) with
  | Some _ => s
  | None =>
      {| Track := Track s; Album := Album s; Artist := Artist s;
         Genre := Genre s; Genre_seq := Genre_seq s;
         Genre_unnamed := Genre_unnamed s;
         Area := <[(name, type) := S (Area_seq s)]> (Area s);
         Area_seq := S (Area_seq s);
         Area_unkeyed := Area_unkeyed s;
         TrackArtist := TrackArtist s;
         AlbumArtist := AlbumArtist s; ArtistGenre := ArtistGenre s |}
  end.

(** [SELECT id FROM Area WHERE name = ? AND type = ?] then [fetchone()],
    with two strings. *)
Definition select_Area_id (name type : string) (s : Store) : option nat :=
  Area s !! (name, type).

(** The same statements with parameters that may be Python's [None],
    which sqlite3 binds as NULL.  A NULL name is no duplicate of any
    name, so the INSERT adds a row each time; and [name = NULL] is true
    of no row, so the SELECT finds none. *)
Definition insert_Genre_unnamed (s : Store) : Store :=
  {| Track := Track s; Album := Album s; Artist := Artist s;
     Genre := Genre s; Genre_seq := S (Genre_seq s);
     Genre_unnamed := {[ S (Genre_seq s) ]} ∪ Genre_unnamed s;
     Area := Area s; Area_seq := Area_seq s; Area_unkeyed := Area_unkeyed s;
     TrackArtist := TrackArtist s;
     AlbumArtist := AlbumArtist s; ArtistGenre := ArtistGenre s |}.

Definition insert_or_ignore_Genre_param (name : option string) : Store → Store :=
  match name with
  | Some name => insert_or_ignore_Genre name
  | None => insert_Genre_unnamed
  end.

Definition select_Genre_id_param (name : option string) (s : Store) : option nat :=
  match name with
  | Some name => select_Genre_id name s
  | None => None
  end.

Definition insert_Area_unkeyed (name type : option string) (s : Store) : Store :=
  {| Track := Track s; Album := Album s; Artist := Artist s;
     Genre := Genre s; Genre_seq := Genre_seq s;
     Genre_unnamed := Genre_unnamed s;
     Area := Area s; Area_seq := S (Area_seq s);
     Area_unkeyed := <[S (Area_seq s) := (name, type)]> (Area_unkeyed s);
     TrackArtist := TrackArtist s;
     AlbumArtist := AlbumArtist s; ArtistGenre := ArtistGenre s |}.

Definition insert_or_ignore_Area_param (name type : option string)
    : Store → Store :=
  match name, type with
  | Some name, Some type => insert_or_ignore_Area name type
  | _, _ => insert_Area_unkeyed name type
  end.

Definition select_Area_id_param (name type : option string) (s : Store)
    : option nat :=
  match name, type with
  | Some name, Some type => select_Area_id name type s
  | _, _ => None
  end.

(** [UPDATE Artist SET area_id = ? WHERE id = ?] *)
Definition update_Artist_area_id (area_id : nat) (id : string) : Store → Store :=
  set_Artist (alter (fun row =>
    {| artist_name := artist_name row;
       artist_popularity := artist_popularity row;
       artist_followers := artist_followers row;
       artist_area_id := Some area_id;
       artist_retrieved_albums := artist_retrieved_albums row |}) id).

(** [UPDATE Artist SET retrieved_albums = 1 WHERE id = ?] *)
Definition update_Artist_retrieved_albums (id : string) : Store → Store :=
  set_Artist (alter (fun row =>
    {| artist_name := artist_name row;
       artist_popularity := artist_popularity row;
       artist_followers := artist_followers row;
       artist_area_id := artist_area_id row;
       artist_retrieved_albums := Some 1 |}) id).

(** ** The cursor *)

(** A cursor holds the store and, for reasoning about what a crash could
    expose, the journal: the store as it was after each executed write
    statement, oldest first. *)
Record Cursor := { db : Store; journal : list Store }.

Definition Sql (A : Type) : Type := Cursor → Result A * Cursor.

#[global] Instance Sql_ret : MRet Sql := λ A a c, (Return a, c).

#[global] Instance Sql_bind : MBind Sql := λ A B k m c,
  match m c with
  | (Return a, c') => k a c'
  | (Raise e, c') => (Raise e, c')
  end.

Definition raise {A} (e : Exn) : Sql A := λ c, (Raise e, c).

(** [cursor.execute] of a write statement. *)
Definition execute (stmt : Store → Store) : Sql unit := λ c,
  let s := stmt (db c) in
  (Return tt, {| db := s; journal := journal c ++ [s] |}).

(** [cursor.execute] of a SELECT followed by [cursor.fetchone()]. *)
Definition fetchone {A} (query : Store → A) : Sql A := λ c,
  (Return (query (db c)), c).

Fixpoint for_each {A} (l : list A) (body : A → Sql unit) : Sql unit :=
  match l with
  | [] => mret tt
  | x :: l' => body x ;; for_each l' body
  end.

(** ** spot_load.py: the persisters *)

(** The fields the persisters read from the provider's JSON objects, typed
    as the docstrings type them; [artists] and [tracks.items] are reduced
    to the ids read from them.  The records hold the entries the
    persisters accept.  An entry of another shape makes the source raise:
    a null entry of the batch or a null where an object, a list or a
    number is read ([TypeError]), a missing key ([KeyError]), an integer
    outside the 64 bits of an SQLite INTEGER ([OverflowError], raised by
    [cursor.execute] before it writes).  Such entries are left out: what
    follows says what the persisters write, not that they return. *)
Record TrackRec := {
  t_id : string;
  t_name : string;
  t_artists : list string;
  t_album : string;
  t_duration_ms : Z;
  t_popularity : Z;
  t_explicit : bool;
  t_track_number : Z
}.

Record AlbumRec := {
  al_id : string;
  al_name : string;
  al_artists : list string;
  al_release_date : string;
  al_total_tracks : Z;
  al_label : string;
  al_album_type : string;
  al_popularity : Z;
  al_tracks : list string
}.

Record ArtistRec := {
  ar_id : string;
  ar_name : string;
  ar_popularity : Z;
  ar_followers : Z;
  ar_genres : list string
}.

Definition dump_track (track : TrackRec) : Sql unit :=
  let track_id := t_id track in
  let artist_ids := t_artists track in
  let album_id := t_album track in
  execute (insert_or_replace_Track track_id
    {| track_name := Some (t_name track);
       track_album_id := Some album_id;
       track_duration := Some (t_duration_ms track);
       track_popularity := Some (t_popularity track);
       track_explicit := Some (if t_explicit track then 1 else 0);
       track_number := Some (t_track_number track) |}) ;;
  for_each artist_ids (λ artist_id,
    execute (insert_or_ignore_TrackArtist track_id artist_id) ;;
    execute (insert_or_ignore_Artist artist_id)) ;;
  execute (insert_or_ignore_Album album_id).

Definition dump_tracks (tracks : list TrackRec) : Sql unit :=
  for_each tracks dump_track.

(** Lines 558-562 of dump_albums: conversion of the release date. *)
Definition normalize_release_date (release_date : string) : Result string :=
  let n := String.length release_date in
  if (n =? 4)%nat then Return (release_date +:+ "-01-01")
  else if (n =? 7)%nat then Return (release_date +:+ "-01")
  else if (n =? 10)%nat then Return release_date
  else Raise (ValueError ("Invalid release date: " +:+ release_date)).

Definition dump_album (album : AlbumRec) : Sql unit :=
  let album_id := al_id album in
  let artist_ids := al_artists album in
  match normalize_release_date (al_release_date album) with
  | Raise e => raise e
  | Return release_date =>
      execute (insert_or_replace_Album album_id
        {| album_name := Some (al_name album);
           album_release_date := Some release_date;
           album_total_tracks := Some (al_total_tracks album);
           album_label := Some (al_label album);
           album_type := Some (al_album_type album);
           album_popularity := Some (al_popularity album) |}) ;;
      for_each artist_ids (λ artist_id,
        execute (insert_or_ignore_AlbumArtist album_id artist_id) ;;
        execute (insert_or_ignore_Artist artist_id)) ;;
      for_each (al_tracks album) (λ track_id,
        execute (insert_or_ignore_Track track_id))
  end.

Definition dump_albums (albums : list AlbumRec) : Sql unit :=
  for_each albums dump_album.

Definition dump_artist (artist : ArtistRec) : Sql unit :=
  let artist_id := ar_id artist in
  execute (insert_or_replace_Artist artist_id
    {| artist_name := Some (ar_name artist);
       artist_popularity := Some (ar_popularity artist);
       artist_followers := Some (ar_followers artist);
       artist_area_id := None;
       artist_retrieved_albums := default_retrieved_albums |}) ;;
  for_each (ar_genres artist) (λ genre,
    execute (insert_or_ignore_Genre genre) ;;
    row ← fetchone (select_Genre_id genre) ;
    match row with
    | None => raise (TypeError "'NoneType' object is not subscriptable")
    | Some genre_id =>
        execute (insert_or_ignore_ArtistGenre artist_id genre_id)
    end).

Definition dump_artists (artists : list ArtistRec) : Sql unit :=
  for_each artists dump_artist.

(** ** musicbrainz_load.py: save_artist_data_to_db *)

Definition unknown_info : ArtistInfo :=
  ((Some "Unknown", Some "Unknown"), [Some "Unknown"]).

(** The body of the loop over [artist_data]: a row [(id, name)] of the
    scan, both strings. *)
Definition save_artist (fetched_data : gmap (option string) ArtistInfo)
    (artist : string * string) : Sql unit :=
  let '(artist_id, artist_name) := artist in
  let '(area, genres) :=
    default unknown_info (fetched_data !! Some artist_name) in
  execute (insert_or_ignore_Area_param area.1 area.2) ;;
  area_row ← fetchone (select_Area_id_param area.1 area.2) ;
  match area_row with
  | None => mret tt                                   (* continue *)
  | Some area_id =>
      execute (update_Artist_area_id area_id artist_id) ;;
      for_each genres (λ genre,
        execute (insert_or_ignore_Genre_param genre) ;;
        genre_row ← fetchone (select_Genre_id_param genre) ;
        match genre_row with
        | None => mret tt                             (* continue *)
        | Some genre_id =>
            execute (insert_or_ignore_ArtistGenre artist_id genre_id)
        end)
  end.

Definition save_artist_data_to_db (artist_data : list (string * string))
    (fetched_data : gmap (option string) ArtistInfo) : Sql unit :=
  for_each artist_data (save_artist fetched_data).

(** ** spot_load.py: paginated album listing *)

(** The JSON bodies the scheduler reads: the three batch endpoints and one
    page of an artist's album listing ([total] and the ids of [items]). *)
Inductive Payload :=
| PTracks (tracks : list TrackRec)
| PAlbums (albums : list AlbumRec)
| PArtists (artists : list ArtistRec)
| PAlbumPage (total : Z) (items : list string).

(** How the [for attempt in range(retries)] loop of get_artist_albums
    ends: by [break] after a page, by [return items], or by running out of
    attempts. *)
Inductive PageEnd :=
| PageFetched (total : Z) (items : list string)
| PageAbandoned
| PageExhausted.

Fixpoint album_page_attempts (url : string) (retries attempt remaining : nat)
    (e : Env Payload) : Result PageEnd * Env Payload :=
  match remaining with
  | O => (Return PageExhausted, e)
  | S remaining' =>
      let (response, e) := requests_get url e in
      match response with
      | RespOk (PAlbumPage total items) => (Return (PageFetched total items), e)
      | RespOk _ => (Return (PageFetched 0 []), e)
      | RespHttpError status_code header =>
          if (status_code =? 429)%Z && (attempt <? retries - 1)%nat then
            let retry_after := default 1 header in
            if (retry_after <? 0)%Z
            then (Raise (ValueError "sleep length must be non-negative"), e)
            else album_page_attempts url retries (S attempt) remaining'
                   (sleep (inject_Z retry_after) e)
          else (Return PageAbandoned, e)
      | RespTransportError =>
          album_page_attempts url retries (S attempt) remaining'
            (sleep (pow2 attempt) e)
      end
  end.

Definition albums_url (artist_id : string) (offset : Z) : string :=
  "https://api.spotify.com/v1/artists/" +:+ artist_id
    +:+ "/albums?limit=50&offset=" +:+ pretty offset
    +:+ "&include_groups=album,single".

(** [while offset < total: ...]; the loop need not end, so it runs on
    fuel and [None] means the fuel ran out. *)
Fixpoint get_artist_albums_loop (fuel : nat) (artist_id : string)
    (retries : nat) (offset total : Z) (items : list string)
    (w : World Payload) : option (Result (list string) * World Payload) :=
  match fuel with
  | O => None
  | S fuel' =>
      if (offset <? total)%Z then
        let (e, l) := check_rate_limit w in
        match album_page_attempts (albums_url artist_id offset) retries 0 retries e with
        | (Raise ex, e) => Some (Raise ex, (e, l))
        | (Return (PageFetched total' page), e) =>
            get_artist_albums_loop fuel' artist_id retries (offset + 50) total'
              (items ++ page) (e, l)
        | (Return PageAbandoned, e) => Some (Return items, (e, l))
        | (Return PageExhausted, e) =>
            get_artist_albums_loop fuel' artist_id retries offset total items (e, l)
        end
      else Some (Return items, w)
  end.

Definition get_artist_albums (fuel : nat) (artist_id : string) (retries : nat)
    (w : World Payload) : option (Result (list string) * World Payload) :=
  get_artist_albums_loop fuel artist_id retries 0 51 [] w.

(** ** spot_load.py: the scheduler *)

Record Sched := {
  world : World Payload;
  cursor : Cursor;
  committed : Store;             (* the store as of the last conn.commit() *)
  check_type : string
}.

Definition with_world (w : World Payload) (st : Sched) : Sched :=
  {| world := w; cursor := cursor st; committed := committed st;
     check_type := check_type st |}.
Definition with_cursor (c : Cursor) (st : Sched) : Sched :=
  {| world := world st; cursor := c; committed := committed st;
     check_type := check_type st |}.
Definition with_check_type (t : string) (st : Sched) : Sched :=
  {| world := world st; cursor := cursor st; committed := committed st;
     check_type := t |}.
Definition commit (st : Sched) : Sched :=
  {| world := world st; cursor := cursor st; committed := db (cursor st);
     check_type := check_type st |}.

Definition is_null {A} (o : option A) : bool :=
  match o with None => true | Some _ => false end.

Definition is_zero (o : option Z) : bool :=
  match o with Some 0 => true | _ => false end.

Definition select_ids {V} (where_ : V → bool) (t : gmap string V) : list string :=
  (filter (λ kv, where_ kv.2 = true) (map_to_list t)).*1.

(** [SELECT id FROM Track WHERE name IS NULL], and so on. *)
Definition tracks_without_name (s : Store) : list string :=
  select_ids (λ row, is_null (track_name row)) (Track s).
Definition albums_without_name (s : Store) : list string :=
  select_ids (λ row, is_null (album_name row)) (Album s).
Definition artists_without_name (s : Store) : list string :=
  select_ids (λ row, is_null (artist_name row)) (Artist s).
Definition artists_without_albums (s : Store) : list string :=
  select_ids (λ row, is_zero (artist_retrieved_albums row)) (Artist s).
(** [... WHERE name IS NULL OR retrieved_albums = 0] *)
Definition artists_incomplete (s : Store) : list string :=
  select_ids (λ row, is_null (artist_name row)
                     || is_zero (artist_retrieved_albums row)) (Artist s).

(** What differs between the three batch stages of the main loop. *)
Record StageConfig := {
  stage_type : string;            (* the check_type that enables the stage *)
  stage_next : string;            (* the check_type set when it is exhausted *)
  stage_kind : string;            (* item_type passed to get_batch_info *)
  stage_limit : nat;              (* LIMIT of the scan *)
  stage_commit_every : nat;       (* commit when i % n == 0 *)
  stage_scan : Store → list string;
  stage_dump : Payload → Sql unit (* batch['tracks'] etc., then dump_* *)
}.

Definition tracks_stage : StageConfig :=
  {| stage_type := "tracks"; stage_next := "albums"; stage_kind := "track";
     stage_limit := 50; stage_commit_every := 20;
     stage_scan := tracks_without_name;
     stage_dump := λ batch,
       match batch with
       | PTracks tracks => dump_tracks tracks
       | _ => raise (KeyError "tracks")
       end |}.

Definition albums_stage : StageConfig :=
  {| stage_type := "albums"; stage_next := "artists"; stage_kind := "album";
     stage_limit := 20; stage_commit_every := 20;
     stage_scan := albums_without_name;
     stage_dump := λ batch,
       match batch with
       | PAlbums albums => dump_albums albums
       | _ => raise (KeyError "albums")
       end |}.

Definition artists_stage : StageConfig :=
  {| stage_type := "artists"; stage_next := "tracks"; stage_kind := "artist";
     stage_limit := 50; stage_commit_every := 1;
     stage_scan := artists_without_name;
     stage_dump := λ batch,
       match batch with
       | PArtists artists => dump_artists artists
       | _ => raise (KeyError "artists")
       end |}.

Section Scheduler.

(** [ORDER BY RANDOM()]: the order in which a scan returns its rows is
    chosen by the environment. *)
Variable random_order : list string → list string.

(** One of the three [while True] loops over pages of incomplete rows;
    [i] is the page counter.  [None]: the fuel ran out. *)
Fixpoint run_stage (cfg : StageConfig) (fuel i : nat) (st : Sched)
    : option (Result unit * Sched) :=
  match fuel with
  | O => None
  | S fuel' =>
      if negb (String.eqb (check_type st) (stage_type cfg))
      then Some (Return tt, st)
      else
        let ids := take (stage_limit cfg)
                     (random_order (stage_scan cfg (db (cursor st)))) in
        match ids with
        | [] => Some (Return tt, with_check_type (stage_next cfg) (commit st))
        | _ :: _ =>
            match get_batch_info (stage_kind cfg) ids 3 (world st) with
            | (Raise ex, w) => Some (Raise ex, with_world w st)
            | (Return batch, w) =>
                let st := with_world w st in
                let dumped :=
                  match batch with
                  | Some payload => stage_dump cfg payload (cursor st)
                  | None => (Return tt, cursor st)
                  end in
                match dumped with
                | (Raise ex, c) => Some (Raise ex, with_cursor c st)
                | (Return _, c) =>
                    let st := with_cursor c st in
                    let st := if (i mod stage_commit_every cfg =? 0)%nat
                              then commit st else st in
                    run_stage cfg fuel' (S i) st
                end
            end
        end
  end.

(** dump_artist_albums: list the artist's albums and insert a
    placeholder for each. *)
Definition dump_artist_albums (fuel : nat) (artist_id : string) (st : Sched)
    : option (Result unit * Sched) :=
  match get_artist_albums fuel artist_id 3 (world st) with
  | None => None
  | Some (Raise ex, w) => Some (Raise ex, with_world w st)
  | Some (Return albums, w) =>
      let (r, c) := for_each albums (λ album_id,
                      execute (insert_or_ignore_Album album_id)) (cursor st) in
      Some (r, with_cursor c (with_world w st))
  end.

(** [for artist_id in artist_ids:] dump_artist_albums, then
    [UPDATE Artist SET retrieved_albums = 1 WHERE id = ?]. *)
Fixpoint dump_albums_of (fuel : nat) (artist_ids : list string) (st : Sched)
    : option (Result unit * Sched) :=
  match artist_ids with
  | [] => Some (Return tt, st)
  | artist_id :: rest =>
      match dump_artist_albums fuel artist_id st with
      | None => None
      | Some (Raise ex, st) => Some (Raise ex, st)
      | Some (Return _, st) =>
          let (_, c) := execute (update_Artist_retrieved_albums artist_id)
                          (cursor st) in
          dump_albums_of fuel rest (with_cursor c st)
      end
  end.

(** The [while True] loop under [if check_albums:]. *)
Fixpoint run_artist_albums (fuel : nat) (st : Sched)
    : option (Result unit * Sched) :=
  match fuel with
  | O => None
  | S fuel' =>
      let artist_ids := take 50 (artists_without_albums (db (cursor st))) in
      match artist_ids with
      | [] => Some (Return tt, with_check_type "tracks" (commit st))
      | _ :: _ =>
          match dump_albums_of fuel' artist_ids st with
          | None => None
          | Some (Raise ex, st) => Some (Raise ex, st)
          | Some (Return _, st) => run_artist_albums fuel' (commit st)
          end
      end
  end.

Definition and_then (m : option (Result unit * Sched))
    (k : Sched → option (Result unit * Sched)) : option (Result unit * Sched) :=
  match m with
  | None => None
  | Some (Raise ex, st) => Some (Raise ex, st)
  | Some (Return _, st) => k st
  end.

(** [if check_type != 'tracks' and ... : check_type = 'tracks'] *)
Definition default_check_type (st : Sched) : Sched :=
  if mem_string (check_type st) ["tracks"; "albums"; "artists"]
  then st else with_check_type "tracks" st.

(** The body of the outer [while True] up to the three final counts. *)
Definition run_stages (fuel : nat) (check_albums : bool) (st : Sched)
    : option (Result unit * Sched) :=
  and_then (run_stage tracks_stage fuel 1 st) (λ st,
  and_then (run_stage albums_stage fuel 1 st) (λ st,
  and_then (run_stage artists_stage fuel 1 st) (λ st,
  and_then (if check_albums then run_artist_albums fuel st
            else Some (Return tt, st)) (λ st,
  Some (Return tt, default_check_type st))))).

(** Lines 805-815: the three [SELECT COUNT(id) ...] tests; [true] is
    [continue], [false] falls through to [break]. *)
Definition must_continue (s : Store) : bool :=
  if (0 <? length (tracks_without_name s))%nat then true
  else if (0 <? length (albums_without_name s))%nat then true
  else if (0 <? length (artists_incomplete s))%nat then true
  else false.

Inductive Outcome :=
| Done (st : Sched)            (* "All items updated." and break *)
| Raised (ex : Exn) (st : Sched)
| OutOfFuel.

(** The outer [while True]; [passes] bounds the number of passes and
    [fuel] the iterations of each inner loop.  The [conn.commit()] after
    the loop and the one in [finally] are the [commit] on each exit. *)
Fixpoint main_loop (passes fuel : nat) (check_albums : bool) (st : Sched)
    : Outcome :=
  match passes with
  | O => OutOfFuel
  | S passes' =>
      match run_stages fuel check_albums st with
      | None => OutOfFuel
      | Some (Raise ex, st) => Raised ex (commit st)
      | Some (Return _, st) =>
          if must_continue (db (cursor st))
          then main_loop passes' fuel check_albums st
          else Done (commit st)
      end
  end.

End Scheduler.

(** ** musicbrainz_load.py: the main loop *)

Definition BATCH_SIZE : nat := 100.

(** The ArtistGenre rows that [Artist A LEFT JOIN ArtistGenre AG ON
    A.id = AG.artist_id] joins to one artist. *)
Definition genre_rows_of (artist_id : string) (s : Store) : list (string * nat) :=
  filter (λ edge, edge.1 = artist_id) (elements (ArtistGenre s)).

(** The rows of the join for one artist that pass
    [WHERE (A.area_id IS NULL OR AG.artist_id IS NULL)
       AND A.name IS NOT NULL], as [(A.id, A.name)]: an artist without
    ArtistGenre rows gives one row, with AG NULL; an artist with some gives
    one row per ArtistGenre row, kept when area_id is NULL. *)
Definition unenriched_rows (s : Store) (artist : string * ArtistRow)
    : list (string * string) :=
  let (artist_id, row) := artist in
  match artist_name row with
  | None => []
  | Some name =>
      match genre_rows_of artist_id s with
      | [] => [(artist_id, name)]
      | edges =>
          if is_null (artist_area_id row)
          then map (λ _, (artist_id, name)) edges
          else []
      end
  end.

(** The scan of the main loop, [LIMIT BATCH_SIZE]. *)
Definition select_unenriched (s : Store) : list (string * string) :=
  take BATCH_SIZE (flat_map (unenriched_rows s) (map_to_list (Artist s))).

Record MBSched := {
  mb_world : MBWorld;
  mb_cursor : Cursor;
  mb_committed : Store           (* the store as of the last conn.commit() *)
}.

(** [while True:] scan, leave when the scan is empty, else fetch, save
    and commit.  An exception leaves the loop; [finally] commits.
    [None]: the fuel ran out. *)
Fixpoint mb_main (fuel : nat) (st : MBSched) : option (Result unit * MBSched) :=
  match fuel with
  | O => None
  | S fuel' =>
      let artist_batch := select_unenriched (db (mb_cursor st)) in
      match artist_batch with
      | [] =>
          Some (Return tt,
                {| mb_world := mb_world st; mb_cursor := mb_cursor st;
                   mb_committed := db (mb_cursor st) |})
      | _ :: _ =>
          let artist_names := map snd artist_batch in
          let (fetched_results, w) :=
            get_artist_data_batch artist_names 5 (mb_world st) in
          match fetched_results with
          | Raise ex =>
              Some (Raise ex,
                    {| mb_world := w; mb_cursor := mb_cursor st;
                       mb_committed := db (mb_cursor st) |})
          | Return fetched_results =>
              match save_artist_data_to_db artist_batch fetched_results
                      (mb_cursor st) with
              | (Raise ex, c) =>
                  Some (Raise ex,
                        {| mb_world := w; mb_cursor := c; mb_committed := db c |})
              | (Return _, c) =>
                  mb_main fuel'
                    {| mb_world := w; mb_cursor := c; mb_committed := db c |}
              end
          end
      end
  end.

(* ===================================================================== *)
(** * Part II: vocabulary of the properties, and sample worlds            *)
(* ===================================================================== *)

(** A run of the limiter: before each call some non-negative amount of
    time passes (the request itself, persisting, other sleeps). *)
Definition limiter_run {B} (gaps : list Q) (w : Env B * Limiter)
    : Env B * Limiter :=
  fold_left (fun w gap => check_rate_limit (elapse gap (fst w), snd w)) gaps w.

(** The number of timestamps of [d] that lie within [window] seconds
    before the instant [T]. *)
Definition in_window (T window ts : Q) : bool := Qle_bool (T - ts) window.

Definition count_within (T window : Q) (d : list Q) : nat :=
  length (filter (fun ts => in_window T window ts = true) d).

(** Every window holds at most its cap of timestamps at the instant [T]. *)
Definition within_caps (T : Q) (l : Limiter) : Prop :=
  (count_within T 30 (halfmin_timestamps l) <= MAX_REQUESTS_PER_30_SEC)%nat
  ∧ (count_within T 3600 (hourly_timestamps l) <= MAX_REQUESTS_PER_HOUR)%nat
  ∧ (count_within T 86400 (daily_timestamps l) <= MAX_REQUESTS_PER_DAY)%nat.

Definition quiet_env : Env unit := {| now := 0; http := []; events := [] |}.

Definition is_sleep (ev : Event) : Prop :=
  match ev with EvSleep _ => True | EvGet _ => False end.

(** A server that fails once with status 500 and then answers. *)
Definition flaky_env : Env string :=
  {| now := 0; http := [RespHttpError 500 None; RespOk "body"]; events := [] |}.

(** A server that answers 404 to everything asked of it. *)
Definition missing_env : Env string :=
  {| now := 0;
     http := [RespHttpError 404 None; RespHttpError 404 None;
              RespHttpError 404 None];
     events := [] |}.

Definition transport_errors {B} (n : nat) (script : list (Response B)) : Prop :=
  Forall (λ r, r = RespTransportError) (take n script).

(** The first [n] answers are failures of any kind. *)
Definition failures {B} (n : nat) (script : list (Response B)) : Prop :=
  Forall (λ r, ∀ body, r ≠ RespOk body) (take n script).

(** The wait of attempt [k] is [2 ** k] plus the [k]-th draw. *)
Definition jittered_waits (first_attempt n : nat) (draws : list Q) : list Q :=
  map (λ k, pow2 (first_attempt + k) + nth k draws 0)%Q (seq 0 n).

Definition quiet_mb_world : MBWorld :=
  {| mb_env := {| now := 0; http := []; events := [] |};
     timestamps := []; uniform_draws := [1 # 2; 1 # 4]%Q |}.

(** A network that is down. *)
Definition down_env : Env string := {| now := 0; http := []; events := [] |}.

(** Postconditions of cursor programs: [wp m Q c] says that running [m]
    on the cursor [c] ends in a result and a cursor that satisfy [Q]. *)
Definition wp {A} (m : Sql A) (Q : Result A → Cursor → Prop) (c : Cursor) : Prop :=
  Q (m c).1 (m c).2.

(** A cursor opened on a store, with nothing executed yet. *)
Definition open_cursor (s : Store) : Cursor := {| db := s; journal := [] |}.

(** The effect of one executed write statement on a cursor. *)
Definition executed (stmt : Store → Store) (c : Cursor) : Cursor :=
  {| db := stmt (db c); journal := journal c ++ [stmt (db c)] |}.

(** No junction row refers to a parent that has no row. *)
Definition no_dangling (s : Store) : Prop :=
  (∀ track_id artist_id, (track_id, artist_id) ∈ TrackArtist s →
     is_Some (Track s !! track_id) ∧ is_Some (Artist s !! artist_id))
  ∧ (∀ album_id artist_id, (album_id, artist_id) ∈ AlbumArtist s →
       is_Some (Album s !! album_id) ∧ is_Some (Artist s !! artist_id))
  ∧ (∀ artist_id genre_id, (artist_id, genre_id) ∈ ArtistGenre s →
       is_Some (Artist s !! artist_id) ∧ ∃ name, Genre s !! name = Some genre_id).

(** Every parent row of [s] is still there in [s']. *)
Definition parents_kept (s s' : Store) : Prop :=
  (∀ id, is_Some (Track s !! id) → is_Some (Track s' !! id))
  ∧ (∀ id, is_Some (Album s !! id) → is_Some (Album s' !! id))
  ∧ (∀ id, is_Some (Artist s !! id) → is_Some (Artist s' !! id))
  ∧ (∀ name genre_id, Genre s !! name = Some genre_id →
       Genre s' !! name = Some genre_id).

(** In a sequence of stores, one with a dangling junction row is
    followed at once by one without. *)
Definition mended_at_once (states : list Store) : Prop :=
  ∀ i s, states !! i = Some s →
    no_dangling s ∨ ∃ s', states !! S i = Some s' ∧ no_dangling s'.

Definition empty_store : Store :=
  {| Track := ∅; Album := ∅; Artist := ∅;
     Genre := ∅; Genre_seq := 0; Genre_unnamed := ∅;
     Area := ∅; Area_seq := 0; Area_unkeyed := ∅;
     TrackArtist := ∅; AlbumArtist := ∅; ArtistGenre := ∅ |}.

Definition sample_track : TrackRec :=
  {| t_id := "t1"; t_name := "Song"; t_artists := ["a1"]; t_album := "al1";
     t_duration_ms := 200000; t_popularity := 7; t_explicit := false;
     t_track_number := 1 |}.

Definition sample_album : AlbumRec :=
  {| al_id := "al1"; al_name := "Record"; al_artists := ["a1"];
     al_release_date := "2001-05"; al_total_tracks := 1; al_label := "Label";
     al_album_type := "album"; al_popularity := 5; al_tracks := ["t1"] |}.

Definition sample_artist : ArtistRec :=
  {| ar_id := "a1"; ar_name := "Band"; ar_popularity := 9; ar_followers := 10;
     ar_genres := ["rock"; "pop"] |}.

(** [s'] holds every row and every junction row of [s], unchanged. *)
Definition extends (s s' : Store) : Prop :=
  (∀ id row, Track s !! id = Some row → Track s' !! id = Some row)
  ∧ (∀ id row, Album s !! id = Some row → Album s' !! id = Some row)
  ∧ (∀ id row, Artist s !! id = Some row → Artist s' !! id = Some row)
  ∧ (∀ name id, Genre s !! name = Some id → Genre s' !! name = Some id)
  ∧ (∀ key id, Area s !! key = Some id → Area s' !! key = Some id)
  ∧ TrackArtist s ⊆ TrackArtist s'
  ∧ AlbumArtist s ⊆ AlbumArtist s'
  ∧ ArtistGenre s ⊆ ArtistGenre s'.

(** The rows written by dump_tracks, dump_albums and dump_artists. *)
Definition track_row (track : TrackRec) : TrackRow :=
  {| track_name := Some (t_name track);
     track_album_id := Some (t_album track);
     track_duration := Some (t_duration_ms track);
     track_popularity := Some (t_popularity track);
     track_explicit := Some (if t_explicit track then 1 else 0);
     track_number := Some (t_track_number track) |}.

Definition album_row (album : AlbumRec) (release_date : string) : AlbumRow :=
  {| album_name := Some (al_name album);
     album_release_date := Some release_date;
     album_total_tracks := Some (al_total_tracks album);
     album_label := Some (al_label album);
     album_type := Some (al_album_type album);
     album_popularity := Some (al_popularity album) |}.

Definition artist_row (artist : ArtistRec) : ArtistRow :=
  {| artist_name := Some (ar_name artist);
     artist_popularity := Some (ar_popularity artist);
     artist_followers := Some (ar_followers artist);
     artist_area_id := None;
     artist_retrieved_albums := default_retrieved_albums |}.

(** The store already holds everything persisting the record writes. *)
Definition track_persisted (track : TrackRec) (s : Store) : Prop :=
  Track s !! t_id track = Some (track_row track)
  ∧ Forall (λ artist_id, (t_id track, artist_id) ∈ TrackArtist s
                         ∧ is_Some (Artist s !! artist_id)) (t_artists track)
  ∧ is_Some (Album s !! t_album track).

Definition album_persisted (album : AlbumRec) (release_date : string)
    (s : Store) : Prop :=
  Album s !! al_id album = Some (album_row album release_date)
  ∧ Forall (λ artist_id, (al_id album, artist_id) ∈ AlbumArtist s
                         ∧ is_Some (Artist s !! artist_id)) (al_artists album)
  ∧ Forall (λ track_id, is_Some (Track s !! track_id)) (al_tracks album).

Definition genre_linked (artist_id : string) (s : Store) (genre : string) : Prop :=
  ∃ genre_id, Genre s !! genre = Some genre_id
              ∧ (artist_id, genre_id) ∈ ArtistGenre s.

Definition artist_persisted (artist : ArtistRec) (s : Store) : Prop :=
  Artist s !! ar_id artist = Some (artist_row artist)
  ∧ Forall (genre_linked (ar_id artist) s) (ar_genres artist).

(** What the scan of musicbrainz_load.py tests of an artist:
    [area_id IS NOT NULL], and some ArtistGenre row. *)
Definition has_area (artist_id : string) (s : Store) : Prop :=
  ∃ row area_id, Artist s !! artist_id = Some row
                 ∧ artist_area_id row = Some area_id.

Definition has_genre (artist_id : string) (s : Store) : Prop :=
  ∃ genre_id, (artist_id, genre_id) ∈ ArtistGenre s.

(** What save_artist_data_to_db uses for an artist name: the entry of
    the mapping, or the sentinel. *)
Definition info_used (fetched_data : gmap (option string) ArtistInfo)
    (artist_name : string) : ArtistInfo :=
  default unknown_info (fetched_data !! Some artist_name).

Definition genres_used (fetched_data : gmap (option string) ArtistInfo)
    (artist_name : string) : list (option string) :=
  (info_used fetched_data artist_name).2.

(** The area has a name and a type: neither is Python's [None]. *)
Definition area_known (info : ArtistInfo) : Prop :=
  is_Some info.1.1 ∧ is_Some info.1.2.

(** Some genre of the list is a string. *)
Definition some_genre (genres : list (option string)) : Prop :=
  ∃ genre, Some genre ∈ genres.

(** An entry of the mapping with which an artist ends complete. *)
Definition complete_info (info : ArtistInfo) : Prop :=
  area_known info ∧ some_genre info.2.

(** A search hit without holes: it has the key [name]; neither of its
    areas has a null name or type; each of its tags has a string for
    name. *)
Definition clean_area (area : option MBArea) : Prop :=
  match area with
  | Some a => area_name a ≠ Null ∧ area_type a ≠ Null
  | None => True
  end.

Definition clean_hit (artist : MBArtist) : Prop :=
  mb_name artist ≠ Absent
  ∧ clean_area (mb_area artist)
  ∧ clean_area (mb_begin_area artist)
  ∧ match mb_tags artist with
    | Some tags => Forall (λ tag, ∃ name, tag = Str name) tags
    | None => True
    end.

(** An answer of the server whose hits, if it has any, are without
    holes; a failure is clean. *)
Definition clean_answer (response : Response MBBody) : Prop :=
  match response with
  | RespOk (MBJson hits) => Forall clean_hit hits
  | RespOk MBUndecodable | RespHttpError _ _ | RespTransportError => True
  end.

(** Nothing the enrichment has achieved in [s] is lost in [s']. *)
Definition enrichment_kept (s s' : Store) : Prop :=
  (∀ id, is_Some (Artist s !! id) → is_Some (Artist s' !! id))
  ∧ (∀ id, has_area id s → has_area id s')
  ∧ ArtistGenre s ⊆ ArtistGenre s'.

Definition named_artist (name : string) : ArtistRow :=
  {| artist_name := Some name; artist_popularity := Some 1;
     artist_followers := Some 1; artist_area_id := None;
     artist_retrieved_albums := Some 1 |}.

(** One artist, "a1" named "Band", not yet enriched. *)
Definition band_store : Store :=
  {| Track := ∅; Album := ∅; Artist := {[ "a1" := named_artist "Band" ]};
     Genre := ∅; Genre_seq := 0; Genre_unnamed := ∅;
     Area := ∅; Area_seq := 0; Area_unkeyed := ∅;
     TrackArtist := ∅; AlbumArtist := ∅; ArtistGenre := ∅ |}.

(** A mapping that knows the band's area and no genre of it. *)
Definition band_without_genres : gmap (option string) ArtistInfo :=
  {[ Some "Band" := ((Some "Oslo", Some "City"), []) ]}.

(** A hit for the band whose area has a name and a null type, as
    MusicBrainz gives it for an area without type. *)
Definition band_of_untyped_area : MBArtist :=
  {| mb_name := Str "Band";
     mb_area := Some {| area_name := Str "Oslo"; area_type := Null;
                        area_other_keys := true |};
     mb_begin_area := None;
     mb_tags := Some [Str "rock"] |}.

(** A hit for the band without holes. *)
Definition band_of_oslo : MBArtist :=
  {| mb_name := Str "Band";
     mb_area := Some {| area_name := Str "Oslo"; area_type := Str "City";
                        area_other_keys := true |};
     mb_begin_area := None;
     mb_tags := Some [Str "rock"] |}.

(** The process of musicbrainz_load.py at its start, facing a server that
    gives [answers]. *)
Definition mb_world_of (answers : list (Response MBBody)) : MBWorld :=
  {| mb_env := {| now := 0; http := answers; events := [] |};
     timestamps := []; uniform_draws := [] |}.

(** A store that knows one track only by its id. *)
Definition one_track_store : Store :=
  {| Track := {[ "t1" := placeholder_track ]}; Album := ∅; Artist := ∅;
     Genre := ∅; Genre_seq := 0; Genre_unnamed := ∅;
     Area := ∅; Area_seq := 0; Area_unkeyed := ∅;
     TrackArtist := ∅; AlbumArtist := ∅; ArtistGenre := ∅ |}.

(** A server that answers the four requests the scheduler sends for it:
    the track, its album, its artist, and the artist's album listing. *)
Definition helpful_env : Env Payload :=
  {| now := 0;
     http := [RespOk (PTracks [sample_track]); RespOk (PAlbums [sample_album]);
              RespOk (PArtists [sample_artist]); RespOk (PAlbumPage 1 ["al1"])];
     events := [] |}.

Definition sample_sched : Sched :=
  {| world := (helpful_env, limiter0); cursor := open_cursor one_track_store;
     committed := one_track_store; check_type := "tracks" |}.

(** No row of the store is incomplete: every track and every album has a
    name, every artist has a name and a [retrieved_albums] other than 0.
    This is said of the rows themselves, not of the scans of the main
    loop. *)
Definition all_complete (s : Store) : Prop :=
  (∀ id row, Track s !! id = Some row → track_name row ≠ None)
  ∧ (∀ id row, Album s !! id = Some row → album_name row ≠ None)
  ∧ (∀ id row, Artist s !! id = Some row →
       artist_name row ≠ None ∧ artist_retrieved_albums row ≠ Some 0).

(** [after_passes st st0]: the main loop, started in [st], is in [st0] at
    the head of a pass: it has gone through some passes (none, perhaps),
    each of which ended normally on a store with an incomplete row. *)
Inductive after_passes (random_order : list string → list string)
    (fuel : nat) (check_albums : bool) : Sched → Sched → Prop :=
| after_no_pass (st : Sched) :
    after_passes random_order fuel check_albums st st
| after_one_more (st st1 st0 : Sched) :
    run_stages random_order fuel check_albums st = Some (Return tt, st1) →
    ¬ all_complete (db (cursor st1)) →
    after_passes random_order fuel check_albums st1 st0 →
    after_passes random_order fuel check_albums st st0.

(** Timestamps in increasing order, each at least [base_wait] after the
    one before it. *)
Inductive spaced : list Q → Prop :=
| spaced_nil : spaced []
| spaced_one (t : Q) : spaced [t]
| spaced_cons (t t' : Q) (d : list Q) :
    (t + base_wait <= t')%Q → spaced (t' :: d) → spaced (t :: t' :: d).

(** Every timestamp of [d] is at least [base_wait] before [T]. *)
Definition all_before (T : Q) (d : list Q) : Prop :=
  Forall (λ ts, ts + base_wait <= T)%Q d.

(** The three deques are spaced and lie before [T]. *)
Definition well_spaced (T : Q) (l : Limiter) : Prop :=
  (spaced (halfmin_timestamps l) ∧ all_before T (halfmin_timestamps l))
  ∧ (spaced (hourly_timestamps l) ∧ all_before T (hourly_timestamps l))
  ∧ (spaced (daily_timestamps l) ∧ all_before T (daily_timestamps l)).

(** A sleep of at least [secs] seconds. *)
Definition sleeps_at_least (secs : Q) (ev : Event) : Prop :=
  match ev with EvSleep s => (secs <= s)%Q | EvGet _ => False end.

(** No deque is longer than its cap plus one. *)
Definition deques_bounded (l : Limiter) : Prop :=
  (length (halfmin_timestamps l) <= S MAX_REQUESTS_PER_30_SEC)%nat
  ∧ (length (hourly_timestamps l) <= S MAX_REQUESTS_PER_HOUR)%nat
  ∧ (length (daily_timestamps l) <= S MAX_REQUESTS_PER_DAY)%nat.

(** A failed answer whose [Retry-After], if any, is not negative. *)
Definition benign_failure {B} (r : Response B) : Prop :=
  match r with
  | RespOk _ => False
  | RespHttpError _ (Some retry_after) => 0 <= retry_after
  | RespHttpError _ None | RespTransportError => True
  end.

(** The answers of a server that lists an artist's albums page by page,
    reporting [total] albums each time. *)
Definition album_pages (total : Z) (pages : list (list string))
    : list (Response Payload) :=
  map (λ page, RespOk (PAlbumPage total page)) pages.

(** Going through [pages] from [offset], the loop of get_artist_albums
    asks for each of them ([offset < total] before each) and stops after
    the last ([total <= offset]); [reported] is the total the server
    reports, [total] the one known so far. *)
Fixpoint pages_suffice (offset total reported : Z) (pages : list (list string))
    : Prop :=
  match pages with
  | [] => total <= offset
  | _ :: pages' => offset < total ∧ pages_suffice (offset + 50) reported reported pages'
  end.

(** The same, but after the last of [pages] more is still wanted. *)
Fixpoint pages_fall_short (offset total reported : Z)
    (pages : list (list string)) : Prop :=
  match pages with
  | [] => offset < total
  | _ :: pages' =>
      offset < total ∧ pages_fall_short (offset + 50) reported reported pages'
  end.

(** The URLs of [n] consecutive pages from [offset]. *)
Fixpoint page_urls (artist_id : string) (offset : Z) (n : nat) : list string :=
  match n with
  | O => []
  | S n' => albums_url artist_id offset :: page_urls artist_id (offset + 50) n'
  end.

Definition down_world : World Payload :=
  ({| now := 0; http := []; events := [] |}, limiter0).

(** The Genre and Area tables of [s'] are those of [s]. *)
Definition same_genres_and_areas (s s' : Store) : Prop :=
  Genre s' = Genre s ∧ Genre_seq s' = Genre_seq s
  ∧ Area s' = Area s ∧ Area_seq s' = Area_seq s
  ∧ Genre_unnamed s' = Genre_unnamed s ∧ Area_unkeyed s' = Area_unkeyed s.

(** A table overwritten with the rows of a batch, in order. *)
Definition overwritten {R V} (key : R → string) (row : R → V) (batch : list R)
    (t : gmap string V) : gmap string V :=
  foldl (λ t r, <[key r := row r]> t) t batch.

(** What dump_tracks leaves behind for one track, whatever row another
    track of the batch may have written over its own. *)
Definition track_linked (s : Store) (track : TrackRec) : Prop :=
  (∃ row, Track s !! t_id track = Some row ∧ is_Some (track_name row))
  ∧ is_Some (Album s !! t_album track)
  ∧ Forall (λ artist_id, (t_id track, artist_id) ∈ TrackArtist s
                         ∧ is_Some (Artist s !! artist_id)) (t_artists track).

(** What dump_tracks may change: Track rows of the batch, placeholders
    and TrackArtist rows; nothing else. *)
Definition tracks_frame (s s' : Store) : Prop :=
  Album s ⊆ Album s' ∧ Artist s ⊆ Artist s'
  ∧ TrackArtist s ⊆ TrackArtist s'
  ∧ same_genres_and_areas s s'
  ∧ AlbumArtist s' = AlbumArtist s ∧ ArtistGenre s' = ArtistGenre s.

(** The release date dump_albums stores for an album whose date it
    accepts. *)
Definition stored_release_date (album : AlbumRec) : string :=
  match normalize_release_date (al_release_date album) with
  | Return release_date => release_date
  | Raise _ => al_release_date album
  end.

Definition stored_album_row (album : AlbumRec) : AlbumRow :=
  album_row album (stored_release_date album).

Definition date_accepted (album : AlbumRec) : Prop :=
  normalize_release_date (al_release_date album)
  = Return (stored_release_date album).

(** What dump_albums may change besides the Album rows of the batch:
    placeholders in Track and Artist, and AlbumArtist rows. *)
Definition albums_frame (s s' : Store) : Prop :=
  Track s ⊆ Track s' ∧ Artist s ⊆ Artist s'
  ∧ AlbumArtist s ⊆ AlbumArtist s'
  ∧ same_genres_and_areas s s'
  ∧ TrackArtist s' = TrackArtist s ∧ ArtistGenre s' = ArtistGenre s.

Definition album_linked (s : Store) (album : AlbumRec) : Prop :=
  Forall (λ artist_id, (al_id album, artist_id) ∈ AlbumArtist s
                       ∧ is_Some (Artist s !! artist_id)) (al_artists album)
  ∧ Forall (λ track_id, is_Some (Track s !! track_id)) (al_tracks album).

(** What dump_artists may change besides the Artist rows of the batch:
    new Genre rows and ArtistGenre rows. *)
Definition artists_frame (s s' : Store) : Prop :=
  Genre s ⊆ Genre s' ∧ ArtistGenre s ⊆ ArtistGenre s'
  ∧ Track s' = Track s ∧ Album s' = Album s
  ∧ Area s' = Area s ∧ Area_seq s' = Area_seq s
  ∧ Genre_unnamed s' = Genre_unnamed s ∧ Area_unkeyed s' = Area_unkeyed s
  ∧ TrackArtist s' = TrackArtist s ∧ AlbumArtist s' = AlbumArtist s.

(** An artist row the scan of musicbrainz_load.py still selects: named,
    and without area or without any ArtistGenre row. *)
Definition needs_enrichment (s : Store) (artist_id : string) (row : ArtistRow)
    : bool :=
  match artist_name row with
  | None => false
  | Some _ =>
      is_null (artist_area_id row)
      || match genre_rows_of artist_id s with [] => true | _ :: _ => false end
  end.

(** The ids of the artists that still need enrichment. *)
Definition unenriched (s : Store) : gset string :=
  dom (filter (λ kv, needs_enrichment s kv.1 kv.2 = true) (Artist s)).

(** Enrichment only: every Artist row of [s'] is a row of [s] with the
    same name, whose area_id was NULL if it is NULL now; and no ArtistGenre
    row was removed. *)
Definition enriched_only (s s' : Store) : Prop :=
  (∀ id row', Artist s' !! id = Some row' →
     ∃ row, Artist s !! id = Some row
            ∧ artist_name row = artist_name row'
            ∧ (artist_area_id row' = None → artist_area_id row = None))
  ∧ ArtistGenre s ⊆ ArtistGenre s'.

(** musicbrainz_load.py at its start on the store with the one band,
    facing a server that gives [answers]. *)
Definition band_sched (answers : list (Response MBBody)) : MBSched :=
  {| mb_world := mb_world_of answers; mb_cursor := open_cursor band_store;
     mb_committed := band_store |}.

(** Consecutive timestamps at least [gap] seconds apart. *)
Inductive apart (gap : Q) : list Q → Prop :=
| apart_nil : apart gap []
| apart_one (t : Q) : apart gap [t]
| apart_cons (t t' : Q) (d : list Q) :
    (t + gap <= t')%Q → apart gap (t' :: d) → apart gap (t :: t' :: d).

(** Time that passes between two calls of get_artist_data_batch: saving
    the batch, committing, scanning. *)
Definition after_gap (gap : Q) (w : MBWorld) : MBWorld :=
  {| mb_env := elapse gap (mb_env w); timestamps := timestamps w;
     uniform_draws := uniform_draws w |}.

(** A run of the main loop of musicbrainz_load.py as the server sees it:
    calls of get_artist_data_batch with the default number of retries,
    each after some time. *)
Definition mb_run (calls : list (Q * list string)) (w : MBWorld) : MBWorld :=
  fold_left (λ w call, (get_artist_data_batch call.2 5 (after_gap call.1 w)).2)
            calls w.

(* ===================================================================== *)
(** * Part III: properties                                                *)
(* ===================================================================== *)

(** ** The sliding-window limiter *)

Section OneWindow.

Variables (window : Q) (cap : nat).

Lemma in_window_later (T T' ts : Q) :
  (T <= T')%Q → in_window T' window ts = true → in_window T window ts = true.
Proof.
  unfold in_window. rewrite !Qle_bool_iff. intros. lra.
Qed.

Lemma count_within_app (T : Q) (d1 d2 : list Q) :
  count_within T window (d1 ++ d2)
  = (count_within T window d1 + count_within T window d2)%nat.
Proof. unfold count_within. by rewrite filter_app, length_app. Qed.

Lemma count_within_length (T : Q) (d : list Q) :
  (count_within T window d <= length d)%nat.
Proof. apply length_filter. Qed.

Lemma count_within_later (T T' : Q) (d : list Q) :
  (T <= T')%Q → (count_within T' window d <= count_within T window d)%nat.
Proof.
  intros HT. unfold count_within. induction d as [|ts d IH]; [done|].
  rewrite !filter_cons.
  destruct (decide (in_window T' window ts = true)) as [Hin|Hout].
  - apply (in_window_later T) in Hin; [|done].
    rewrite decide_True by done. simpl. lia.
  - destruct (decide (in_window T window ts = true)); simpl; lia.
Qed.

Lemma evict_suffix (t : Q) (d : list Q) :
  ∃ old, d = old ++ evict t window d.
Proof.
  induction d as [|ts d [old IH]]; [by exists []|].
  simpl. destruct (Qgtb (t - ts) window).
  - exists (ts :: old). simpl. by rewrite <- IH.
  - by exists [].
Qed.

Lemma evict_head (t t0 : Q) (d rest : list Q) :
  evict t window d = t0 :: rest → (t - t0 <= window)%Q.
Proof.
  induction d as [|ts d IH]; [done|]. simpl.
  destruct (Qgtb (t - ts) window) eqn:Hgt; [done|].
  intros [= -> ->]. unfold Qgtb in Hgt.
  apply negb_false_iff, Qle_bool_iff in Hgt. done.
Qed.

Lemma count_within_evict (t : Q) (d : list Q) :
  (count_within t window (evict t window d) <= count_within t window d)%nat.
Proof.
  destruct (evict_suffix t d) as [old Hd].
  rewrite Hd at 2. rewrite count_within_app. lia.
Qed.

(** Sleeping never turns the clock back: a full window waits at least one
    second. *)
Lemma wait_if_full_now {B} (t : Q) (d : list Q) (e : Env B) :
  (now e <= now (wait_if_full t window cap (evict t window d) e))%Q.
Proof.
  unfold wait_if_full. destruct (evict t window d) as [|t0 rest] eqn:Hev.
  - lra.
  - destruct (cap <=? length (t0 :: rest))%nat; [|lra].
    apply evict_head in Hev. simpl. lra.
Qed.

(** A full window waits until its oldest timestamp has left it. *)
Lemma wait_if_full_expires {B} (t t0 : Q) (d rest : list Q) (e : Env B) :
  evict t window d = t0 :: rest →
  (cap <= length (t0 :: rest))%nat →
  (t <= now e)%Q →
  (t0 + window + 1 <= now (wait_if_full t window cap (evict t window d) e))%Q.
Proof.
  intros Hev Hfull Ht. unfold wait_if_full. rewrite Hev.
  apply Nat.leb_le in Hfull. rewrite Hfull. simpl. lra.
Qed.

(** One call, seen from one window: if at most [cap] timestamps lie in
    the window when the call starts, at most [cap] lie in it at any
    instant [T] not before the instant [t'] at which the call's own
    timestamp is appended. *)
Lemma window_step (t t' T : Q) (d : list Q) :
  (0 < cap)%nat →
  (count_within t window d <= cap)%nat →
  (∀ t0 rest, evict t window d = t0 :: rest →
              (cap <= length (t0 :: rest))%nat → (t0 + window + 1 <= t')%Q) →
  (t' <= T)%Q →
  (count_within T window (evict t window d ++ [t]) <= cap)%nat.
Proof.
  intros Hcap Hinv Hwait HT.
  rewrite count_within_app.
  assert (count_within T window [t] <= 1)%nat as H1
    by apply count_within_length.
  destruct (evict t window d) as [|t0 rest] eqn:Hev.
  { change (count_within T window []) with 0%nat. lia. }
  destruct (decide (cap <= length (t0 :: rest))%nat) as [Hfull|Hfree].
  - specialize (Hwait t0 rest eq_refl Hfull).
    assert (Hhead : in_window t window t0 = true).
    { apply evict_head in Hev. unfold in_window. by apply Qle_bool_iff. }
    assert (Hgone : in_window T window t0 ≠ true).
    { unfold in_window. rewrite Qle_bool_iff. lra. }
    destruct (evict_suffix t d) as [old Hd]. rewrite Hev in Hd.
    assert (Hrest : (count_within t window rest < cap)%nat).
    { rewrite Hd in Hinv. change (t0 :: rest) with ([t0] ++ rest) in Hinv.
      rewrite !count_within_app in Hinv.
      assert (count_within t window [t0] = 1%nat) as Hone.
      { unfold count_within. rewrite filter_cons, decide_True by done. done. }
      lia. }
    assert (Htle : (t <= T)%Q).
    { apply evict_head in Hev. lra. }
    pose proof (count_within_later t T rest Htle).
    change (t0 :: rest) with ([t0] ++ rest). rewrite count_within_app.
    assert (count_within T window [t0] = 0%nat) as Hzero.
    { unfold count_within. rewrite filter_cons, decide_False by done. done. }
    lia.
  - pose proof (count_within_length T (t0 :: rest)). lia.
Qed.

End OneWindow.

Lemma within_caps_later (T T' : Q) (l : Limiter) :
  (T <= T')%Q → within_caps T l → within_caps T' l.
Proof.
  intros HT (H1 & H2 & H3). unfold within_caps.
  pose proof (count_within_later 30 T T' (halfmin_timestamps l) HT).
  pose proof (count_within_later 3600 T T' (hourly_timestamps l) HT).
  pose proof (count_within_later 86400 T T' (daily_timestamps l) HT).
  lia.
Qed.


Lemma sleep_now {B} (secs : Q) (e : Env B) : now (sleep secs e) = (now e + secs)%Q.
Proof. done. Qed.

Lemma check_rate_limit_now {B} (e : Env B) (l : Limiter) :
  (now e <= now (check_rate_limit (e, l)).1)%Q.
Proof.
  unfold check_rate_limit, clean_old. simpl.
  set (t := now e). set (e1 := sleep base_wait e).
  set (e2 := wait_if_full t 30 _ _ e1).
  set (e3 := wait_if_full t 3600 _ _ e2).
  pose proof (wait_if_full_now 30 MAX_REQUESTS_PER_30_SEC t (halfmin_timestamps l) e1).
  pose proof (wait_if_full_now 3600 MAX_REQUESTS_PER_HOUR t (hourly_timestamps l) e2).
  pose proof (wait_if_full_now 86400 MAX_REQUESTS_PER_DAY t (daily_timestamps l) e3).
  assert (t <= now e1)%Q by (subst e1 t; rewrite sleep_now; unfold base_wait; lra).
  fold e2 in H. fold e3 in H0. lra.
Qed.

(** One call keeps every window within its cap, at the instant the call
    returns and at every later instant. *)
Lemma check_rate_limit_within_caps {B} (e : Env B) (l : Limiter) (T : Q) :
  within_caps (now e) l →
  (now (check_rate_limit (e, l)).1 <= T)%Q →
  within_caps T (check_rate_limit (e, l)).2.
Proof.
  intros (H1 & H2 & H3). unfold check_rate_limit, clean_old. simpl.
  set (t := now e). set (e1 := sleep base_wait e).
  set (e2 := wait_if_full t 30 _ _ e1).
  set (e3 := wait_if_full t 3600 _ _ e2).
  set (e4 := wait_if_full t 86400 _ _ e3).
  intros HT.
  pose proof (wait_if_full_now 30 MAX_REQUESTS_PER_30_SEC t (halfmin_timestamps l) e1) as M2.
  pose proof (wait_if_full_now 3600 MAX_REQUESTS_PER_HOUR t (hourly_timestamps l) e2) as M3.
  pose proof (wait_if_full_now 86400 MAX_REQUESTS_PER_DAY t (daily_timestamps l) e3) as M4.
  fold e2 in M2. fold e3 in M3. fold e4 in M4.
  assert (t <= now e1)%Q as M1
    by (subst e1 t; rewrite sleep_now; unfold base_wait; lra).
  unfold within_caps. simpl. repeat split.
  - apply (window_step 30 _ t (now e4)); [unfold MAX_REQUESTS_PER_30_SEC; lia|done| |done].
    intros t0 rest Hev Hfull.
    pose proof (wait_if_full_expires 30 _ t t0 _ rest e1 Hev Hfull M1) as E.
    fold e2 in E. lra.
  - apply (window_step 3600 _ t (now e4)); [unfold MAX_REQUESTS_PER_HOUR; lia|done| |done].
    intros t0 rest Hev Hfull.
    assert (t <= now e2)%Q as M by lra.
    pose proof (wait_if_full_expires 3600 _ t t0 _ rest e2 Hev Hfull M) as E.
    fold e3 in E. lra.
  - apply (window_step 86400 _ t (now e4)); [unfold MAX_REQUESTS_PER_DAY; lia|done| |done].
    intros t0 rest Hev Hfull.
    assert (t <= now e3)%Q as M by lra.
    pose proof (wait_if_full_expires 86400 _ t t0 _ rest e3 Hev Hfull M) as E.
    fold e4 in E. lra.
Qed.

Lemma limiter_run_within_caps {B} (gaps : list Q) (w : Env B * Limiter) :
  Forall (λ gap, 0 <= gap)%Q gaps →
  within_caps (now w.1) w.2 →
  within_caps (now (limiter_run gaps w).1) (limiter_run gaps w).2.
Proof.
  intros Hgaps. revert w.
  induction Hgaps as [|gap gaps Hgap _ IH]; intros [e l] Hinv; [done|].
  change (limiter_run (gap :: gaps) (e, l))
    with (limiter_run gaps (check_rate_limit (elapse gap e, l))).
  apply IH. apply check_rate_limit_within_caps; [|lra].
  apply (within_caps_later (now e)); [simpl; lra|done].
Qed.



(** The deque itself is not bounded by the cap: the call that finds the
    30-second window full waits and then appends without evicting, so the
    deque holds 41 timestamps until the next call cleans it. *)
Example halfmin_deque_holds_41_timestamps :
  length (halfmin_timestamps
            (limiter_run (replicate 41 0%Q) (quiet_env, limiter0)).2) = 41%nat.
Proof. vm_compute. reflexivity. Qed.

(** ** The fetchers of spot_load.py *)

Lemma requests_of_app (evs1 evs2 : list Event) :
  requests_of (evs1 ++ evs2) = requests_of evs1 ++ requests_of evs2.
Proof. apply omap_app. Qed.

Lemma requests_of_sleeps (evs : list Event) :
  Forall is_sleep evs → requests_of evs = [].
Proof. induction 1 as [|[] ? ? ? IH]; simpl in *; done. Qed.

Lemma backoff_waits_sleeps (pre rest : list Event) :
  Forall is_sleep pre → backoff_waits (pre ++ rest) = backoff_waits rest.
Proof. induction 1 as [|[] ? ? ? IH]; simpl in *; done. Qed.

Lemma wait_if_full_effects {B} (t window : Q) (cap : nat) (d : list Q) (e : Env B) :
  http (wait_if_full t window cap d e) = http e
  ∧ ∃ sleeps, events (wait_if_full t window cap d e) = events e ++ sleeps
              ∧ Forall is_sleep sleeps.
Proof.
  unfold wait_if_full. destruct d as [|t0 d].
  - split; [done|]. exists []. by rewrite app_nil_r.
  - destruct (cap <=? length (t0 :: d))%nat.
    + split; [done|]. eexists [_]. split; [done|]. by repeat constructor.
    + split; [done|]. exists []. by rewrite app_nil_r.
Qed.

(** check_rate_limit only sleeps: it sends nothing and leaves the
    server's script alone. *)
Lemma check_rate_limit_effects {B} (e : Env B) (l : Limiter) :
  http (check_rate_limit (e, l)).1 = http e
  ∧ ∃ sleeps, events (check_rate_limit (e, l)).1 = events e ++ sleeps
              ∧ Forall is_sleep sleeps.
Proof.
  unfold check_rate_limit. simpl.
  set (t := now e). set (e1 := sleep base_wait e).
  set (e2 := wait_if_full t 30 _ _ e1).
  set (e3 := wait_if_full t 3600 _ _ e2).
  destruct (wait_if_full_effects t 30 MAX_REQUESTS_PER_30_SEC
              (evict t 30 (halfmin_timestamps l)) e1) as (Hh2 & s2 & He2 & Hs2).
  destruct (wait_if_full_effects t 3600 MAX_REQUESTS_PER_HOUR
              (evict t 3600 (hourly_timestamps l)) e2) as (Hh3 & s3 & He3 & Hs3).
  destruct (wait_if_full_effects t 86400 MAX_REQUESTS_PER_DAY
              (evict t 86400 (daily_timestamps l)) e3) as (Hh4 & s4 & He4 & Hs4).
  fold e2 in Hh2, He2. fold e3 in Hh3, He3.
  split.
  - rewrite Hh4, Hh3, Hh2. done.
  - exists ([EvSleep base_wait] ++ s2 ++ s3 ++ s4). split.
    + rewrite He4, He3, He2. subst e1. simpl. by rewrite <- !app_assoc.
    + repeat apply Forall_app_2; try done. by repeat constructor.
Qed.

Arguments check_rate_limit : simpl never.
Arguments requests_get : simpl never.
Arguments sleep : simpl never.

Lemma requests_get_events {B} (url : string) (e : Env B) :
  events (requests_get url e).2 = events e ++ [EvGet url].
Proof. unfold requests_get. by destruct (http e). Qed.

Lemma request_loop_step {B} (url : string) (retries attempt remaining : nat)
    (w : World B) :
  request_loop url retries attempt (S remaining) w
  = let (e, l) := check_rate_limit w in
    let (response, e) := requests_get url e in
    match response with
    | RespOk body => (Return (Some body), (e, l))
    | RespHttpError status_code header =>
        if (status_code =? 429)%Z && (attempt <? retries - 1)%nat then
          let retry_after := default 1 header in
          if (retry_after <? 0)%Z
          then (Raise (ValueError "sleep length must be non-negative"), (e, l))
          else request_loop url retries (S attempt) remaining
                 (sleep (pow2 attempt) (sleep (inject_Z retry_after) e), l)
        else request_loop url retries (S attempt) remaining
               (sleep (pow2 attempt) e, l)
    | RespTransportError =>
        request_loop url retries (S attempt) remaining (sleep (pow2 attempt) e, l)
    end.
Proof. reflexivity. Qed.

(** Every request of the retry loop goes to the one URL it was given. *)
Lemma request_loop_requests {B} (url : string) (retries : nat) :
  ∀ (remaining attempt : nat) (w : World B),
    ∃ (new : list Event) (n : nat),
      events (request_loop url retries attempt remaining w).2.1
        = events w.1 ++ new
      ∧ requests_of new = replicate n url
      ∧ (n <= remaining)%nat.
Proof.
  induction remaining as [|remaining IH]; intros attempt [e l].
  { exists [], 0%nat. simpl. by rewrite app_nil_r. }
  rewrite request_loop_step.
  destruct (check_rate_limit_effects e l) as (_ & sleeps & Hev & Hsl).
  destruct (check_rate_limit (e, l)) as [e1 l1]. simpl in Hev.
  pose proof (requests_get_events url e1) as Hget.
  destruct (requests_get url e1) as [response e2]. simpl in Hget.
  assert (∀ (e3 : Env B) (extra : list Event),
    events e3 = events e2 ++ extra → Forall is_sleep extra →
    ∃ new n,
      events (request_loop url retries (S attempt) remaining (e3, l1)).2.1
        = events e ++ new
      ∧ requests_of new = replicate n url ∧ (n <= S remaining)%nat) as Hnext.
  { intros e3 extra He3 Hextra.
    destruct (IH (S attempt) (e3, l1)) as (new & n & Hnew & Hreq & Hn).
    exists (sleeps ++ [EvGet url] ++ extra ++ new), (S n). split; [|split].
    - rewrite Hnew. simpl. rewrite He3, Hget, Hev. by rewrite <- !app_assoc.
    - rewrite !requests_of_app, (requests_of_sleeps sleeps),
        (requests_of_sleeps extra), Hreq by done. done.
    - lia. }
  destruct response as [body|status_code header|].
  - exists (sleeps ++ [EvGet url]), 1%nat. simpl. split; [|split].
    + rewrite Hget, Hev. by rewrite <- app_assoc.
    + rewrite requests_of_app, requests_of_sleeps by done. done.
    + lia.
  - destruct ((status_code =? 429)%Z && (attempt <? retries - 1)%nat).
    + cbv zeta. destruct (default 1 header <? 0)%Z.
      * exists (sleeps ++ [EvGet url]), 1%nat. simpl. split; [|split].
        -- rewrite Hget, Hev. by rewrite <- app_assoc.
        -- rewrite requests_of_app, requests_of_sleeps by done. done.
        -- lia.
      * eapply (Hnext _ [_; _]); [unfold sleep; simpl; by rewrite <- app_assoc|].
        by repeat constructor.
    + eapply (Hnext _ [_]); [done|]. by repeat constructor.
  - eapply (Hnext _ [_]); [done|]. by repeat constructor.
Qed.

(** C10.  For a valid item kind, get_batch_info on an empty id list
    returns None and leaves the world as it was: no request is sent, no
    timestamp is recorded and total_requests is not incremented. *)
Theorem get_batch_info_empty_ids {B} (item_type : string) (retries : nat)
    (w : World B) :
  item_type ∈ ["track"; "album"; "artist"] →
  get_batch_info item_type [] retries w = (Return None, w).
Proof.
  intros Hvalid. unfold get_batch_info.
  set_unfold in Hvalid.
  destruct Hvalid as [->|[->|[->|[]]]]; reflexivity.
Qed.

Lemma get_batch_info_empty_ids_witness :
  get_batch_info "album" [] 3 (quiet_env, limiter0) = (Return None, (quiet_env, limiter0)).
Proof.
  apply (get_batch_info_empty_ids "album" 3 (quiet_env, limiter0)).
  set_solver.
Defined.

(** C8.  get_batch_info raises ValueError, leaving the world untouched
    (so before any request), when the item kind is not track, album or
    artist, and when the id list is longer than the maximum of its kind
    (track 50, artist 50, album 20); a non-empty list up to that maximum
    goes to the retry loop whole; and whatever get_batch_info is called
    with, each request it sends carries the whole id list. *)
Theorem get_batch_info_rejects_bad_input {B} (item_type : string)
    (item_ids : list string) (retries : nat) (w : World B) :
  (item_type ∉ ["track"; "album"; "artist"] →
     ∃ msg, get_batch_info item_type item_ids retries w
            = (Raise (ValueError msg), w))
  ∧ ((item_type = "track" ∧ (50 < length item_ids)%nat)
     ∨ (item_type = "artist" ∧ (50 < length item_ids)%nat)
     ∨ (item_type = "album" ∧ (20 < length item_ids)%nat) →
     ∃ msg, get_batch_info item_type item_ids retries w
            = (Raise (ValueError msg), w))
  ∧ ((item_type = "track" ∧ (0 < length item_ids <= 50)%nat)
     ∨ (item_type = "artist" ∧ (0 < length item_ids <= 50)%nat)
     ∨ (item_type = "album" ∧ (0 < length item_ids <= 20)%nat) →
     get_batch_info item_type item_ids retries w
     = request_loop (batch_url item_type item_ids) retries 0 retries w)
  ∧ (∃ new n,
       events (get_batch_info item_type item_ids retries w).2.1
         = events w.1 ++ new
       ∧ requests_of new = replicate n (batch_url item_type item_ids)).
Proof.
  split; [|split; [|split]].
  - intros Hinvalid. unfold get_batch_info.
    destruct (mem_string item_type ["track"; "album"; "artist"]) eqn:Hmem.
    + exfalso. apply Hinvalid. unfold mem_string in Hmem. simpl in Hmem.
      repeat (apply orb_prop in Hmem as [Hmem|Hmem];
              [apply String.eqb_eq in Hmem; subst; set_solver|]).
      done.
    + simpl. eauto.
  - intros Hbig. unfold get_batch_info.
    destruct Hbig as [[-> Hlen]|[[-> Hlen]|[-> Hlen]]];
      (destruct item_ids as [|id item_ids]; [simpl in Hlen; lia|]);
      apply Nat.ltb_lt in Hlen; simpl negb; simpl dict_get; cbv iota beta;
      rewrite Hlen; eauto.
  - intros Hfits. unfold get_batch_info.
    destruct Hfits as [[-> Hlen]|[[-> Hlen]|[-> Hlen]]];
      (destruct item_ids as [|id item_ids]; [simpl in Hlen; lia|]);
      destruct Hlen as [_ Hlen]; apply Nat.ltb_ge in Hlen;
      simpl negb; simpl dict_get; cbv iota beta; by rewrite Hlen.
  - unfold get_batch_info.
    destruct (negb _).
    { exists [], 0%nat. simpl. by rewrite app_nil_r. }
    destruct item_ids as [|id item_ids].
    { exists [], 0%nat. simpl. by rewrite app_nil_r. }
    destruct (dict_get max_sizes item_type) as [max_size|].
    2:{ exists [], 0%nat. simpl. by rewrite app_nil_r. }
    destruct (max_size <? _)%nat.
    { exists [], 0%nat. simpl. by rewrite app_nil_r. }
    destruct (request_loop_requests (batch_url item_type (id :: item_ids))
                retries retries 0%nat w) as (new & n & Hev & Hreq & _).
    by exists new, n.
Qed.

Lemma get_batch_info_rejects_bad_input_witness :
  (∃ msg, get_batch_info "playlist" ["p1"] 3 (quiet_env, limiter0)
          = (Raise (ValueError msg), (quiet_env, limiter0)))
  ∧ (∃ msg, get_batch_info "album" (replicate 21 "a") 3 (quiet_env, limiter0)
            = (Raise (ValueError msg), (quiet_env, limiter0))).
Proof.
  split.
  - apply (proj1 (get_batch_info_rejects_bad_input
                    "playlist" ["p1"] 3 (quiet_env, limiter0))).
    set_unfold. intros [?|[?|[?|[]]]]; discriminate.
  - apply (proj1 (proj2 (get_batch_info_rejects_bad_input
                    "album" (replicate 21 "a") 3 (quiet_env, limiter0)))).
    right. right. split; [reflexivity|simpl; lia].
Defined.

(** C5 (the code departs from it).  After an HTTP error status other
    than 429 get_batch_info and get_info do not stop: they sleep
    [2 ** attempt] seconds and send the request again.  With a server
    that answers 500 and then 200, two requests are sent and the body of
    the second answer is returned; with a server that answers 404 each
    time, all three attempts are spent, with waits of 1, 2 and 4 seconds,
    before None is returned. *)
Theorem http_error_is_retried :
  (get_batch_info "track" ["t1"] 3 (flaky_env, limiter0)).1 = Return (Some "body")
  ∧ requests_of (events (get_batch_info "track" ["t1"] 3 (flaky_env, limiter0)).2.1)
    = ["https://api.spotify.com/v1/tracks?ids=t1";
       "https://api.spotify.com/v1/tracks?ids=t1"]
  ∧ (get_info "track" "t1" 3 (flaky_env, limiter0)).1 = Return (Some "body")
  ∧ requests_of (events (get_info "track" "t1" 3 (flaky_env, limiter0)).2.1)
    = ["https://api.spotify.com/v1/tracks/t1";
       "https://api.spotify.com/v1/tracks/t1"]
  ∧ (get_batch_info "track" ["t1"] 3 (missing_env, limiter0)).1 = Return None
  ∧ length (requests_of
              (events (get_batch_info "track" ["t1"] 3 (missing_env, limiter0)).2.1))
    = 3%nat
  ∧ backoff_waits (events (get_batch_info "track" ["t1"] 3 (missing_env, limiter0)).2.1)
    = [1; 2; 4]%Q.
Proof. repeat split; vm_compute; reflexivity. Qed.

(** *** Transport errors *)

Lemma transport_errors_head {B} (n : nat) (url : string) (e : Env B) :
  transport_errors (S n) (http e) →
  (requests_get url e).1 = RespTransportError
  ∧ transport_errors n (http (requests_get url e).2).
Proof.
  unfold requests_get, transport_errors. intros Hall.
  destruct (http e) as [|r rest]; cbn [fst snd http].
  - split; [done|]. rewrite take_nil. constructor.
  - cbn [take] in Hall. apply Forall_cons in Hall as [-> Hall]. done.
Qed.

Lemma request_loop_transport_errors {B} (url : string) (retries : nat) :
  ∀ (remaining attempt : nat) (w : World B),
    transport_errors remaining (http w.1) →
    (request_loop url retries attempt remaining w).1 = Return None
    ∧ ∃ new,
        events (request_loop url retries attempt remaining w).2.1
          = events w.1 ++ new
        ∧ requests_of new = replicate remaining url
        ∧ backoff_waits new = map pow2 (seq attempt remaining).
Proof.
  induction remaining as [|remaining IH]; intros attempt [e l] Hdown.
  { split; [done|]. exists []. simpl. by rewrite app_nil_r. }
  rewrite request_loop_step.
  destruct (check_rate_limit_effects e l) as (Hhttp & sleeps & Hev & Hsl).
  destruct (check_rate_limit (e, l)) as [e1 l1]. simpl in Hev, Hhttp.
  destruct (transport_errors_head remaining url e1) as [Hresp Hrest];
    [by rewrite Hhttp|].
  pose proof (requests_get_events url e1) as Hget.
  destruct (requests_get url e1) as [response e2]. simpl in Hresp, Hrest, Hget.
  subst response.
  destruct (IH (S attempt) (sleep (pow2 attempt) e2, l1)) as (Hres & new & Hnew & Hreq & Hwaits);
    [done|].
  split; [done|].
  exists (sleeps ++ [EvGet url; EvSleep (pow2 attempt)] ++ new).
  split; [|split].
  - rewrite Hnew. unfold sleep. simpl. rewrite Hget, Hev. by rewrite <- !app_assoc.
  - rewrite !requests_of_app, requests_of_sleeps, Hreq by done. done.
  - rewrite backoff_waits_sleeps by done. simpl. by rewrite Hwaits.
Qed.

(** An HTTP error status other than 429 does not end the loop: the
    handler prints, the loop sleeps [2 ** attempt] and goes on to the next
    attempt. *)
Lemma request_loop_goes_on_after_http_error {B} (url : string)
    (retries attempt remaining : nat) (w : World B)
    (status_code : Z) (header : option Z) (rest : list (Response B)) :
  status_code ≠ 429 →
  http w.1 = RespHttpError status_code header :: rest →
  ∃ e l,
    request_loop url retries attempt (S remaining) w
    = request_loop url retries (S attempt) remaining (sleep (pow2 attempt) e, l)
    ∧ http e = rest.
Proof.
  intros Hstatus Hhttp. destruct w as [e0 l0]. rewrite request_loop_step.
  destruct (check_rate_limit_effects e0 l0) as (Hkeep & _).
  destruct (check_rate_limit (e0, l0)) as [e1 l1]. simpl in Hkeep, Hhttp.
  unfold requests_get. rewrite Hkeep, Hhttp.
  apply Z.eqb_neq in Hstatus. rewrite Hstatus. simpl.
  by eexists _, _.
Qed.

(** The paginated listing has no way out of a dead network: each page
    spends its attempts and the [while] loop starts the page again. *)
Lemma album_page_attempts_down (url : string) (retries : nat) :
  ∀ (remaining attempt : nat) (e : Env Payload),
    http e = [] →
    ∃ e', album_page_attempts url retries attempt remaining e
          = (Return PageExhausted, e')
          ∧ http e' = [].
Proof.
  induction remaining as [|remaining IH]; intros attempt e Hdown.
  { by exists e. }
  cbn [album_page_attempts]. unfold requests_get. rewrite Hdown.
  by apply IH.
Qed.

(** X8.  With the network down get_artist_albums never returns: each page
    spends its attempts and the [while] loop starts the same page again,
    whatever the fuel. *)
Lemma get_artist_albums_never_gives_up (artist_id : string) (retries : nat) :
  ∀ (fuel : nat) (w : World Payload),
    http w.1 = [] → get_artist_albums fuel artist_id retries w = None.
Proof.
  unfold get_artist_albums. generalize (@nil string) as items.
  assert ((0 <? 51)%Z = true) as Hmore by done. revert Hmore.
  generalize 0%Z as offset, 51%Z as total.
  intros offset total Hmore items fuel. revert items.
  induction fuel as [|fuel IH]; intros items [e l] Hdown; [done|].
  cbn [get_artist_albums_loop]. rewrite Hmore.
  destruct (check_rate_limit_effects e l) as (Hkeep & _).
  destruct (check_rate_limit (e, l)) as [e1 l1]. simpl in Hkeep, Hdown.
  destruct (album_page_attempts_down (albums_url artist_id offset) retries
              retries 0%nat e1) as (e2 & -> & Hdown2); [by rewrite Hkeep|].
  by apply IH.
Qed.

(** ** The fetcher of musicbrainz_load.py *)

Lemma transport_errors_failures {B} (n : nat) (script : list (Response B)) :
  transport_errors n script → failures n script.
Proof.
  unfold transport_errors, failures. intros H.
  eapply Forall_impl; [exact H|]. by intros r -> body.
Qed.

Lemma failures_head {B} (n : nat) (url : string) (e : Env B) :
  failures (S n) (http e) →
  (∀ body, (requests_get url e).1 ≠ RespOk body)
  ∧ failures n (http (requests_get url e).2).
Proof.
  unfold requests_get, failures. intros Hall.
  destruct (http e) as [|r rest]; cbn [fst snd http].
  - split; [done|]. rewrite take_nil. constructor.
  - cbn [take] in Hall. apply Forall_cons in Hall as [Hr Hall]. done.
Qed.

Lemma jittered_waits_step (attempt n : nat) (draws : list Q) :
  jittered_waits attempt (S n) draws
  = (pow2 attempt + (next_draw draws).1)%Q
      :: jittered_waits (S attempt) n (next_draw draws).2.
Proof.
  unfold jittered_waits. rewrite <- cons_seq, <- seq_shift, map_cons, map_map.
  rewrite Nat.add_0_r. f_equal.
  - by destruct draws.
  - apply map_ext. intros k. rewrite Nat.add_succ_r.
    destruct draws as [|u rest]; [|done]. simpl. by destruct k.
Qed.

Lemma mb_request_loop_failures (url : string) :
  ∀ (remaining attempt : nat) (w : MBWorld),
    failures remaining (http (mb_env w)) →
    (mb_request_loop url attempt remaining w).1 = Return ∅
    ∧ ∃ new,
        events (mb_env (mb_request_loop url attempt remaining w).2)
          = events (mb_env w) ++ new
        ∧ requests_of new = replicate remaining url
        ∧ backoff_waits new = jittered_waits attempt remaining (uniform_draws w).
Proof.
  induction remaining as [|remaining IH]; intros attempt w Hdown.
  { split; [done|]. exists []. simpl. by rewrite app_nil_r. }
  cbn [mb_request_loop].
  destruct (failures_head remaining url (mb_env w) Hdown) as [Hresp Hrest].
  pose proof (requests_get_events url (mb_env w)) as Hget.
  destruct (requests_get url (mb_env w)) as [response e1].
  simpl in Hresp, Hrest, Hget.
  rewrite jittered_waits_step.
  destruct (next_draw (uniform_draws w)) as [u draws]. cbn [fst snd].
  set (w1 := {| mb_env := sleep (pow2 attempt + u) e1;
                timestamps := timestamps w; uniform_draws := draws |}).
  destruct (IH (S attempt) w1) as (Hres & new & Hnew & Hreq & Hwaits); [done|].
  assert ((mb_request_loop url (S attempt) remaining w1).1 = Return ∅
    ∧ ∃ new0,
        events (mb_env (mb_request_loop url (S attempt) remaining w1).2)
          = events (mb_env w) ++ new0
        ∧ requests_of new0 = url :: replicate remaining url
        ∧ backoff_waits new0
          = (pow2 attempt + u)%Q :: jittered_waits (S attempt) remaining draws)
    as Hgoal.
  { split; [done|].
    exists ([EvGet url; EvSleep (pow2 attempt + u)] ++ new). split; [|split].
    - rewrite Hnew. unfold w1, sleep. simpl. rewrite Hget. by rewrite <- !app_assoc.
    - rewrite requests_of_app, Hreq. done.
    - simpl. by rewrite Hwaits. }
  destruct response as [body| |]; [by destruct (Hresp body)|done|done].
Qed.

Lemma evict_head_wait (t window t0 : Q) (d rest : list Q) :
  evict t window d = t0 :: rest → (0 <= window - (t - t0))%Q.
Proof. intros Hev. apply evict_head in Hev. lra. Qed.

(** C6 (as the code has it).  When every attempt meets a transport-level
    error, get_artist_data_batch sends [retries] requests, waits
    [2 ** attempt] plus a fresh draw of [random.uniform(0, 1)] after each,
    and returns the empty dict; get_info and get_batch_info send [retries]
    requests, wait exactly [2 ** attempt] seconds after each, with no
    random part, and return None.  None of them raises. *)
Theorem transport_errors_exhaust_the_budget :
  (∀ (artist_names : list string) (retries : nat) (w : MBWorld),
     transport_errors retries (http (mb_env w)) →
     (get_artist_data_batch artist_names retries w).1 = Return ∅
     ∧ ∃ new,
         events (mb_env (get_artist_data_batch artist_names retries w).2)
           = events (mb_env w) ++ new
         ∧ requests_of new = replicate retries (mb_url artist_names)
         ∧ backoff_waits new = jittered_waits 0 retries (uniform_draws w))
  ∧ (∀ (B : Type) (item_type item_id : string) (retries : nat) (w : World B),
       item_type ∈ ["track"; "album"; "artist"; "playlist"] →
       transport_errors retries (http w.1) →
       (get_info item_type item_id retries w).1 = Return None
       ∧ ∃ new url,
           events (get_info item_type item_id retries w).2.1 = events w.1 ++ new
           ∧ requests_of new = replicate retries url
           ∧ backoff_waits new = map pow2 (seq 0 retries))
  ∧ (∀ (B : Type) (item_type id : string) (item_ids : list string)
       (max_size retries : nat) (w : World B),
       dict_get max_sizes item_type = Some max_size →
       (length (id :: item_ids) <= max_size)%nat →
       transport_errors retries (http w.1) →
       (get_batch_info item_type (id :: item_ids) retries w).1 = Return None
       ∧ ∃ new,
           events (get_batch_info item_type (id :: item_ids) retries w).2.1
             = events w.1 ++ new
           ∧ requests_of new
             = replicate retries (batch_url item_type (id :: item_ids))
           ∧ backoff_waits new = map pow2 (seq 0 retries)).
Proof.
  split; [|split].
  - intros artist_names retries w Hdown. unfold get_artist_data_batch.
    set (ts := evict (now (mb_env w)) 1 (timestamps w)).
    set (e := match ts with
              | [] => mb_env w
              | t0 :: _ => sleep (1 - (now (mb_env w) - t0)) (mb_env w)
              end).
    assert (http e = http (mb_env w)
            ∧ ∃ pre, events e = events (mb_env w) ++ pre ∧ Forall is_sleep pre)
      as (Hhttp & pre & Hpre & Hsl).
    { subst e. destruct ts.
      - split; [done|]. exists []. by rewrite app_nil_r.
      - split; [done|]. eexists [_]. split; [done|]. by repeat constructor. }
    set (w1 := {| mb_env := e; timestamps := ts; uniform_draws := uniform_draws w |}).
    destruct (mb_request_loop_failures (mb_url artist_names) retries 0%nat w1)
      as (Hres & new & Hnew & Hreq & Hwaits).
    { apply transport_errors_failures. simpl. by rewrite Hhttp. }
    split; [done|]. exists (pre ++ new). split; [|split].
    + rewrite Hnew. simpl. rewrite Hpre. by rewrite <- app_assoc.
    + rewrite requests_of_app, requests_of_sleeps by done. done.
    + rewrite backoff_waits_sleeps by done. done.
  - intros B item_type item_id retries w Hvalid Hdown. unfold get_info.
    assert (mem_string item_type ["track"; "album"; "artist"; "playlist"] = true)
      as ->.
    { set_unfold in Hvalid. destruct Hvalid as [->|[->|[->|[->|[]]]]]; reflexivity. }
    cbn [negb].
    destruct (request_loop_transport_errors
                ("https://api.spotify.com/v1/" +:+ item_type +:+ "s/" +:+ item_id)
                retries retries 0%nat w Hdown) as (Hres & new & Hnew & Hreq & Hwaits).
    split; [done|]. eauto.
  - intros B item_type id item_ids max_size retries w Hmax Hlen Hdown.
    unfold get_batch_info.
    assert (mem_string item_type ["track"; "album"; "artist"] = true) as ->.
    { unfold max_sizes in Hmax. simpl in Hmax. unfold mem_string. simpl.
      destruct (String.eqb item_type "track"); [done|].
      destruct (String.eqb item_type "artist"); [by rewrite orb_true_r|].
      destruct (String.eqb item_type "album"); [done|]. done. }
    cbn [negb]. rewrite Hmax.
    apply Nat.ltb_ge in Hlen. rewrite Hlen.
    destruct (request_loop_transport_errors
                (batch_url item_type (id :: item_ids))
                retries retries 0%nat w Hdown) as (Hres & new & Hnew & Hreq & Hwaits).
    split; [done|]. eauto.
Qed.

Lemma transport_errors_exhaust_the_budget_witness :
  (get_artist_data_batch ["Muse"] 2 quiet_mb_world).1 = Return ∅
  ∧ (get_info "artist" "a1" 2 (down_env, limiter0)).1 = Return None
  ∧ (get_batch_info "album" ["x"; "y"] 2 (down_env, limiter0)).1 = Return None.
Proof.
  split; [|split].
  - apply (proj1 transport_errors_exhaust_the_budget ["Muse"] 2%nat quiet_mb_world).
    unfold transport_errors. simpl. constructor.
  - apply (proj1 (proj2 transport_errors_exhaust_the_budget) string "artist" "a1"
             2%nat (down_env, limiter0)).
    + set_solver.
    + unfold transport_errors. simpl. constructor.
  - apply (proj2 (proj2 transport_errors_exhaust_the_budget) string "album" "x" ["y"]
             20%nat 2%nat (down_env, limiter0)).
    + reflexivity.
    + simpl. lia.
    + unfold transport_errors. simpl. constructor.
Defined.

(** C6 as the spec words it fails for get_info: with the network down
    and every draw of [random.uniform(0, 1)] equal to 1/2, the waits after
    the three failed attempts are 1, 2 and 4 seconds, not 1.5, 2.5 and
    4.5. *)
Lemma get_info_waits_have_no_jitter :
  ¬ Forall2 Qeq
      (backoff_waits
         (events (get_info "track" "t1" 3 (down_env, limiter0)).2.1))
      (jittered_waits 0 3 [1 # 2; 1 # 2; 1 # 2]%Q).
Proof.
  intros H. vm_compute in H.
  apply Forall2_cons_1 in H as [H _]. discriminate H.
Qed.

(** ** A small program logic for cursor programs *)

Lemma wp_ret {A} (a : A) (Q : Result A → Cursor → Prop) (c : Cursor) :
  Q (Return a) c → wp (mret a) Q c.
Proof. done. Qed.

Lemma wp_raise {A} (e : Exn) (Q : Result A → Cursor → Prop) (c : Cursor) :
  Q (Raise e) c → wp (raise e) Q c.
Proof. done. Qed.

Lemma wp_bind {A B} (m : Sql A) (k : A → Sql B)
    (Q : Result B → Cursor → Prop) (c : Cursor) :
  wp m (λ r c', match r with
                | Return a => wp (k a) Q c'
                | Raise e => Q (Raise e) c'
                end) c →
  wp (m ≫= k) Q c.
Proof.
  unfold wp, mbind, Sql_bind. destruct (m c) as [[a|e] c']; done.
Qed.

Lemma wp_execute (stmt : Store → Store) (Q : Result unit → Cursor → Prop)
    (c : Cursor) :
  Q (Return tt) (executed stmt c) → wp (execute stmt) Q c.
Proof. done. Qed.

Lemma wp_fetchone {A} (query : Store → A) (Q : Result A → Cursor → Prop)
    (c : Cursor) :
  Q (Return (query (db c))) c → wp (fetchone query) Q c.
Proof. done. Qed.

Lemma wp_mono {A} (m : Sql A) (Q Q' : Result A → Cursor → Prop) (c : Cursor) :
  wp m Q c → (∀ r c', Q r c' → Q' r c') → wp m Q' c.
Proof. unfold wp. eauto. Qed.

(** The loop rule: [I done] holds of the cursor once the items [done]
    have been processed. *)
Lemma wp_for_each {A} (body : A → Sql unit) (I : list A → Cursor → Prop)
    (Q : Result unit → Cursor → Prop) (l : list A) (c : Cursor) :
  I [] c →
  (∀ done x rest c', l = done ++ x :: rest → I done c' →
     wp (body x) (λ r c'', match r with
                           | Return _ => I (done ++ [x]) c''
                           | Raise e => Q (Raise e) c''
                           end) c') →
  (∀ c', I l c' → Q (Return tt) c') →
  wp (for_each l body) Q c.
Proof.
  intros Hinit Hstep Hexit.
  assert (∀ rest done c', l = done ++ rest → I done c' →
            wp (for_each rest body) Q c') as Hgen.
  { induction rest as [|x rest IH]; intros done c' Hl Hinv.
    - rewrite app_nil_r in Hl. subst done. apply wp_ret. by apply Hexit.
    - cbn [for_each]. apply wp_bind.
      eapply wp_mono; [by eapply Hstep|].
      intros [[]|e] c'' Hr; [|done].
      apply (IH (done ++ [x])); [|done]. by rewrite <- app_assoc. }
  by apply (Hgen l []).
Qed.

(** ** Statements and the tables they touch *)

Lemma insert_or_ignore_is_Some {V} (id k : string) (row : V) (t : gmap string V) :
  is_Some (t !! k) → is_Some (insert_or_ignore id row t !! k).
Proof.
  unfold insert_or_ignore. destruct (t !! id) eqn:Hid; [done|].
  intros Hk. rewrite lookup_insert_is_Some. destruct (decide (id = k)); auto.
Qed.

Lemma insert_or_ignore_self {V} (id : string) (row : V) (t : gmap string V) :
  is_Some (insert_or_ignore id row t !! id).
Proof.
  unfold insert_or_ignore. destruct (t !! id) eqn:Hid.
  - by rewrite Hid.
  - by rewrite lookup_insert_eq.
Qed.

Lemma insert_or_ignore_present {V} (id : string) (row : V) (t : gmap string V) :
  is_Some (t !! id) → insert_or_ignore id row t = t.
Proof. unfold insert_or_ignore. by intros [v ->]. Qed.

Lemma insert_or_ignore_lookup {V} (id k : string) (row v : V) (t : gmap string V) :
  t !! k = Some v → insert_or_ignore id row t !! k = Some v.
Proof.
  unfold insert_or_ignore. destruct (t !! id) eqn:Hid; [done|].
  intros Hk. rewrite lookup_insert_ne; [done|]. congruence.
Qed.

Lemma parents_kept_refl (s : Store) : parents_kept s s.
Proof. by repeat split. Qed.

Lemma parents_kept_trans (s1 s2 s3 : Store) :
  parents_kept s1 s2 → parents_kept s2 s3 → parents_kept s1 s3.
Proof.
  intros (A1 & B1 & C1 & D1) (A2 & B2 & C2 & D2). repeat split; eauto.
Qed.

Ltac kept :=
  repeat split; simpl; intros;
  try done;
  try (by apply insert_or_ignore_is_Some);
  try (rewrite lookup_insert_is_Some'; by right);
  try (apply lookup_alter_is_Some; done).

Lemma kept_replace_Track id row s : parents_kept s (insert_or_replace_Track id row s).
Proof. kept. Qed.
Lemma kept_ignore_Track id s : parents_kept s (insert_or_ignore_Track id s).
Proof. kept. Qed.
Lemma kept_replace_Album id row s : parents_kept s (insert_or_replace_Album id row s).
Proof. kept. Qed.
Lemma kept_ignore_Album id s : parents_kept s (insert_or_ignore_Album id s).
Proof. kept. Qed.
Lemma kept_replace_Artist id row s : parents_kept s (insert_or_replace_Artist id row s).
Proof. kept. Qed.
Lemma kept_ignore_Artist id s : parents_kept s (insert_or_ignore_Artist id s).
Proof. kept. Qed.
Lemma kept_update_area_id area_id id s :
  parents_kept s (update_Artist_area_id area_id id s).
Proof. kept. Qed.

Lemma kept_ignore_Genre name s : parents_kept s (insert_or_ignore_Genre name s).
Proof.
  unfold insert_or_ignore_Genre. destruct (Genre s !! name) eqn:Hname.
  - apply parents_kept_refl.
  - repeat split; simpl; try done.
    intros name' genre_id Hg. rewrite lookup_insert_ne; [done|]. congruence.
Qed.

Lemma kept_ignore_Area name type s : parents_kept s (insert_or_ignore_Area name type s).
Proof.
  unfold insert_or_ignore_Area. destruct (Area s !! (name, type)).
  - apply parents_kept_refl.
  - by repeat split.
Qed.

(** ** Dangling junction rows *)

Lemma no_dangling_kept (s s' : Store) :
  no_dangling s →
  TrackArtist s' = TrackArtist s → AlbumArtist s' = AlbumArtist s →
  ArtistGenre s' = ArtistGenre s →
  parents_kept s s' →
  no_dangling s'.
Proof.
  intros (HT & HA & HG) ET EA EG (KT & KA & KR & KG).
  unfold no_dangling. rewrite ET, EA, EG. repeat split.
  - by apply KT, (HT _ artist_id).
  - by apply KR, (HT track_id).
  - by apply KA, (HA _ artist_id).
  - by apply KR, (HA album_id).
  - by apply KR, (HG _ genre_id).
  - destruct (HG _ _ H) as [_ [name Hname]]. exists name. by apply KG.
Qed.

Lemma no_dangling_TrackArtist (track_id artist_id : string) (s : Store) :
  no_dangling s →
  is_Some (Track s !! track_id) → is_Some (Artist s !! artist_id) →
  no_dangling (insert_or_ignore_TrackArtist track_id artist_id s).
Proof.
  intros (HT & HA & HG) Ht Ha. repeat split; simpl in *;
    try (by eapply HA); try (by eapply HG).
  - apply elem_of_union in H as [H|H]; [|by eapply HT].
    apply elem_of_singleton in H. congruence.
  - apply elem_of_union in H as [H|H]; [|by eapply HT].
    apply elem_of_singleton in H. congruence.
Qed.

Lemma no_dangling_AlbumArtist (album_id artist_id : string) (s : Store) :
  no_dangling s →
  is_Some (Album s !! album_id) → is_Some (Artist s !! artist_id) →
  no_dangling (insert_or_ignore_AlbumArtist album_id artist_id s).
Proof.
  intros (HT & HA & HG) Hal Ha. repeat split; simpl in *;
    try (by eapply HT); try (by eapply HG).
  - apply elem_of_union in H as [H|H]; [|by eapply HA].
    apply elem_of_singleton in H. congruence.
  - apply elem_of_union in H as [H|H]; [|by eapply HA].
    apply elem_of_singleton in H. congruence.
Qed.

Lemma no_dangling_ArtistGenre (artist_id name : string) (genre_id : nat) (s : Store) :
  no_dangling s →
  is_Some (Artist s !! artist_id) → Genre s !! name = Some genre_id →
  no_dangling (insert_or_ignore_ArtistGenre artist_id genre_id s).
Proof.
  intros (HT & HA & HG) Ha Hg. repeat split; simpl in *;
    try (by eapply HT); try (by eapply HA).
  - apply elem_of_union in H as [H|H]; [|by eapply HG].
    apply elem_of_singleton in H. congruence.
  - apply elem_of_union in H as [H|H]; [|by eapply HG].
    apply elem_of_singleton in H. exists name. congruence.
Qed.

Lemma mended_snoc (states : list Store) (s : Store) :
  mended_at_once states → no_dangling s → mended_at_once (states ++ [s]).
Proof.
  intros Hm Hs i s0 Hi. apply lookup_app_Some in Hi as [Hi|[Hlen Hi]].
  - destruct (Hm i s0 Hi) as [?|(s' & Hs' & ?)]; [by left|].
    right. exists s'. split; [|done]. by apply lookup_app_l_Some.
  - left. destruct (i - length states)%nat; [|done]. by injection Hi as <-.
Qed.

Lemma mended_snoc2 (states : list Store) (s1 s2 : Store) :
  mended_at_once states → no_dangling s2 →
  mended_at_once ((states ++ [s1]) ++ [s2]).
Proof.
  intros Hm Hs i s0 Hi. rewrite <- app_assoc in Hi |- *.
  apply lookup_app_Some in Hi as [Hi|[Hlen Hi]].
  - destruct (Hm i s0 Hi) as [?|(s' & Hs' & ?)]; [by left|].
    right. exists s'. split; [|done]. by apply lookup_app_l_Some.
  - destruct (i - length states)%nat as [|[|n]] eqn:Hn; [| |done].
    + right. exists s2. split; [|done].
      replace (S i) with (length states + 1)%nat by lia.
      by rewrite lookup_app_r, Nat.add_comm, Nat.add_sub by lia.
    + left. by injection Hi as <-.
Qed.

Lemma Forall_snoc {A} (P : A → Prop) (l : list A) (x : A) :
  Forall P l → P x → Forall P (l ++ [x]).
Proof. intros. apply Forall_app_2; [done|]. by constructor. Qed.

Lemma select_after_insert_Genre (name : string) (s : Store) :
  is_Some (select_Genre_id name (insert_or_ignore_Genre name s)).
Proof.
  unfold select_Genre_id, insert_or_ignore_Genre.
  destruct (Genre s !! name) eqn:Hname.
  - by rewrite Hname.
  - simpl. by rewrite lookup_insert_eq.
Qed.

Lemma select_after_insert_Area (name type : string) (s : Store) :
  is_Some (select_Area_id name type (insert_or_ignore_Area name type s)).
Proof.
  unfold select_Area_id, insert_or_ignore_Area.
  destruct (Area s !! (name, type)) eqn:Hname.
  - by rewrite Hname.
  - simpl. by rewrite lookup_insert_eq.
Qed.

Lemma junctions_ignore_Genre (name : string) (s : Store) :
  TrackArtist (insert_or_ignore_Genre name s) = TrackArtist s
  ∧ AlbumArtist (insert_or_ignore_Genre name s) = AlbumArtist s
  ∧ ArtistGenre (insert_or_ignore_Genre name s) = ArtistGenre s.
Proof. unfold insert_or_ignore_Genre. by destruct (Genre s !! name). Qed.

Lemma junctions_ignore_Area (name type : string) (s : Store) :
  TrackArtist (insert_or_ignore_Area name type s) = TrackArtist s
  ∧ AlbumArtist (insert_or_ignore_Area name type s) = AlbumArtist s
  ∧ ArtistGenre (insert_or_ignore_Area name type s) = ArtistGenre s.
Proof. unfold insert_or_ignore_Area. by destruct (Area s !! (name, type)). Qed.

Lemma no_dangling_ignore_Genre (name : string) (s : Store) :
  no_dangling s → no_dangling (insert_or_ignore_Genre name s).
Proof.
  intros H. destruct (junctions_ignore_Genre name s) as (? & ? & ?).
  by apply (no_dangling_kept s), kept_ignore_Genre.
Qed.

Lemma no_dangling_ignore_Area (name type : string) (s : Store) :
  no_dangling s → no_dangling (insert_or_ignore_Area name type s).
Proof.
  intros H. destruct (junctions_ignore_Area name type s) as (? & ? & ?).
  by apply (no_dangling_kept s), kept_ignore_Area.
Qed.

(** The statements of musicbrainz_load.py, whose parameters may be
    NULL. *)
Lemma kept_Genre_param name s : parents_kept s (insert_or_ignore_Genre_param name s).
Proof. destruct name; [apply kept_ignore_Genre|]. by repeat split. Qed.

Lemma kept_Area_param name type s :
  parents_kept s (insert_or_ignore_Area_param name type s).
Proof. destruct name, type; try apply kept_ignore_Area; by repeat split. Qed.

Lemma junctions_Genre_param (name : option string) (s : Store) :
  TrackArtist (insert_or_ignore_Genre_param name s) = TrackArtist s
  ∧ AlbumArtist (insert_or_ignore_Genre_param name s) = AlbumArtist s
  ∧ ArtistGenre (insert_or_ignore_Genre_param name s) = ArtistGenre s.
Proof. destruct name; [apply junctions_ignore_Genre|done]. Qed.

Lemma junctions_Area_param (name type : option string) (s : Store) :
  TrackArtist (insert_or_ignore_Area_param name type s) = TrackArtist s
  ∧ AlbumArtist (insert_or_ignore_Area_param name type s) = AlbumArtist s
  ∧ ArtistGenre (insert_or_ignore_Area_param name type s) = ArtistGenre s.
Proof. destruct name, type; try apply junctions_ignore_Area; done. Qed.

Lemma no_dangling_Genre_param (name : option string) (s : Store) :
  no_dangling s → no_dangling (insert_or_ignore_Genre_param name s).
Proof.
  intros H. destruct (junctions_Genre_param name s) as (? & ? & ?).
  by apply (no_dangling_kept s), kept_Genre_param.
Qed.

Lemma no_dangling_Area_param (name type : option string) (s : Store) :
  no_dangling s → no_dangling (insert_or_ignore_Area_param name type s).
Proof.
  intros H. destruct (junctions_Area_param name type s) as (? & ? & ?).
  by apply (no_dangling_kept s), kept_Area_param.
Qed.

(** [name = NULL] selects nothing: a row found was found by a string. *)
Lemma select_Genre_id_param_Some (genre : option string) (genre_id : nat)
    (s : Store) :
  select_Genre_id_param genre s = Some genre_id →
  ∃ name, genre = Some name ∧ Genre s !! name = Some genre_id.
Proof. destruct genre as [name|]; [|done]. intros H. by exists name. Qed.

Lemma select_Area_id_param_Some (name type : option string) (area_id : nat)
    (s : Store) :
  select_Area_id_param name type s = Some area_id →
  ∃ name' type', name = Some name' ∧ type = Some type'
                 ∧ Area s !! (name', type') = Some area_id.
Proof.
  destruct name as [name'|], type as [type'|]; try done.
  intros H. by exists name', type'.
Qed.

(** dump_tracks and dump_albums insert the junction row and then the
    artist it refers to. *)
Lemma dump_track_mends (track : TrackRec) (s : Store) :
  no_dangling s →
  wp (dump_track track)
     (λ _ c, mended_at_once (journal c) ∧ no_dangling (db c)) (open_cursor s).
Proof.
  intros Hs. unfold dump_track.
  apply wp_bind, wp_execute, wp_bind.
  set (row := {| track_name := _ |}).
  apply (wp_for_each _
    (λ _ c, mended_at_once (journal c) ∧ no_dangling (db c)
            ∧ is_Some (Track (db c) !! t_id track))).
  - split; [|split].
    + apply (mended_snoc []); [by intros i s0|].
      by apply (no_dangling_kept s), kept_replace_Track.
    + by apply (no_dangling_kept s), kept_replace_Track.
    + simpl. by rewrite lookup_insert_eq.
  - intros done artist_id rest c _ (Hm & Hd & Ht).
    assert (no_dangling (insert_or_ignore_Artist artist_id
              (insert_or_ignore_TrackArtist (t_id track) artist_id (db c)))) as Hd'.
    { change (no_dangling (insert_or_ignore_TrackArtist (t_id track) artist_id
                (insert_or_ignore_Artist artist_id (db c)))).
      apply no_dangling_TrackArtist; [|done|apply insert_or_ignore_self].
      by apply (no_dangling_kept (db c)), kept_ignore_Artist. }
    split; [|split]; [by apply mended_snoc2|done|done].
  - intros c (Hm & Hd & Ht). apply wp_execute.
    assert (no_dangling (insert_or_ignore_Album (t_album track) (db c)))
      by by apply (no_dangling_kept (db c)), kept_ignore_Album.
    split; [by apply mended_snoc|done].
Qed.

Lemma dump_album_mends (album : AlbumRec) (s : Store) :
  no_dangling s →
  wp (dump_album album)
     (λ _ c, mended_at_once (journal c) ∧ no_dangling (db c)) (open_cursor s).
Proof.
  intros Hs. unfold dump_album.
  destruct (normalize_release_date (al_release_date album)) as [release_date|e].
  2:{ apply wp_raise. split; [by intros i s0|done]. }
  apply wp_bind, wp_execute, wp_bind.
  set (row := {| album_name := _ |}).
  apply (wp_for_each _
    (λ _ c, mended_at_once (journal c) ∧ no_dangling (db c)
            ∧ is_Some (Album (db c) !! al_id album))).
  - split; [|split].
    + apply (mended_snoc []); [by intros i s0|].
      by apply (no_dangling_kept s), kept_replace_Album.
    + by apply (no_dangling_kept s), kept_replace_Album.
    + simpl. by rewrite lookup_insert_eq.
  - intros done artist_id rest c _ (Hm & Hd & Ht).
    assert (no_dangling (insert_or_ignore_Artist artist_id
              (insert_or_ignore_AlbumArtist (al_id album) artist_id (db c)))) as Hd'.
    { change (no_dangling (insert_or_ignore_AlbumArtist (al_id album) artist_id
                (insert_or_ignore_Artist artist_id (db c)))).
      apply no_dangling_AlbumArtist; [|done|apply insert_or_ignore_self].
      by apply (no_dangling_kept (db c)), kept_ignore_Artist. }
    split; [|split]; [by apply mended_snoc2|done|done].
  - intros c (Hm & Hd & Ht).
    apply (wp_for_each _ (λ _ c, mended_at_once (journal c) ∧ no_dangling (db c))).
    + done.
    + intros done track_id rest c' _ (Hm' & Hd').
      assert (no_dangling (insert_or_ignore_Track track_id (db c')))
        by by apply (no_dangling_kept (db c')), kept_ignore_Track.
      split; [by apply mended_snoc|done].
    + done.
Qed.

(** dump_artists and save_artist_data_to_db insert the genre (and the
    area) before the row that refers to it. *)
Lemma dump_artist_never_dangles (artist : ArtistRec) (s : Store) :
  no_dangling s →
  wp (dump_artist artist)
     (λ _ c, Forall no_dangling (journal c)) (open_cursor s).
Proof.
  intros Hs. unfold dump_artist.
  apply wp_bind, wp_execute.
  set (row := {| artist_name := _ |}).
  apply (wp_for_each _
    (λ _ c, Forall no_dangling (journal c) ∧ no_dangling (db c)
            ∧ is_Some (Artist (db c) !! ar_id artist))).
  - assert (no_dangling (insert_or_replace_Artist (ar_id artist) row s))
      by by apply (no_dangling_kept s), kept_replace_Artist.
    split; [|split]; [by repeat apply Forall_snoc|done|].
    simpl. by rewrite lookup_insert_eq.
  - intros done genre rest c _ (Hj & Hd & Ha).
    apply wp_bind, wp_execute, wp_bind, wp_fetchone.
    pose proof (no_dangling_ignore_Genre genre (db c) Hd) as Hd1.
    assert (is_Some (Artist (insert_or_ignore_Genre genre (db c)) !! ar_id artist))
      as Ha1 by by apply kept_ignore_Genre.
    cbn [db executed].
    destruct (select_Genre_id genre (insert_or_ignore_Genre genre (db c)))
      as [genre_id|] eqn:Hsel.
    + apply wp_execute.
      pose proof (no_dangling_ArtistGenre _ _ _ _ Hd1 Ha1 Hsel) as Hd2.
      split; [|split]; [by repeat apply Forall_snoc|done|done].
    + apply wp_raise. by apply Forall_snoc.
  - by intros c (Hj & _).
Qed.

Lemma save_artist_never_dangles (fetched_data : gmap (option string) ArtistInfo)
    (artist_id artist_name : string) (s : Store) :
  no_dangling s → is_Some (Artist s !! artist_id) →
  wp (save_artist fetched_data (artist_id, artist_name))
     (λ _ c, Forall no_dangling (journal c)) (open_cursor s).
Proof.
  intros Hs Ha. unfold save_artist.
  destruct (default unknown_info (fetched_data !! Some artist_name))
    as [area genres].
  apply wp_bind, wp_execute, wp_bind, wp_fetchone.
  pose proof (no_dangling_Area_param area.1 area.2 s Hs) as Hs1.
  assert (is_Some (Artist (insert_or_ignore_Area_param area.1 area.2 s)
                     !! artist_id))
    as Ha1 by by apply kept_Area_param.
  cbn [db executed open_cursor].
  destruct (select_Area_id_param area.1 area.2
              (insert_or_ignore_Area_param area.1 area.2 s))
    as [area_id|].
  2:{ apply wp_ret. by apply (Forall_snoc _ []). }
  apply wp_bind, wp_execute.
  set (s1 := insert_or_ignore_Area_param area.1 area.2 s) in *.
  assert (no_dangling (update_Artist_area_id area_id artist_id s1)) as Hs2
    by by apply (no_dangling_kept s1), kept_update_area_id.
  apply (wp_for_each _
    (λ _ c, Forall no_dangling (journal c) ∧ no_dangling (db c)
            ∧ is_Some (Artist (db c) !! artist_id))).
  - split; [|split]; [by repeat apply Forall_snoc|done|]. by apply kept_update_area_id.
  - intros done genre rest c _ (Hj & Hd & Ha').
    apply wp_bind, wp_execute, wp_bind, wp_fetchone.
    pose proof (no_dangling_Genre_param genre (db c) Hd) as Hd1.
    assert (is_Some (Artist (insert_or_ignore_Genre_param genre (db c))
                       !! artist_id))
      as Ha2 by by apply kept_Genre_param.
    cbn [db executed].
    destruct (select_Genre_id_param genre
                (insert_or_ignore_Genre_param genre (db c)))
      as [genre_id|] eqn:Hsel.
    + apply wp_execute.
      apply select_Genre_id_param_Some in Hsel as (name & _ & Hsel).
      pose proof (no_dangling_ArtistGenre _ _ _ _ Hd1 Ha2 Hsel) as Hd2.
      split; [|split]; [by repeat apply Forall_snoc|done|done].
    + apply wp_ret. split; [|split]; [by apply Forall_snoc|done|done].
  - by intros c (Hj & _).
Qed.

Lemma for_each_singleton {A} (body : A → Sql unit) (x : A) (c : Cursor) :
  (for_each [x] body c).2 = (body x c).2.
Proof.
  cbn [for_each]. unfold mbind, Sql_bind. by destruct (body x c) as [[[]|e] c'].
Qed.

(** C4 (as the code has it).  On a store without dangling junction rows,
    persisting one record ends in a store without any.  In between,
    dump_artists and save_artist_data_to_db never expose one: the genre is
    inserted before the ArtistGenre row.  dump_tracks and dump_albums
    insert the TrackArtist or AlbumArtist row first and the artist
    placeholder next, so a state with a dangling junction row can occur,
    and is followed at once by a state without. *)
Theorem persist_mends_dangling_rows (s : Store) :
  no_dangling s →
  (∀ track, mended_at_once (journal (dump_tracks [track] (open_cursor s)).2)
            ∧ no_dangling (db (dump_tracks [track] (open_cursor s)).2))
  ∧ (∀ album, mended_at_once (journal (dump_albums [album] (open_cursor s)).2)
              ∧ no_dangling (db (dump_albums [album] (open_cursor s)).2))
  ∧ (∀ artist,
       Forall no_dangling (journal (dump_artists [artist] (open_cursor s)).2))
  ∧ (∀ fetched_data artist_id artist_name,
       is_Some (Artist s !! artist_id) →
       Forall no_dangling
         (journal (save_artist_data_to_db [(artist_id, artist_name)]
                     fetched_data (open_cursor s)).2)).
Proof.
  intros Hs. unfold dump_tracks, dump_albums, dump_artists, save_artist_data_to_db.
  split; [|split; [|split]].
  - intros track. rewrite for_each_singleton. by apply dump_track_mends.
  - intros album. rewrite for_each_singleton. by apply dump_album_mends.
  - intros artist. rewrite for_each_singleton. by apply dump_artist_never_dangles.
  - intros fetched_data artist_id artist_name Ha. rewrite for_each_singleton.
    by apply save_artist_never_dangles.
Qed.

Lemma no_dangling_empty : no_dangling empty_store.
Proof. unfold no_dangling, empty_store. simpl. set_solver. Qed.

Lemma persist_mends_dangling_rows_witness :
  no_dangling (db (dump_tracks [sample_track] (open_cursor empty_store)).2).
Proof.
  apply (persist_mends_dangling_rows empty_store no_dangling_empty).
Defined.

(** C4 as the spec words it fails: persisting one track on the empty
    store, the state after the second statement holds the row
    TrackArtist(t1, a1) while Artist has no row a1. *)
Lemma dump_tracks_inserts_junction_before_artist :
  ¬ Forall no_dangling
      (journal (dump_tracks [sample_track] (open_cursor empty_store)).2).
Proof.
  intros H.
  assert (∃ s, journal (dump_tracks [sample_track] (open_cursor empty_store)).2
                 !! 1%nat = Some s
               ∧ ("t1", "a1") ∈ TrackArtist s ∧ Artist s !! "a1" = None)
    as (s & Hs & Hin & Hno).
  { eexists. split; [reflexivity|]. split; [simpl; set_solver|reflexivity]. }
  apply (Forall_lookup_1 _ _ _ _ H) in Hs as (HT & _).
  destruct (HT _ _ Hin) as [_ [row Hrow]]. congruence.
Qed.

(** ** Idempotence of the persisters *)

Lemma extends_refl (s : Store) : extends s s.
Proof. by repeat split. Qed.

Lemma extends_trans (s1 s2 s3 : Store) :
  extends s1 s2 → extends s2 s3 → extends s1 s3.
Proof.
  intros (A1 & B1 & C1 & D1 & E1 & F1 & G1 & H1)
         (A2 & B2 & C2 & D2 & E2 & F2 & G2 & H2).
  repeat split; eauto; set_solver.
Qed.

Ltac extending :=
  repeat split; simpl; intros;
  try done;
  try (by apply insert_or_ignore_lookup);
  try (by apply union_subseteq_r).

Lemma extends_ignore_Track id s : extends s (insert_or_ignore_Track id s).
Proof. extending. Qed.
Lemma extends_ignore_Album id s : extends s (insert_or_ignore_Album id s).
Proof. extending. Qed.
Lemma extends_ignore_Artist id s : extends s (insert_or_ignore_Artist id s).
Proof. extending. Qed.
Lemma extends_ignore_TrackArtist t a s : extends s (insert_or_ignore_TrackArtist t a s).
Proof. extending. Qed.
Lemma extends_ignore_AlbumArtist al a s : extends s (insert_or_ignore_AlbumArtist al a s).
Proof. extending. Qed.
Lemma extends_ignore_ArtistGenre a g s : extends s (insert_or_ignore_ArtistGenre a g s).
Proof. extending. Qed.

Lemma extends_ignore_Genre name s : extends s (insert_or_ignore_Genre name s).
Proof.
  unfold insert_or_ignore_Genre. destruct (Genre s !! name) eqn:Hname.
  - apply extends_refl.
  - repeat split; simpl; try done.
    intros name' genre_id Hg. rewrite lookup_insert_ne; [done|]. congruence.
Qed.

Lemma extends_ignore_Area name type s : extends s (insert_or_ignore_Area name type s).
Proof.
  unfold insert_or_ignore_Area. destruct (Area s !! (name, type)) eqn:Hname.
  - apply extends_refl.
  - repeat split; simpl; try done.
    intros key id Hg. rewrite lookup_insert_ne; [done|]. congruence.
Qed.

(** Statements that find their row change nothing. *)
Lemma replace_Track_same id row s :
  Track s !! id = Some row → insert_or_replace_Track id row s = s.
Proof.
  intros H. unfold insert_or_replace_Track, set_Track.
  rewrite insert_id by done. by destruct s.
Qed.

Lemma replace_Album_same id row s :
  Album s !! id = Some row → insert_or_replace_Album id row s = s.
Proof.
  intros H. unfold insert_or_replace_Album, set_Album.
  rewrite insert_id by done. by destruct s.
Qed.

Lemma replace_Artist_same id row s :
  Artist s !! id = Some row → insert_or_replace_Artist id row s = s.
Proof.
  intros H. unfold insert_or_replace_Artist, set_Artist.
  rewrite insert_id by done. by destruct s.
Qed.

Lemma ignore_Track_same id s :
  is_Some (Track s !! id) → insert_or_ignore_Track id s = s.
Proof.
  intros H. unfold insert_or_ignore_Track, set_Track.
  rewrite insert_or_ignore_present by done. by destruct s.
Qed.

Lemma ignore_Album_same id s :
  is_Some (Album s !! id) → insert_or_ignore_Album id s = s.
Proof.
  intros H. unfold insert_or_ignore_Album, set_Album.
  rewrite insert_or_ignore_present by done. by destruct s.
Qed.

Lemma ignore_Artist_same id s :
  is_Some (Artist s !! id) → insert_or_ignore_Artist id s = s.
Proof.
  intros H. unfold insert_or_ignore_Artist, set_Artist.
  rewrite insert_or_ignore_present by done. by destruct s.
Qed.

Lemma ignore_TrackArtist_same t a s :
  (t, a) ∈ TrackArtist s → insert_or_ignore_TrackArtist t a s = s.
Proof.
  intros H. unfold insert_or_ignore_TrackArtist, set_TrackArtist.
  rewrite (subseteq_union_1_L {[(t, a)]}) by set_solver. by destruct s.
Qed.

Lemma ignore_AlbumArtist_same al a s :
  (al, a) ∈ AlbumArtist s → insert_or_ignore_AlbumArtist al a s = s.
Proof.
  intros H. unfold insert_or_ignore_AlbumArtist, set_AlbumArtist.
  rewrite (subseteq_union_1_L {[(al, a)]}) by set_solver. by destruct s.
Qed.

Lemma ignore_ArtistGenre_same a g s :
  (a, g) ∈ ArtistGenre s → insert_or_ignore_ArtistGenre a g s = s.
Proof.
  intros H. unfold insert_or_ignore_ArtistGenre, set_ArtistGenre.
  rewrite (subseteq_union_1_L {[(a, g)]}) by set_solver. by destruct s.
Qed.

Lemma ignore_Genre_same name id s :
  Genre s !! name = Some id → insert_or_ignore_Genre name s = s.
Proof. intros H. unfold insert_or_ignore_Genre. by rewrite H. Qed.

Lemma edge_and_artist_extends (track_id artist_id : string) (s s' : Store) :
  extends s s' →
  (track_id, artist_id) ∈ TrackArtist s ∧ is_Some (Artist s !! artist_id) →
  (track_id, artist_id) ∈ TrackArtist s' ∧ is_Some (Artist s' !! artist_id).
Proof.
  intros (_ & _ & HA & _ & _ & HT & _) [Hin [row Hrow]]. split.
  - by apply HT.
  - exists row. by apply HA.
Qed.

Lemma album_edge_and_artist_extends (album_id artist_id : string) (s s' : Store) :
  extends s s' →
  (album_id, artist_id) ∈ AlbumArtist s ∧ is_Some (Artist s !! artist_id) →
  (album_id, artist_id) ∈ AlbumArtist s' ∧ is_Some (Artist s' !! artist_id).
Proof.
  intros (_ & _ & HA & _ & _ & _ & HT & _) [Hin [row Hrow]]. split.
  - by apply HT.
  - exists row. by apply HA.
Qed.

Lemma genre_linked_extends (artist_id genre : string) (s s' : Store) :
  extends s s' → genre_linked artist_id s genre → genre_linked artist_id s' genre.
Proof.
  intros (_ & _ & _ & HG & _ & _ & _ & HE) (genre_id & Hg & Hin).
  exists genre_id. split; [by apply HG|by apply HE].
Qed.

Lemma dump_track_persists (track : TrackRec) (c : Cursor) :
  wp (dump_track track)
     (λ r c', r = Return tt ∧ track_persisted track (db c')) c.
Proof.
  unfold dump_track. fold (track_row track).
  apply wp_bind, wp_execute, wp_bind.
  apply (wp_for_each _
    (λ done c', Track (db c') !! t_id track = Some (track_row track)
                ∧ Forall (λ artist_id,
                     (t_id track, artist_id) ∈ TrackArtist (db c')
                     ∧ is_Some (Artist (db c') !! artist_id)) done)).
  - split; [|done]. simpl. by rewrite lookup_insert_eq.
  - intros done artist_id rest c' _ [Ht Hdone].
    set (s2 := insert_or_ignore_Artist artist_id
                 (insert_or_ignore_TrackArtist (t_id track) artist_id (db c'))).
    assert (extends (db c') s2) as Hext.
    { eapply extends_trans; [apply extends_ignore_TrackArtist|].
      apply extends_ignore_Artist. }
    change (Track s2 !! t_id track = Some (track_row track)
            ∧ Forall (λ a, (t_id track, a) ∈ TrackArtist s2
                           ∧ is_Some (Artist s2 !! a)) (done ++ [artist_id])).
    split; [by apply Hext|].
    apply Forall_snoc.
    + eapply Forall_impl; [exact Hdone|].
      intros a. by apply edge_and_artist_extends.
    + split; [simpl; set_solver|apply insert_or_ignore_self].
  - intros c' [Ht Hall]. apply wp_execute. split; [done|].
    set (s3 := insert_or_ignore_Album (t_album track) (db c')).
    assert (extends (db c') s3) as Hext by apply extends_ignore_Album.
    change (track_persisted track s3). split; [by apply Hext|split].
    + eapply Forall_impl; [exact Hall|].
      intros a. by apply edge_and_artist_extends.
    + apply insert_or_ignore_self.
Qed.

Lemma dump_track_again (track : TrackRec) (c : Cursor) :
  track_persisted track (db c) →
  wp (dump_track track) (λ r c', db c' = db c) c.
Proof.
  intros (Ht & Hall & Hal). unfold dump_track. fold (track_row track).
  apply wp_bind, wp_execute, wp_bind.
  apply (wp_for_each _ (λ _ c', db c' = db c)).
  - simpl. by apply replace_Track_same.
  - intros done artist_id rest c' Hl Hc'.
    assert (artist_id ∈ t_artists track) as Hin by (rewrite Hl; set_solver).
    rewrite Forall_forall in Hall. destruct (Hall _ Hin) as [He Ha].
    change (insert_or_ignore_Artist artist_id
              (insert_or_ignore_TrackArtist (t_id track) artist_id (db c')) = db c).
    rewrite Hc'. rewrite ignore_TrackArtist_same by done.
    by apply ignore_Artist_same.
  - intros c' Hc'. apply wp_execute. simpl. rewrite Hc'.
    by apply ignore_Album_same.
Qed.

Lemma dump_album_persists (album : AlbumRec) (release_date : string) (c : Cursor) :
  normalize_release_date (al_release_date album) = Return release_date →
  wp (dump_album album)
     (λ r c', r = Return tt ∧ album_persisted album release_date (db c')) c.
Proof.
  intros Hdate. unfold dump_album. rewrite Hdate. fold (album_row album release_date).
  apply wp_bind, wp_execute, wp_bind.
  apply (wp_for_each _
    (λ done c', Album (db c') !! al_id album = Some (album_row album release_date)
                ∧ Forall (λ artist_id,
                     (al_id album, artist_id) ∈ AlbumArtist (db c')
                     ∧ is_Some (Artist (db c') !! artist_id)) done)).
  - split; [|done]. simpl. by rewrite lookup_insert_eq.
  - intros done artist_id rest c' _ [Ht Hdone].
    set (s2 := insert_or_ignore_Artist artist_id
                 (insert_or_ignore_AlbumArtist (al_id album) artist_id (db c'))).
    assert (extends (db c') s2) as Hext.
    { eapply extends_trans; [apply extends_ignore_AlbumArtist|].
      apply extends_ignore_Artist. }
    change (Album s2 !! al_id album = Some (album_row album release_date)
            ∧ Forall (λ a, (al_id album, a) ∈ AlbumArtist s2
                           ∧ is_Some (Artist s2 !! a)) (done ++ [artist_id])).
    split; [by apply Hext|].
    apply Forall_snoc.
    + eapply Forall_impl; [exact Hdone|].
      intros a. by apply album_edge_and_artist_extends.
    + split; [simpl; set_solver|apply insert_or_ignore_self].
  - intros c' [Hal Hall].
    apply (wp_for_each _
      (λ done c'', Album (db c'') !! al_id album = Some (album_row album release_date)
                   ∧ Forall (λ artist_id,
                        (al_id album, artist_id) ∈ AlbumArtist (db c'')
                        ∧ is_Some (Artist (db c'') !! artist_id)) (al_artists album)
                   ∧ Forall (λ track_id, is_Some (Track (db c'') !! track_id)) done)).
    + done.
    + intros done track_id rest c'' _ (Hal' & Hall' & Hdone).
      set (s2 := insert_or_ignore_Track track_id (db c'')).
      assert (extends (db c'') s2) as Hext by apply extends_ignore_Track.
      change (Album s2 !! al_id album = Some (album_row album release_date)
              ∧ Forall (λ a, (al_id album, a) ∈ AlbumArtist s2
                             ∧ is_Some (Artist s2 !! a)) (al_artists album)
              ∧ Forall (λ t, is_Some (Track s2 !! t)) (done ++ [track_id])).
      split; [by apply Hext|split].
      * eapply Forall_impl; [exact Hall'|].
        intros a. by apply album_edge_and_artist_extends.
      * apply Forall_snoc; [|apply insert_or_ignore_self].
        eapply Forall_impl; [exact Hdone|].
        intros t [row Hrow]. exists row. by apply Hext.
    + done.
Qed.

Lemma dump_album_again (album : AlbumRec) (release_date : string) (c : Cursor) :
  normalize_release_date (al_release_date album) = Return release_date →
  album_persisted album release_date (db c) →
  wp (dump_album album) (λ r c', db c' = db c) c.
Proof.
  intros Hdate (Hal & Hall & Htracks). unfold dump_album. rewrite Hdate.
  fold (album_row album release_date).
  apply wp_bind, wp_execute, wp_bind.
  apply (wp_for_each _ (λ _ c', db c' = db c)).
  - simpl. by apply replace_Album_same.
  - intros done artist_id rest c' Hl Hc'.
    assert (artist_id ∈ al_artists album) as Hin by (rewrite Hl; set_solver).
    rewrite Forall_forall in Hall. destruct (Hall _ Hin) as [He Ha].
    change (insert_or_ignore_Artist artist_id
              (insert_or_ignore_AlbumArtist (al_id album) artist_id (db c')) = db c).
    rewrite Hc'. rewrite ignore_AlbumArtist_same by done.
    by apply ignore_Artist_same.
  - intros c' Hc'.
    apply (wp_for_each _ (λ _ c'', db c'' = db c)).
    + done.
    + intros done track_id rest c'' Hl Hc''.
      assert (track_id ∈ al_tracks album) as Hin by (rewrite Hl; set_solver).
      rewrite Forall_forall in Htracks.
      change (insert_or_ignore_Track track_id (db c'') = db c).
      rewrite Hc''. by apply ignore_Track_same, Htracks.
    + done.
Qed.

Lemma dump_artist_persists (artist : ArtistRec) (c : Cursor) :
  wp (dump_artist artist)
     (λ r c', r = Return tt ∧ artist_persisted artist (db c')) c.
Proof.
  unfold dump_artist. fold (artist_row artist).
  apply wp_bind, wp_execute.
  apply (wp_for_each _
    (λ done c', Artist (db c') !! ar_id artist = Some (artist_row artist)
                ∧ Forall (genre_linked (ar_id artist) (db c')) done)).
  - split; [|done]. simpl. by rewrite lookup_insert_eq.
  - intros done genre rest c' _ [Ha Hdone].
    apply wp_bind, wp_execute, wp_bind, wp_fetchone. cbn [db executed].
    destruct (select_after_insert_Genre genre (db c')) as [genre_id Hsel].
    rewrite Hsel. apply wp_execute.
    set (s1 := insert_or_ignore_Genre genre (db c')) in *.
    set (s2 := insert_or_ignore_ArtistGenre (ar_id artist) genre_id s1).
    assert (extends (db c') s2) as Hext.
    { eapply extends_trans; [apply extends_ignore_Genre|].
      apply extends_ignore_ArtistGenre. }
    change (Artist s2 !! ar_id artist = Some (artist_row artist)
            ∧ Forall (genre_linked (ar_id artist) s2) (done ++ [genre])).
    split; [by apply Hext|].
    apply Forall_snoc.
    + eapply Forall_impl; [exact Hdone|].
      intros g. by apply genre_linked_extends.
    + exists genre_id. split; [done|]. simpl. set_solver.
  - by intros c' [Ha Hall].
Qed.

Lemma dump_artist_again (artist : ArtistRec) (c : Cursor) :
  artist_persisted artist (db c) →
  wp (dump_artist artist) (λ r c', db c' = db c) c.
Proof.
  intros (Ha & Hall). unfold dump_artist. fold (artist_row artist).
  apply wp_bind, wp_execute.
  apply (wp_for_each _ (λ _ c', db c' = db c)).
  - simpl. by apply replace_Artist_same.
  - intros done genre rest c' Hl Hc'.
    assert (genre ∈ ar_genres artist) as Hin by (rewrite Hl; set_solver).
    rewrite Forall_forall in Hall. destruct (Hall _ Hin) as (genre_id & Hg & He).
    apply wp_bind, wp_execute, wp_bind, wp_fetchone. cbn [db executed].
    rewrite Hc'. rewrite (ignore_Genre_same genre genre_id) by done.
    unfold select_Genre_id. rewrite Hg. apply wp_execute. simpl.
    rewrite Hc', (ignore_Genre_same genre genre_id) by done.
    by apply ignore_ArtistGenre_same.
  - done.
Qed.

(** C3.  Persisting a record a second time changes nothing: after
    dump_tracks, dump_albums or dump_artists has persisted a record,
    persisting the same record again leaves every table of the store
    (entity rows, genre and area rows, junction rows) as it is. *)
Theorem persisting_twice_is_persisting_once (c : Cursor) :
  (∀ track,
     db (dump_tracks [track] (dump_tracks [track] c).2).2
     = db (dump_tracks [track] c).2)
  ∧ (∀ album,
       db (dump_albums [album] (dump_albums [album] c).2).2
       = db (dump_albums [album] c).2)
  ∧ (∀ artist,
       db (dump_artists [artist] (dump_artists [artist] c).2).2
       = db (dump_artists [artist] c).2).
Proof.
  unfold dump_tracks, dump_albums, dump_artists.
  split; [|split].
  - intros track. rewrite !for_each_singleton.
    apply dump_track_again. apply dump_track_persists.
  - intros album. rewrite !for_each_singleton.
    destruct (normalize_release_date (al_release_date album))
      as [release_date|e] eqn:Hdate.
    + apply (dump_album_again album release_date); [done|].
      by apply dump_album_persists.
    + unfold dump_album. rewrite Hdate. done.
  - intros artist. rewrite !for_each_singleton.
    apply dump_artist_again. apply dump_artist_persists.
Qed.

(** ** Release dates *)

(** C7.  dump_albums turns a release date of 4 characters into the first
    of January of that year, one of 7 characters into the first of that
    month, keeps one of 10 characters, and raises
    ValueError("Invalid release date: ...") for every other length; the
    converted date is the one stored, and a rejected date stores
    nothing. *)
Theorem release_date_normalization :
  normalize_release_date "2001" = Return "2001-01-01"
  ∧ normalize_release_date "2001-05" = Return "2001-05-01"
  ∧ normalize_release_date "2001-05-17" = Return "2001-05-17"
  ∧ (∀ release_date,
       (String.length release_date = 4%nat →
          normalize_release_date release_date = Return (release_date +:+ "-01-01"))
       ∧ (String.length release_date = 7%nat →
            normalize_release_date release_date = Return (release_date +:+ "-01"))
       ∧ (String.length release_date = 10%nat →
            normalize_release_date release_date = Return release_date)
       ∧ (String.length release_date ≠ 4%nat →
          String.length release_date ≠ 7%nat →
          String.length release_date ≠ 10%nat →
            normalize_release_date release_date
            = Raise (ValueError ("Invalid release date: " +:+ release_date))))
  ∧ (∀ album c,
       match normalize_release_date (al_release_date album) with
       | Raise e => dump_albums [album] c = (Raise e, c)
       | Return release_date =>
           Album (db (dump_albums [album] c).2) !! al_id album
           = Some (album_row album release_date)
       end).
Proof.
  split; [done|]. split; [done|]. split; [done|]. split.
  - intros release_date. unfold normalize_release_date.
    split; [|split; [|split]].
    + by intros ->.
    + by intros ->.
    + by intros ->.
    + intros H4 H7 H10.
      apply Nat.eqb_neq in H4, H7, H10. by rewrite H4, H7, H10.
  - intros album c.
    destruct (normalize_release_date (al_release_date album))
      as [release_date|e] eqn:Hdate.
    + unfold dump_albums. rewrite for_each_singleton.
      by apply (dump_album_persists album release_date c Hdate).
    + unfold dump_albums, dump_album. cbn [for_each]. rewrite Hdate. done.
Qed.

Lemma release_date_normalization_witness :
  normalize_release_date "1999" = Return "1999-01-01"
  ∧ normalize_release_date "19990" = Raise (ValueError "Invalid release date: 19990").
Proof.
  split.
  - apply (proj1 (proj1 (proj2 (proj2 (proj2 release_date_normalization))) "1999")).
    reflexivity.
  - apply (proj2 (proj2 (proj2 (proj1 (proj2 (proj2 (proj2
             release_date_normalization))) "19990")))); simpl; lia.
Defined.

(** ** musicbrainz_load.py: saving areas and genres *)

Lemma enrichment_kept_refl (s : Store) : enrichment_kept s s.
Proof. by repeat split. Qed.

Lemma enrichment_kept_trans (s1 s2 s3 : Store) :
  enrichment_kept s1 s2 → enrichment_kept s2 s3 → enrichment_kept s1 s3.
Proof.
  intros (A1 & B1 & C1) (A2 & B2 & C2). split; [|split]; eauto. set_solver.
Qed.

Lemma enrichment_kept_Area name type s :
  enrichment_kept s (insert_or_ignore_Area name type s).
Proof.
  unfold insert_or_ignore_Area. destruct (Area s !! (name, type)).
  - apply enrichment_kept_refl.
  - by repeat split.
Qed.

Lemma enrichment_kept_Genre name s :
  enrichment_kept s (insert_or_ignore_Genre name s).
Proof.
  unfold insert_or_ignore_Genre. destruct (Genre s !! name).
  - apply enrichment_kept_refl.
  - by repeat split.
Qed.

Lemma enrichment_kept_ArtistGenre a g s :
  enrichment_kept s (insert_or_ignore_ArtistGenre a g s).
Proof. split; [done|]. split; [done|]. simpl. set_solver. Qed.

Lemma update_area_id_lookup (area_id : nat) (id id' : string) (s : Store) :
  is_Some (Artist s !! id') →
  (id = id' ∨ has_area id' s) →
  has_area id' (update_Artist_area_id area_id id s).
Proof.
  intros [row Hrow] Hcase. unfold has_area, update_Artist_area_id. simpl.
  destruct (decide (id = id')) as [->|Hne].
  - rewrite lookup_alter_eq, Hrow. simpl. eauto.
  - rewrite lookup_alter_ne by done.
    destruct Hcase as [?|(row' & a & Hr & Ha)]; [done|]. eauto.
Qed.

Lemma enrichment_kept_update area_id id s :
  enrichment_kept s (update_Artist_area_id area_id id s).
Proof.
  split; [|split; [|done]].
  - intros id' H. simpl. by apply lookup_alter_is_Some.
  - intros id' H. apply update_area_id_lookup; [|by right].
    destruct H as (row & _ & Hrow & _). by exists row.
Qed.

Lemma enrichment_kept_Area_param name type s :
  enrichment_kept s (insert_or_ignore_Area_param name type s).
Proof.
  destruct name, type; try apply enrichment_kept_Area; by repeat split.
Qed.

Lemma enrichment_kept_Genre_param name s :
  enrichment_kept s (insert_or_ignore_Genre_param name s).
Proof. destruct name; [apply enrichment_kept_Genre|]. by repeat split. Qed.

Lemma has_genre_kept (id : string) (s s' : Store) :
  enrichment_kept s s' → has_genre id s → has_genre id s'.
Proof. intros (_ & _ & Hsub) [g Hg]. exists g. by apply Hsub. Qed.

Lemma some_genre_snoc (done : list (option string)) (genre : option string) :
  some_genre (done ++ [genre]) → some_genre done ∨ is_Some genre.
Proof.
  intros [g Hg]. apply elem_of_app in Hg as [Hg|Hg].
  - left. by exists g.
  - right. apply list_elem_of_singleton in Hg. by exists g.
Qed.

(** What saving one artist achieves. *)
Lemma save_artist_enriches (fetched_data : gmap (option string) ArtistInfo)
    (artist_id artist_name : string) (c : Cursor) :
  wp (save_artist fetched_data (artist_id, artist_name))
     (λ r c', r = Return tt
              ∧ enrichment_kept (db c) (db c')
              ∧ (is_Some (Artist (db c) !! artist_id) →
                 area_known (info_used fetched_data artist_name) →
                   has_area artist_id (db c')
                   ∧ (some_genre (genres_used fetched_data artist_name) →
                        has_genre artist_id (db c')))) c.
Proof.
  unfold save_artist, genres_used, info_used, area_known.
  destruct (default unknown_info (fetched_data !! Some artist_name))
    as [[area_name area_type] genres].
  apply wp_bind, wp_execute, wp_bind, wp_fetchone. cbn [db executed fst snd].
  destruct area_name as [name|], area_type as [type|];
    cbn [insert_or_ignore_Area_param select_Area_id_param].
  2,3,4: apply wp_ret; (split; [done|]); (split; [by repeat split|]);
         by intros _ [[? ?] [? ?]].
  destruct (select_after_insert_Area name type (db c)) as [area_id Hsel].
  rewrite Hsel. apply wp_bind, wp_execute.
  set (s1 := insert_or_ignore_Area name type (db c)).
  set (s2 := update_Artist_area_id area_id artist_id s1).
  assert (enrichment_kept (db c) s2) as Hkept.
  { eapply enrichment_kept_trans; [apply enrichment_kept_Area|].
    apply enrichment_kept_update. }
  assert (is_Some (Artist (db c) !! artist_id) → has_area artist_id s2) as Harea.
  { intros Ha. apply update_area_id_lookup; [|by left].
    by apply enrichment_kept_Area. }
  apply (wp_for_each _
    (λ done c', enrichment_kept (db c) (db c')
                ∧ (is_Some (Artist (db c) !! artist_id) → has_area artist_id (db c'))
                ∧ (some_genre done → has_genre artist_id (db c')))).
  - split; [done|]. split; [done|]. intros [g Hg]. by apply not_elem_of_nil in Hg.
  - intros done genre rest c' _ (Hk & Ha & Hdone).
    apply wp_bind, wp_execute, wp_bind, wp_fetchone. cbn [db executed].
    destruct genre as [genre|];
      cbn [insert_or_ignore_Genre_param select_Genre_id_param].
    + destruct (select_after_insert_Genre genre (db c')) as [genre_id Hg].
      rewrite Hg. apply wp_execute.
      set (s3 := insert_or_ignore_Genre genre (db c')).
      set (s4 := insert_or_ignore_ArtistGenre artist_id genre_id s3).
      assert (enrichment_kept (db c') s4) as Hk'.
      { eapply enrichment_kept_trans; [apply enrichment_kept_Genre|].
        apply enrichment_kept_ArtistGenre. }
      change (enrichment_kept (db c) s4
              ∧ (is_Some (Artist (db c) !! artist_id) → has_area artist_id s4)
              ∧ (some_genre (done ++ [Some genre]) → has_genre artist_id s4)).
      split; [by eapply enrichment_kept_trans|split].
      * intros H. by apply Hk', Ha.
      * intros _. exists genre_id. simpl. set_solver.
    + apply wp_ret.
      assert (enrichment_kept (db c') (insert_Genre_unnamed (db c'))) as Hk'
        by by repeat split.
      change (enrichment_kept (db c) (insert_Genre_unnamed (db c'))
              ∧ (is_Some (Artist (db c) !! artist_id) →
                 has_area artist_id (insert_Genre_unnamed (db c')))
              ∧ (some_genre (done ++ [None]) →
                 has_genre artist_id (insert_Genre_unnamed (db c')))).
      split; [by eapply enrichment_kept_trans|split].
      * intros H. by apply Hk', Ha.
      * intros Hsome. apply some_genre_snoc in Hsome as [Hsome|[? ?]]; [|done].
        by eapply has_genre_kept, Hdone.
  - intros c' (Hk & Ha & Hg). split; [done|]. split; [done|]. auto.
Qed.

(** An artist whose area lacks name or type is skipped: the INSERT leaves
    an Area row that no SELECT finds, and [continue] goes on to the next
    artist. *)
Lemma save_artist_skips (fetched_data : gmap (option string) ArtistInfo)
    (artist_id artist_name : string) (c : Cursor) :
  ¬ area_known (info_used fetched_data artist_name) →
  save_artist fetched_data (artist_id, artist_name) c
  = (Return tt,
     executed (insert_Area_unkeyed
                 (info_used fetched_data artist_name).1.1
                 (info_used fetched_data artist_name).1.2) c).
Proof.
  unfold save_artist, info_used, area_known. intros Hunknown.
  destruct (default unknown_info (fetched_data !! Some artist_name))
    as [[area_name area_type] genres].
  destruct area_name as [name|], area_type as [type|]; try done.
  destruct Hunknown. by split.
Qed.

Lemma save_artist_data_enriches (artist_data : list (string * string))
    (fetched_data : gmap (option string) ArtistInfo) (c : Cursor) :
  Forall (λ artist, is_Some (Artist (db c) !! artist.1)) artist_data →
  wp (save_artist_data_to_db artist_data fetched_data)
     (λ r c', r = Return tt
              ∧ Forall (λ artist,
                   area_known (info_used fetched_data artist.2) →
                   has_area artist.1 (db c')
                   ∧ (some_genre (genres_used fetched_data artist.2) →
                        has_genre artist.1 (db c'))) artist_data) c.
Proof.
  intros Hrows. unfold save_artist_data_to_db.
  apply (wp_for_each _
    (λ done c', enrichment_kept (db c) (db c')
                ∧ Forall (λ artist,
                     area_known (info_used fetched_data artist.2) →
                     has_area artist.1 (db c')
                     ∧ (some_genre (genres_used fetched_data artist.2) →
                          has_genre artist.1 (db c'))) done)).
  - split; [apply enrichment_kept_refl|done].
  - intros done [artist_id artist_name] rest c' Hl [Hk Hdone].
    eapply wp_mono; [apply save_artist_enriches|].
    intros r c'' (-> & Hk' & Hnew). split.
    + by eapply enrichment_kept_trans.
    + apply Forall_snoc.
      * eapply Forall_impl; [exact Hdone|].
        intros [id name] Hold Hknown. destruct (Hold Hknown) as [Ha Hg].
        split; [by apply Hk'|].
        intros Hsome. by eapply has_genre_kept, Hg.
      * apply Hnew. apply Hk.
        rewrite Forall_forall in Hrows.
        apply (Hrows (artist_id, artist_name)).
        rewrite Hl, elem_of_app, elem_of_cons. auto.
  - by intros c' [_ Hall].
Qed.

(** *** What the fetcher returns on answers without holes *)

Lemma unknown_info_complete : complete_info unknown_info.
Proof.
  split; [by split|]. exists "Unknown". apply list_elem_of_singleton. done.
Qed.

Lemma info_used_complete (fetched_data : gmap (option string) ArtistInfo)
    (artist_name : string) :
  map_Forall (λ _ info, complete_info info) fetched_data →
  complete_info (info_used fetched_data artist_name).
Proof.
  intros Hall. unfold info_used.
  destruct (fetched_data !! Some artist_name) as [info|] eqn:Hname; simpl.
  - by apply (Hall (Some artist_name)).
  - apply unknown_info_complete.
Qed.

Lemma member_items_present (key : string) (ms : list Member) :
  Forall (λ m, m ≠ Absent) ms → ∃ items, member_items key ms = Return items.
Proof.
  induction 1 as [|m ms Hm _ [items IH]]; [by eexists|].
  simpl. rewrite IH. destruct m; [done| |]; by eexists.
Qed.

Lemma member_items_strings (key : string) (ms : list Member) :
  Forall (λ m, ∃ s, m = Str s) ms →
  ∃ items, member_items key ms = Return items
           ∧ (ms ≠ [] → some_genre items).
Proof.
  induction 1 as [|m ms [s ->] _ (items & IH & _)]; [by eexists|].
  simpl. rewrite IH. eexists. split; [done|]. intros _. exists s. by left.
Qed.

Lemma py_or_clean (x y : option MBArea) :
  clean_area x → clean_area y → clean_area (py_or x y).
Proof. intros Hx Hy. unfold py_or. by destruct (truthy x). Qed.

Lemma area_member_clean (area_info : option MBArea) :
  clean_area area_info →
  is_Some (area_member area_name area_info)
  ∧ is_Some (area_member area_type area_info).
Proof.
  unfold area_member. destruct area_info as [a|]; [|by split].
  intros [Hname Htype]. destruct (truthy (Some a)); [|by split].
  split; [by destruct (area_name a)|by destruct (area_type a)].
Qed.

Lemma organize_artist_clean (artist : MBArtist) :
  clean_hit artist →
  ∃ name info, organize_artist artist = Return (name, info)
               ∧ complete_info info.
Proof.
  intros (Hname & Harea & Hbegin & Htags). unfold organize_artist.
  assert (∃ name, member_item "name" (mb_name artist) = Return name)
    as [name ->].
  { destruct (mb_name artist); [done| |]; by eexists. }
  destruct (area_member_clean _ (py_or_clean _ _ Harea Hbegin))
    as [Hn Ht].
  destruct (mb_tags artist) as [[|tag tags]|].
  - eexists _, _. split; [done|]. split; [by split|].
    exists "Unknown". by left.
  - destruct (member_items_strings "name" (tag :: tags) Htags)
      as (items & -> & Hsome).
    eexists _, _. split; [done|]. split; [by split|]. by apply Hsome.
  - eexists _, _. split; [done|]. split; [by split|].
    exists "Unknown". by left.
Qed.

Lemma organize_into_clean (artists : list MBArtist) :
  Forall clean_hit artists →
  ∀ d, map_Forall (λ _ info, complete_info info) d →
       ∃ d', organize_into d artists = Return d'
             ∧ map_Forall (λ _ info, complete_info info) d'.
Proof.
  induction 1 as [|artist artists Hhit _ IH]; intros d Hd; [by exists d|].
  simpl. destruct (organize_artist_clean artist Hhit) as (name & info & -> & Hinfo).
  apply IH. by apply map_Forall_insert_2.
Qed.

Lemma organize_clean (artists : list MBArtist) :
  Forall clean_hit artists →
  ∃ d, organize artists = Return d
       ∧ map_Forall (λ _ info, complete_info info) d.
Proof.
  intros Hclean. unfold organize.
  destruct (member_items_present "name" (map mb_name artists)) as [names ->].
  { apply Forall_fmap. eapply Forall_impl; [exact Hclean|].
    by intros artist (Hname & _). }
  apply organize_into_clean; [done|]. apply map_Forall_empty.
Qed.

Lemma requests_get_clean (url : string) (e : Env MBBody) :
  Forall clean_answer (http e) →
  clean_answer (requests_get url e).1
  ∧ Forall clean_answer (http (requests_get url e).2).
Proof.
  unfold requests_get. intros Hclean.
  destruct (http e) as [|r rest]; simpl; [done|].
  by apply Forall_cons in Hclean.
Qed.

Lemma mb_request_loop_clean (url : string) :
  ∀ (remaining attempt : nat) (w : MBWorld),
    Forall clean_answer (http (mb_env w)) →
    ∃ d, (mb_request_loop url attempt remaining w).1 = Return d
         ∧ map_Forall (λ _ info, complete_info info) d
         ∧ Forall clean_answer
             (http (mb_env (mb_request_loop url attempt remaining w).2)).
Proof.
  induction remaining as [|remaining IH]; intros attempt w Hclean.
  { exists ∅. split; [done|]. split; [apply map_Forall_empty|done]. }
  cbn [mb_request_loop].
  destruct (requests_get_clean url (mb_env w) Hclean) as [Hanswer Hrest].
  destruct (requests_get url (mb_env w)) as [response e].
  simpl in Hanswer, Hrest.
  destruct (next_draw (uniform_draws w)) as [u draws].
  destruct response as [[data|]|status header|];
    [|by apply IH|by apply IH|by apply IH].
  destruct (organize_clean data Hanswer) as (d & Hd & Hall).
  exists d. by rewrite Hd.
Qed.

Lemma get_artist_data_batch_clean (artist_names : list string) (retries : nat)
    (w : MBWorld) :
  Forall clean_answer (http (mb_env w)) →
  ∃ d, (get_artist_data_batch artist_names retries w).1 = Return d
       ∧ map_Forall (λ _ info, complete_info info) d
       ∧ Forall clean_answer
           (http (mb_env (get_artist_data_batch artist_names retries w).2)).
Proof.
  intros Hclean. unfold get_artist_data_batch.
  apply mb_request_loop_clean. simpl.
  by destruct (evict (now (mb_env w)) 1 (timestamps w)).
Qed.

(** C9 (as the code has it).  For a batch of artists that have rows in
    Artist, save_artist_data_to_db leaves with a non-NULL area_id every
    artist whose area, as the mapping or the sentinel gives it, has a
    name and a type, and with an ArtistGenre row every such artist one of
    whose genres is a string.  So an artist absent from fetched_data ends
    complete, and so does the whole batch with the mapping that
    get_artist_data_batch returns (the empty one included) when the
    answers of the server have no holes.  An artist whose area lacks name
    or type (a JSON null, which the fetcher passes on as None) is
    skipped: no table but Area is written, so it has neither area_id nor
    genres from this pass. *)
Theorem save_artist_data_completes_the_batch
    (artist_data : list (string * string)) (c : Cursor) :
  (∀ artist_id artist_name,
     (artist_id, artist_name) ∈ artist_data →
     is_Some (Artist (db c) !! artist_id)) →
  (∀ fetched_data artist_id artist_name,
     (artist_id, artist_name) ∈ artist_data →
     let s' := db (save_artist_data_to_db artist_data fetched_data c).2 in
     (area_known (info_used fetched_data artist_name) →
        has_area artist_id s'
        ∧ (some_genre (genres_used fetched_data artist_name) →
             has_genre artist_id s'))
     ∧ (fetched_data !! Some artist_name = None →
          has_area artist_id s' ∧ has_genre artist_id s'))
  ∧ (∀ artist_names retries w,
       Forall clean_answer (http (mb_env w)) →
       ∃ fetched_data,
         (get_artist_data_batch artist_names retries w).1 = Return fetched_data
         ∧ ∀ artist_id artist_name,
             (artist_id, artist_name) ∈ artist_data →
             let s' := db (save_artist_data_to_db artist_data fetched_data c).2 in
             has_area artist_id s' ∧ has_genre artist_id s')
  ∧ (∀ fetched_data artist_id artist_name,
       ¬ area_known (info_used fetched_data artist_name) →
       let s' := db (save_artist_data_to_db [(artist_id, artist_name)]
                       fetched_data c).2 in
       Artist s' = Artist (db c) ∧ ArtistGenre s' = ArtistGenre (db c)
       ∧ Genre s' = Genre (db c) ∧ Area s' = Area (db c)).
Proof.
  intros Hrows.
  assert (∀ fetched_data artist_id artist_name,
    (artist_id, artist_name) ∈ artist_data →
    area_known (info_used fetched_data artist_name) →
    has_area artist_id (db (save_artist_data_to_db artist_data fetched_data c).2)
    ∧ (some_genre (genres_used fetched_data artist_name) →
       has_genre artist_id
         (db (save_artist_data_to_db artist_data fetched_data c).2))) as Hmain.
  { intros fetched_data artist_id artist_name Hin.
    destruct (save_artist_data_enriches artist_data fetched_data c) as [_ Hall].
    { apply Forall_forall. intros [id name] Hin'. by apply (Hrows id name). }
    rewrite Forall_forall in Hall. apply (Hall (artist_id, artist_name) Hin). }
  split; [|split].
  - intros fetched_data artist_id artist_name Hin s'.
    split; [by apply Hmain|].
    intros Habsent.
    assert (info_used fetched_data artist_name = unknown_info) as Hinfo
      by (unfold info_used; by rewrite Habsent).
    destruct (Hmain fetched_data artist_id artist_name Hin) as [Ha Hg].
    { rewrite Hinfo. apply unknown_info_complete. }
    split; [done|]. apply Hg. unfold genres_used. rewrite Hinfo.
    apply unknown_info_complete.
  - intros artist_names retries w Hclean.
    destruct (get_artist_data_batch_clean artist_names retries w Hclean)
      as (fetched_data & Hfetched & Hall & _).
    exists fetched_data. split; [done|].
    intros artist_id artist_name Hin s'.
    destruct (info_used_complete fetched_data artist_name Hall) as [Hknown Hsome].
    destruct (Hmain fetched_data artist_id artist_name Hin Hknown) as [Ha Hg].
    split; [done|]. by apply Hg.
  - intros fetched_data artist_id artist_name Hunknown s'. subst s'.
    unfold save_artist_data_to_db. rewrite for_each_singleton.
    by rewrite save_artist_skips.
Qed.

Lemma band_store_has_rows :
  ∀ artist_id artist_name,
    (artist_id, artist_name) ∈ [("a1", "Band")] →
    is_Some (Artist (db (open_cursor band_store)) !! artist_id).
Proof.
  intros artist_id artist_name Hin.
  apply list_elem_of_singleton in Hin. injection Hin as -> ->. by eexists.
Qed.

Lemma save_artist_data_completes_the_batch_witness :
  has_area "a1"
    (db (save_artist_data_to_db [("a1", "Band")] ∅ (open_cursor band_store)).2)
  ∧ has_genre "a1"
      (db (save_artist_data_to_db [("a1", "Band")] ∅ (open_cursor band_store)).2).
Proof.
  apply (proj2 (proj1 (save_artist_data_completes_the_batch
                         [("a1", "Band")] (open_cursor band_store)
                         band_store_has_rows)
                  ∅ "a1" "Band" ltac:(by apply list_elem_of_singleton))).
  reflexivity.
Defined.

(** C9 as the spec words it fails for a mapping with an empty genre list:
    the artist gets its area and no ArtistGenre row. *)
Lemma save_artist_data_without_genres :
  ¬ has_genre "a1"
      (db (save_artist_data_to_db [("a1", "Band")] band_without_genres
             (open_cursor band_store)).2).
Proof.
  intros [genre_id Hin].
  assert (ArtistGenre
            (db (save_artist_data_to_db [("a1", "Band")] band_without_genres
                   (open_cursor band_store)).2) = ∅) as Hempty
    by (vm_compute; reflexivity).
  rewrite Hempty in Hin. by apply not_elem_of_empty in Hin.
Qed.

(** And it fails for what get_artist_data_batch returns when the server
    gives the band an area without type: the mapping holds
    (("Oslo", None), ["rock"]), the SELECT by name and type finds no row,
    and the artist is left as it was, without area_id and without
    genre. *)
Lemma save_artist_data_skips_an_untyped_area :
  ∃ fetched_data,
    (get_artist_data_batch ["Band"] 5
       (mb_world_of [RespOk (MBJson [band_of_untyped_area])])).1
    = Return fetched_data
    ∧ fetched_data !! Some "Band" = Some ((Some "Oslo", None), [Some "rock"])
    ∧ let s' := db (save_artist_data_to_db [("a1", "Band")] fetched_data
                      (open_cursor band_store)).2 in
      ¬ has_area "a1" s' ∧ ¬ has_genre "a1" s'.
Proof.
  set (fetched_data := {[ Some "Band" := ((Some "Oslo", None), [Some "rock"]) ]}
                       : gmap (option string) ArtistInfo).
  exists fetched_data.
  split; [vm_compute; reflexivity|]. split; [vm_compute; reflexivity|].
  assert (db (save_artist_data_to_db [("a1", "Band")] fetched_data
                (open_cursor band_store)).2
          = insert_Area_unkeyed (Some "Oslo") None band_store) as ->.
  { unfold save_artist_data_to_db. rewrite for_each_singleton.
    rewrite save_artist_skips; [done|].
    intros [_ [? H]]. vm_compute in H. done. }
  split.
  - intros (row & area_id & Hrow & Harea).
    vm_compute in Hrow. injection Hrow as <-. done.
  - intros [genre_id Hin]. by apply not_elem_of_empty in Hin.
Qed.

(** ** The scheduler *)

(** A scan is empty exactly when no row passes its WHERE clause. *)
Lemma select_ids_nil {V} (where_ : V → bool) (t : gmap string V) :
  select_ids where_ t = [] ↔ ∀ id row, t !! id = Some row → where_ row = false.
Proof.
  unfold select_ids. split.
  - intros Hnil id row Hrow.
    destruct (where_ row) eqn:Hwhere; [|done]. exfalso.
    assert ((id, row) ∈ filter (λ kv : string * V, where_ kv.2 = true)
                          (map_to_list t)) as Hin.
    { apply list_elem_of_filter. split; [done|]. by apply elem_of_map_to_list. }
    apply fmap_nil_inv in Hnil. rewrite Hnil in Hin.
    by apply not_elem_of_nil in Hin.
  - intros Hall.
    destruct (filter (λ kv : string * V, where_ kv.2 = true) (map_to_list t))
      as [|[id row] rest] eqn:Hfilter; [done|]. exfalso.
    assert ((id, row) ∈ filter (λ kv : string * V, where_ kv.2 = true)
                          (map_to_list t)) as Hin
      by (rewrite Hfilter; left).
    apply list_elem_of_filter in Hin as [Hwhere Hin].
    apply elem_of_map_to_list in Hin. simpl in Hwhere.
    rewrite (Hall id row Hin) in Hwhere. done.
Qed.

Lemma no_count_is_nil {A} (l : list A) : (0 <? length l)%nat = false ↔ l = [].
Proof. destruct l; simpl; split; done. Qed.

Lemma is_null_false {A} (o : option A) : is_null o = false ↔ o ≠ None.
Proof. destruct o; simpl; split; done. Qed.

Lemma is_zero_false (o : option Z) : is_zero o = false ↔ o ≠ Some 0.
Proof.
  destruct o as [[| |]|]; simpl; split; done.
Qed.

Lemma no_track_without_name (s : Store) :
  tracks_without_name s = []
  ↔ ∀ id row, Track s !! id = Some row → track_name row ≠ None.
Proof.
  unfold tracks_without_name. rewrite select_ids_nil.
  split; intros H id row Hrow; apply is_null_false, (H id row Hrow).
Qed.

Lemma no_album_without_name (s : Store) :
  albums_without_name s = []
  ↔ ∀ id row, Album s !! id = Some row → album_name row ≠ None.
Proof.
  unfold albums_without_name. rewrite select_ids_nil.
  split; intros H id row Hrow; apply is_null_false, (H id row Hrow).
Qed.

Lemma no_artist_incomplete (s : Store) :
  artists_incomplete s = []
  ↔ ∀ id row, Artist s !! id = Some row →
      artist_name row ≠ None ∧ artist_retrieved_albums row ≠ Some 0.
Proof.
  unfold artists_incomplete. rewrite select_ids_nil.
  split; intros H id row Hrow; specialize (H id row Hrow).
  - apply orb_false_iff in H as [Hname Hzero].
    split; [by apply is_null_false|by apply is_zero_false].
  - destruct H as [Hname Hzero]. apply orb_false_iff.
    split; [by apply is_null_false|by apply is_zero_false].
Qed.

(** The three counts of lines 805-812 are all zero exactly when no row of
    the store is incomplete. *)
Lemma must_continue_false (s : Store) :
  must_continue s = false ↔ all_complete s.
Proof.
  unfold must_continue, all_complete.
  rewrite <- no_track_without_name, <- no_album_without_name,
    <- no_artist_incomplete.
  destruct (0 <? length (tracks_without_name s))%nat eqn:Htracks.
  { split; [done|]. intros (H & _ & _). apply no_count_is_nil in H. congruence. }
  destruct (0 <? length (albums_without_name s))%nat eqn:Halbums.
  { split; [done|]. intros (_ & H & _). apply no_count_is_nil in H. congruence. }
  apply no_count_is_nil in Htracks, Halbums.
  destruct (0 <? length (artists_incomplete s))%nat eqn:Hartists.
  { split; [done|]. intros (_ & _ & H). apply no_count_is_nil in H. congruence. }
  apply no_count_is_nil in Hartists. done.
Qed.

Lemma main_loop_done (random_order : list string → list string)
    (fuel : nat) (check_albums : bool) :
  ∀ passes st st',
    main_loop random_order passes fuel check_albums st = Done st' →
    ∃ st0 st1,
      after_passes random_order fuel check_albums st st0
      ∧ run_stages random_order fuel check_albums st0 = Some (Return tt, st1)
      ∧ all_complete (db (cursor st1))
      ∧ st' = commit st1.
Proof.
  induction passes as [|passes IH]; intros st st' Hdone; [done|].
  cbn [main_loop] in Hdone.
  destruct (run_stages random_order fuel check_albums st)
    as [[[[]|ex] st1]|] eqn:Hpass; [|done|done].
  destruct (must_continue (db (cursor st1))) eqn:Hcont.
  - destruct (IH st1 st' Hdone) as (st0 & st2 & Hreach & Hlast & Hall & Hst').
    exists st0, st2. split; [|done].
    apply (after_one_more _ _ _ st st1 st0); [done| |done].
    intros Hcomplete. apply must_continue_false in Hcomplete. congruence.
  - injection Hdone as <-. apply must_continue_false in Hcont.
    exists st, st1. split; [constructor|done].
Qed.

(** C2.  The main loop reaches DONE only from the end of a pass at which
    no row of the store is incomplete: no track and no album without a
    name, no artist without a name or with retrieved_albums = 0, all on
    one and the same store, the one that DONE commits.  That pass is one
    of the run: the passes before it ended on a store with an incomplete
    row and were each followed by another pass, as every such pass is.
    And a run whose passes lead to a complete store does reach DONE. *)
Theorem main_loop_done_only_when_all_complete
    (random_order : list string → list string) (fuel : nat) (check_albums : bool) :
  (∀ passes st st',
     main_loop random_order passes fuel check_albums st = Done st' →
     all_complete (db (cursor st'))
     ∧ ∃ st0 st1,
         after_passes random_order fuel check_albums st st0
         ∧ run_stages random_order fuel check_albums st0 = Some (Return tt, st1)
         ∧ all_complete (db (cursor st1))
         ∧ st' = commit st1)
  ∧ (∀ passes st st1,
       run_stages random_order fuel check_albums st = Some (Return tt, st1) →
       ¬ all_complete (db (cursor st1)) →
       main_loop random_order (S passes) fuel check_albums st
       = main_loop random_order passes fuel check_albums st1)
  ∧ (∀ st st0 st1,
       after_passes random_order fuel check_albums st st0 →
       run_stages random_order fuel check_albums st0 = Some (Return tt, st1) →
       all_complete (db (cursor st1)) →
       ∃ passes,
         main_loop random_order passes fuel check_albums st = Done (commit st1)).
Proof.
  split; [|split].
  - intros passes st st' Hdone.
    destruct (main_loop_done random_order fuel check_albums passes st st' Hdone)
      as (st0 & st1 & Hreach & Hlast & Hall & ->).
    split; [done|]. by exists st0, st1.
  - intros passes st st1 Hpass Hmore. cbn [main_loop]. rewrite Hpass.
    destruct (must_continue (db (cursor st1))) eqn:Hcont; [done|].
    by apply must_continue_false in Hcont.
  - intros st st0 st1 Hreach Hlast Hall.
    induction Hreach as [st|st st2 st0 Hpass Hmore Hreach IH].
    + exists 1%nat. cbn [main_loop]. rewrite Hlast.
      apply must_continue_false in Hall. by rewrite Hall.
    + destruct (IH Hlast) as [passes Hdone]. exists (S passes).
      cbn [main_loop]. rewrite Hpass.
      destruct (must_continue (db (cursor st2))) eqn:Hcont; [done|].
      by apply must_continue_false in Hcont.
Qed.

Lemma main_loop_done_only_when_all_complete_witness :
  ∃ st', main_loop id 3 10 true sample_sched = Done st'
         ∧ all_complete (db (cursor st')).
Proof.
  eexists. split; [vm_compute; reflexivity|].
  eapply (proj1 (main_loop_done_only_when_all_complete id 10 true) 3%nat sample_sched).
  vm_compute. reflexivity.
Defined.

(** With check_albums off nothing sets retrieved_albums, so the same
    store keeps the loop going: three passes do not reach DONE. *)
Example main_loop_without_album_stage :
  main_loop id 3 10 false sample_sched = OutOfFuel.
Proof. vm_compute. reflexivity. Qed.

(* ===================================================================== *)
(** * Part IV: further properties of the code                             *)
(* ===================================================================== *)

(** ** More on the limiter *)

Lemma spaced_tail (t : Q) (d : list Q) : spaced (t :: d) → spaced d.
Proof. inversion 1; [constructor|done]. Qed.

Lemma spaced_evict (t window : Q) (d : list Q) :
  spaced d → spaced (evict t window d).
Proof.
  induction d as [|ts d IH]; [done|]. intros Hd. simpl.
  destruct (Qgtb (t - ts) window); [|done]. by apply IH, (spaced_tail ts).
Qed.

Lemma Forall_evict (P : Q → Prop) (t window : Q) (d : list Q) :
  Forall P d → Forall P (evict t window d).
Proof.
  induction 1 as [|ts d Hts Hd IH]; [done|]. simpl.
  destruct (Qgtb (t - ts) window); [done|]. by constructor.
Qed.

Lemma spaced_snoc (d : list Q) (T : Q) :
  spaced d → all_before T d → spaced (d ++ [T]).
Proof.
  induction 1 as [|t|t t' d Hgap Hd IH]; intros Hall.
  - constructor.
  - apply Forall_cons in Hall as [Ht _]. simpl. constructor; [done|constructor].
  - apply Forall_cons in Hall as [_ Hall]. simpl. constructor; [done|].
    by apply IH.
Qed.

Lemma all_before_later (T T' : Q) (d : list Q) :
  (T <= T')%Q → all_before T d → all_before T' d.
Proof.
  intros HT Hall. eapply Forall_impl; [exact Hall|]. simpl. intros ts H. lra.
Qed.

Lemma deque_step (window : Q) (t t' : Q) (d : list Q) :
  (t + base_wait <= t')%Q →
  spaced d ∧ all_before t d →
  spaced (evict t window d ++ [t]) ∧ all_before t' (evict t window d ++ [t]).
Proof.
  intros Ht' [Hsp Hall].
  assert (t <= t')%Q as Hle by (unfold base_wait in Ht'; lra).
  split.
  - apply spaced_snoc; [by apply spaced_evict|by apply Forall_evict].
  - apply Forall_app_2.
    + apply (all_before_later t); [done|].
      by apply Forall_evict.
    + by repeat constructor.
Qed.

Lemma check_rate_limit_base_wait {B} (e : Env B) (l : Limiter) :
  (now e + base_wait <= now (check_rate_limit (e, l)).1)%Q.
Proof.
  unfold check_rate_limit, clean_old. simpl.
  set (t := now e). set (e1 := sleep base_wait e).
  set (e2 := wait_if_full t 30 _ _ e1).
  set (e3 := wait_if_full t 3600 _ _ e2).
  pose proof (wait_if_full_now 30 MAX_REQUESTS_PER_30_SEC t (halfmin_timestamps l) e1).
  pose proof (wait_if_full_now 3600 MAX_REQUESTS_PER_HOUR t (hourly_timestamps l) e2).
  pose proof (wait_if_full_now 86400 MAX_REQUESTS_PER_DAY t (daily_timestamps l) e3).
  assert (now e1 == t + base_wait)%Q by reflexivity.
  fold e2 in H. fold e3 in H0. lra.
Qed.

Lemma check_rate_limit_well_spaced {B} (e : Env B) (l : Limiter) :
  well_spaced (now e) l →
  well_spaced (now (check_rate_limit (e, l)).1) (check_rate_limit (e, l)).2.
Proof.
  intros (H1 & H2 & H3).
  pose proof (check_rate_limit_base_wait e l) as Hnow.
  set (t' := now (check_rate_limit (e, l)).1) in *.
  change ((check_rate_limit (e, l)).2)
    with (record_request (now e) (clean_old (now e) l)).
  unfold well_spaced, record_request, clean_old. simpl.
  split; [|split]; by apply deque_step.
Qed.

Lemma limiter_run_well_spaced {B} (gaps : list Q) (w : Env B * Limiter) :
  Forall (λ gap, 0 <= gap)%Q gaps →
  well_spaced (now w.1) w.2 →
  well_spaced (now (limiter_run gaps w).1) (limiter_run gaps w).2.
Proof.
  intros Hgaps. revert w.
  induction Hgaps as [|gap gaps Hgap _ IH]; intros [e l] Hinv; [done|].
  change (limiter_run (gap :: gaps) (e, l))
    with (limiter_run gaps (check_rate_limit (elapse gap e, l))).
  apply IH. apply check_rate_limit_well_spaced.
  destruct Hinv as ((S1 & A1) & (S2 & A2) & (S3 & A3)). simpl in *.
  repeat split; try done; by apply (all_before_later (now e)); [lra|].
Qed.

(** X1.  No two calls are let through closer together than the base delay:
    after any sequence of calls, each deque holds its timestamps in
    increasing order, consecutive ones at least 0.1 s apart, and the
    latest at least 0.1 s before the call returns. *)
Theorem check_rate_limit_spaces_the_calls {B} (e0 : Env B) (gaps : list Q) :
  Forall (λ gap, 0 <= gap)%Q gaps →
  well_spaced (now (limiter_run gaps (e0, limiter0)).1)
              (limiter_run gaps (e0, limiter0)).2.
Proof.
  intros Hgaps. apply limiter_run_well_spaced; [done|].
  unfold well_spaced, all_before. simpl. repeat split; constructor.
Qed.

Lemma check_rate_limit_spaces_the_calls_witness :
  spaced (halfmin_timestamps (limiter_run [0; 1 # 2; 3]%Q (quiet_env, limiter0)).2).
Proof.
  apply (check_rate_limit_spaces_the_calls quiet_env [0; 1 # 2; 3]%Q).
  repeat constructor; unfold Qle; simpl; lia.
Defined.

Lemma spaced_head_le (t0 : Q) (d : list Q) :
  spaced (t0 :: d) → Forall (λ ts, t0 <= ts)%Q d.
Proof.
  revert t0. induction d as [|t d IH]; intros t0 Hsp; [done|].
  inversion Hsp as [| |? ? ? Hgap Hrest]; subst.
  assert (t0 <= t)%Q as Hle by (unfold base_wait in Hgap; lra).
  constructor; [done|].
  eapply Forall_impl; [by apply IH|]. simpl. intros ts Hts. lra.
Qed.

Lemma evict_all_in_window (t window : Q) (d : list Q) :
  spaced d → Forall (λ ts, in_window t window ts = true) (evict t window d).
Proof.
  intros Hsp. destruct (evict t window d) as [|t0 rest] eqn:Hev; [done|].
  pose proof (evict_head window t t0 d rest Hev) as Hhead.
  pose proof (spaced_evict t window d Hsp) as Hsp'. rewrite Hev in Hsp'.
  constructor.
  - unfold in_window. by apply Qle_bool_iff.
  - eapply Forall_impl; [by apply spaced_head_le|]. simpl.
    intros ts Hts. unfold in_window. apply Qle_bool_iff. lra.
Qed.

Lemma count_within_all (T window : Q) (d : list Q) :
  Forall (λ ts, in_window T window ts = true) d →
  count_within T window d = length d.
Proof.
  induction 1 as [|ts d Hts Hd IH]; [done|].
  unfold count_within in *. rewrite filter_cons, decide_True by done.
  simpl. by rewrite IH.
Qed.

Lemma evict_append_length (t window : Q) (cap : nat) (d : list Q) :
  spaced d → (count_within t window d <= cap)%nat →
  (length (evict t window d ++ [t]) <= S cap)%nat.
Proof.
  intros Hsp Hcap. rewrite length_app. simpl.
  rewrite <- (count_within_all t window) by by apply evict_all_in_window.
  pose proof (count_within_evict window t d). lia.
Qed.

Lemma limiter_run_snoc {B} (gaps : list Q) (gap : Q) (w : Env B * Limiter) :
  limiter_run (gaps ++ [gap]) w
  = check_rate_limit (elapse gap (limiter_run gaps w).1, (limiter_run gaps w).2).
Proof. unfold limiter_run. by rewrite fold_left_app. Qed.

(** X2.  After any sequence of calls a deque holds at most one
    timestamp more than its cap (41, 2501, 4501): the call that finds a
    window full appends without evicting.  The bound is reached: 41 calls
    in a row leave 41 timestamps in the 30-second deque. *)
Theorem check_rate_limit_bounds_the_deques {B} (e0 : Env B) (gaps : list Q) :
  Forall (λ gap, 0 <= gap)%Q gaps →
  deques_bounded (limiter_run gaps (e0, limiter0)).2
  ∧ length (halfmin_timestamps
              (limiter_run (replicate 41 0%Q) (quiet_env, limiter0)).2) = 41%nat.
Proof.
  intros Hgaps. split.
  - destruct gaps as [|g gaps'] using rev_ind.
    { unfold deques_bounded, limiter0. simpl. lia. }
    clear IHgaps'. apply Forall_app in Hgaps as [Hgaps Hg].
    apply Forall_cons in Hg as [Hg _]. simpl in Hg.
    rewrite limiter_run_snoc.
    set (w := limiter_run gaps' (e0, limiter0)).
    assert (well_spaced (now w.1) w.2) as Hsp.
    { apply limiter_run_well_spaced; [done|].
      unfold well_spaced, all_before. simpl. repeat split; constructor. }
    assert (within_caps (now w.1 + g) w.2) as Hcaps.
    { apply (within_caps_later (now w.1)); [lra|].
      apply limiter_run_within_caps; [done|].
      unfold within_caps, limiter0, count_within. simpl.
      unfold MAX_REQUESTS_PER_30_SEC, MAX_REQUESTS_PER_HOUR, MAX_REQUESTS_PER_DAY.
      lia. }
    destruct Hsp as ((S1 & _) & (S2 & _) & (S3 & _)).
    destruct Hcaps as (C1 & C2 & C3).
    change ((check_rate_limit (elapse g w.1, w.2)).2)
      with (record_request (now w.1 + g) (clean_old (now w.1 + g) w.2)).
    unfold deques_bounded, record_request, clean_old. simpl.
    split; [|split]; by apply evict_append_length.
  - vm_compute. reflexivity.
Qed.

Lemma check_rate_limit_bounds_the_deques_witness :
  deques_bounded (limiter_run [0; 1 # 2; 3]%Q (quiet_env, limiter0)).2.
Proof.
  apply (check_rate_limit_bounds_the_deques quiet_env [0; 1 # 2; 3]%Q).
  repeat constructor; unfold Qle; simpl; lia.
Defined.

Lemma wait_if_full_waits {B} (t window : Q) (cap : nat) (d : list Q) (e : Env B) :
  ∃ waits,
    events (wait_if_full t window cap (evict t window d) e) = events e ++ waits
    ∧ Forall (sleeps_at_least 1) waits ∧ (length waits <= 1)%nat.
Proof.
  unfold wait_if_full. destruct (evict t window d) as [|t0 rest] eqn:Hev.
  { exists []. rewrite app_nil_r. split; [done|]. split; [constructor|simpl; lia]. }
  destruct (cap <=? length (t0 :: rest))%nat.
  - eexists [_]. split; [done|]. split; [|simpl; lia].
    constructor; [|constructor]. simpl. apply evict_head in Hev. lra.
  - exists []. rewrite app_nil_r. split; [done|]. split; [constructor|simpl; lia].
Qed.

(** X3.  Whatever the deques hold (also timestamps loaded from an old
    log, or lying in the future), check_rate_limit sends nothing and leaves
    the server's script alone; it sleeps base_wait and then at most three
    more times, each time at least one second, so time.sleep is never
    given a negative number; it adds one to total_requests and the time of
    entry becomes the last timestamp of each deque. *)
Theorem check_rate_limit_only_sleeps {B} (e : Env B) (l : Limiter) :
  http (check_rate_limit (e, l)).1 = http e
  ∧ (∃ waits,
       events (check_rate_limit (e, l)).1 = events e ++ EvSleep base_wait :: waits
       ∧ Forall (sleeps_at_least 1) waits ∧ (length waits <= 3)%nat)
  ∧ total_requests (check_rate_limit (e, l)).2 = total_requests l + 1
  ∧ last (halfmin_timestamps (check_rate_limit (e, l)).2) = Some (now e)
  ∧ last (hourly_timestamps (check_rate_limit (e, l)).2) = Some (now e)
  ∧ last (daily_timestamps (check_rate_limit (e, l)).2) = Some (now e).
Proof.
  split; [apply check_rate_limit_effects|].
  split; [|by unfold check_rate_limit, record_request; simpl; rewrite !last_snoc].
  unfold check_rate_limit, clean_old. simpl.
  set (t := now e). set (e1 := sleep base_wait e).
  destruct (wait_if_full_waits t 30 MAX_REQUESTS_PER_30_SEC
              (halfmin_timestamps l) e1) as (w2 & He2 & Hw2 & Hl2).
  set (e2 := wait_if_full t 30 _ _ e1) in *.
  destruct (wait_if_full_waits t 3600 MAX_REQUESTS_PER_HOUR
              (hourly_timestamps l) e2) as (w3 & He3 & Hw3 & Hl3).
  set (e3 := wait_if_full t 3600 _ _ e2) in *.
  destruct (wait_if_full_waits t 86400 MAX_REQUESTS_PER_DAY
              (daily_timestamps l) e3) as (w4 & He4 & Hw4 & Hl4).
  exists (w2 ++ w3 ++ w4). split; [|split].
  - rewrite He4, He3, He2. subst e1. unfold sleep. simpl.
    by rewrite <- !app_assoc.
  - by repeat apply Forall_app_2.
  - rewrite !length_app. lia.
Qed.

(** ** More on get_info and get_batch_info *)

Lemma check_rate_limit_counts {B} (e : Env B) (l : Limiter) :
  total_requests (check_rate_limit (e, l)).2 = total_requests l + 1.
Proof. done. Qed.

Lemma request_loop_counts {B} (url : string) (retries : nat) :
  ∀ (remaining attempt : nat) (w : World B),
    ∃ new,
      events (request_loop url retries attempt remaining w).2.1 = events w.1 ++ new
      ∧ total_requests (request_loop url retries attempt remaining w).2.2
        = total_requests w.2 + Z.of_nat (length (requests_of new)).
Proof.
  induction remaining as [|remaining IH]; intros attempt [e l].
  { exists []. simpl. rewrite app_nil_r. split; [done|lia]. }
  rewrite request_loop_step.
  destruct (check_rate_limit_effects e l) as (_ & sleeps & Hev & Hsl).
  pose proof (check_rate_limit_counts e l) as Hcount.
  destruct (check_rate_limit (e, l)) as [e1 l1]. simpl in Hev, Hcount.
  pose proof (requests_get_events url e1) as Hget.
  destruct (requests_get url e1) as [response e2]. simpl in Hget.
  assert (∃ new,
    events e2 = events e ++ new
    ∧ total_requests l1 = total_requests l + Z.of_nat (length (requests_of new)))
    as Hstop.
  { exists (sleeps ++ [EvGet url]). split.
    - rewrite Hget, Hev. by rewrite <- app_assoc.
    - rewrite requests_of_app, requests_of_sleeps by done. simpl. lia. }
  assert (∀ (e3 : Env B) (extra : list Event),
    events e3 = events e2 ++ extra → Forall is_sleep extra →
    ∃ new,
      events (request_loop url retries (S attempt) remaining (e3, l1)).2.1
        = events e ++ new
      ∧ total_requests (request_loop url retries (S attempt) remaining (e3, l1)).2.2
        = total_requests l + Z.of_nat (length (requests_of new))) as Hnext.
  { intros e3 extra He3 Hextra.
    destruct (IH (S attempt) (e3, l1)) as (new & Hnew & Htot).
    exists (sleeps ++ [EvGet url] ++ extra ++ new). split.
    - rewrite Hnew. simpl. rewrite He3, Hget, Hev. by rewrite <- !app_assoc.
    - rewrite Htot. cbn [fst snd]. rewrite Hcount.
      rewrite !requests_of_app, (requests_of_sleeps sleeps),
        (requests_of_sleeps extra) by done.
      simpl. lia. }
  destruct response as [body|status_code header|].
  - done.
  - destruct ((status_code =? 429)%Z && (attempt <? retries - 1)%nat).
    + cbv zeta. destruct (default 1 header <? 0)%Z; [done|].
      eapply (Hnext _ [_; _]); [unfold sleep; simpl; by rewrite <- app_assoc|].
      by repeat constructor.
    + eapply (Hnext _ [_]); [done|]. by repeat constructor.
  - eapply (Hnext _ [_]); [done|]. by repeat constructor.
Qed.

(** X4.  get_info and get_batch_info count what they send: whatever the
    server answers and however the call ends, total_requests grows by
    exactly the number of requests sent during the call. *)
Theorem fetchers_count_every_request {B} (retries : nat) (w : World B) :
  (∀ item_type item_id, ∃ new,
     events (get_info item_type item_id retries w).2.1 = events w.1 ++ new
     ∧ total_requests (get_info item_type item_id retries w).2.2
       = total_requests w.2 + Z.of_nat (length (requests_of new)))
  ∧ (∀ item_type item_ids, ∃ new,
       events (get_batch_info item_type item_ids retries w).2.1 = events w.1 ++ new
       ∧ total_requests (get_batch_info item_type item_ids retries w).2.2
         = total_requests w.2 + Z.of_nat (length (requests_of new))).
Proof.
  assert (∃ new : list Event,
            events w.1 = events w.1 ++ new
            ∧ total_requests w.2
              = total_requests w.2 + Z.of_nat (length (requests_of new))) as Hnone.
  { exists []. rewrite app_nil_r. simpl. split; [done|lia]. }
  split.
  - intros item_type item_id. unfold get_info.
    destruct (negb _); [done|]. apply request_loop_counts.
  - intros item_type item_ids. unfold get_batch_info.
    destruct (negb _); [done|].
    destruct item_ids as [|id item_ids]; [done|].
    destruct (dict_get max_sizes item_type) as [max_size|]; [|done].
    destruct (max_size <? _)%nat; [done|]. apply request_loop_counts.
Qed.

Lemma requests_get_head {B} (url : string) (e : Env B) (r : Response B)
    (rest : list (Response B)) :
  http e = r :: rest →
  (requests_get url e).1 = r ∧ http (requests_get url e).2 = rest.
Proof. unfold requests_get. by intros ->. Qed.

Lemma request_loop_first_success {B} (url : string) (retries : nat) (body : B)
    (rest : list (Response B)) :
  ∀ (fails : list (Response B)) (remaining attempt : nat) (w : World B),
    http w.1 = fails ++ RespOk body :: rest →
    Forall benign_failure fails →
    (length fails < remaining)%nat →
    (request_loop url retries attempt remaining w).1 = Return (Some body)
    ∧ http (request_loop url retries attempt remaining w).2.1 = rest
    ∧ ∃ new,
        events (request_loop url retries attempt remaining w).2.1
          = events w.1 ++ new
        ∧ requests_of new = replicate (S (length fails)) url.
Proof.
  induction fails as [|r fails IH]; intros remaining attempt [e l] Hhttp Hben Hlen;
    (destruct remaining as [|remaining]; [simpl in Hlen; lia|]);
    rewrite request_loop_step;
    destruct (check_rate_limit_effects e l) as (Hkeep & sleeps & Hev & Hsl);
    destruct (check_rate_limit (e, l)) as [e1 l1]; simpl in Hev, Hkeep, Hhttp;
    rewrite <- Hkeep in Hhttp;
    destruct (requests_get_head url e1 _ _ Hhttp) as [Hresp Hrest];
    pose proof (requests_get_events url e1) as Hget;
    destruct (requests_get url e1) as [response e2];
    simpl in Hresp, Hrest, Hget; subst response.
  - split; [done|]. split; [done|].
    exists (sleeps ++ [EvGet url]). split.
    + simpl. rewrite Hget, Hev. by rewrite <- app_assoc.
    + rewrite requests_of_app, requests_of_sleeps by done. done.
  - apply Forall_cons in Hben as [Hr Hben]. simpl in Hlen.
    assert (∀ (e3 : Env B) (extra : list Event),
      http e3 = http e2 → events e3 = events e2 ++ extra → Forall is_sleep extra →
      (request_loop url retries (S attempt) remaining (e3, l1)).1 = Return (Some body)
      ∧ http (request_loop url retries (S attempt) remaining (e3, l1)).2.1 = rest
      ∧ ∃ new,
          events (request_loop url retries (S attempt) remaining (e3, l1)).2.1
            = events e ++ new
          ∧ requests_of new = replicate (S (S (length fails))) url) as Hnext.
    { intros e3 extra Hh3 He3 Hextra.
      destruct (IH remaining (S attempt) (e3, l1)) as (Hres & Hhttp' & new & Hnew & Hreq);
        [simpl; by rewrite Hh3|done|lia|].
      split; [done|]. split; [done|].
      exists (sleeps ++ [EvGet url] ++ extra ++ new). split.
      - rewrite Hnew. simpl. rewrite He3, Hget, Hev. by rewrite <- !app_assoc.
      - rewrite !requests_of_app, (requests_of_sleeps sleeps),
          (requests_of_sleeps extra), Hreq by done. done. }
    destruct r as [body'|status_code header|]; [done| |].
    + destruct ((status_code =? 429)%Z && (attempt <? retries - 1)%nat).
      * cbv zeta.
        assert ((default 1 header <? 0)%Z = false) as ->.
        { apply Z.ltb_ge. destruct header; simpl in *; lia. }
        eapply (Hnext _ [_; _]); [done|unfold sleep; simpl; by rewrite <- app_assoc|].
        by repeat constructor.
      * eapply (Hnext _ [_]); [done|done|]. by repeat constructor.
    + eapply (Hnext _ [_]); [done|done|]. by repeat constructor.
Qed.

(** X5.  The first successful answer wins: if the server fails fewer
    than [retries] times (with no negative Retry-After) and then answers,
    get_info and get_batch_info return that body, having sent one request
    per failure and one more, and leave the later answers unread. *)
Theorem fetchers_return_the_first_success {B} (retries : nat) (w : World B)
    (fails rest : list (Response B)) (body : B) :
  http w.1 = fails ++ RespOk body :: rest →
  Forall benign_failure fails →
  (length fails < retries)%nat →
  (∀ item_type item_id,
     item_type ∈ ["track"; "album"; "artist"; "playlist"] →
     (get_info item_type item_id retries w).1 = Return (Some body)
     ∧ http (get_info item_type item_id retries w).2.1 = rest
     ∧ ∃ new url,
         events (get_info item_type item_id retries w).2.1 = events w.1 ++ new
         ∧ requests_of new = replicate (S (length fails)) url)
  ∧ (∀ item_type id item_ids max_size,
       dict_get max_sizes item_type = Some max_size →
       (length (id :: item_ids) <= max_size)%nat →
       (get_batch_info item_type (id :: item_ids) retries w).1 = Return (Some body)
       ∧ http (get_batch_info item_type (id :: item_ids) retries w).2.1 = rest
       ∧ ∃ new,
           events (get_batch_info item_type (id :: item_ids) retries w).2.1
             = events w.1 ++ new
           ∧ requests_of new
             = replicate (S (length fails)) (batch_url item_type (id :: item_ids))).
Proof.
  intros Hhttp Hben Hlen. split.
  - intros item_type item_id Hvalid. unfold get_info.
    assert (mem_string item_type ["track"; "album"; "artist"; "playlist"] = true)
      as ->.
    { set_unfold in Hvalid. destruct Hvalid as [->|[->|[->|[->|[]]]]]; reflexivity. }
    cbn [negb].
    destruct (request_loop_first_success
                ("https://api.spotify.com/v1/" +:+ item_type +:+ "s/" +:+ item_id)
                retries body rest fails retries 0%nat w Hhttp Hben Hlen)
      as (Hres & Hrest & new & Hnew & Hreq).
    split; [done|]. split; [done|]. eauto.
  - intros item_type id item_ids max_size Hmax Hfits. unfold get_batch_info.
    assert (mem_string item_type ["track"; "album"; "artist"] = true) as ->.
    { unfold max_sizes in Hmax. simpl in Hmax. unfold mem_string. simpl.
      destruct (String.eqb item_type "track"); [done|].
      destruct (String.eqb item_type "artist"); [by rewrite orb_true_r|].
      destruct (String.eqb item_type "album"); [done|]. done. }
    cbn [negb]. rewrite Hmax.
    apply Nat.ltb_ge in Hfits. rewrite Hfits.
    apply (request_loop_first_success _ retries body rest fails retries 0%nat w
             Hhttp Hben Hlen).
Qed.

Lemma fetchers_return_the_first_success_witness :
  (get_batch_info "track" ["t1"] 3 (flaky_env, limiter0)).1 = Return (Some "body").
Proof.
  apply (proj2 (fetchers_return_the_first_success 3 (flaky_env, limiter0)
                  [RespHttpError 500 None] [] "body" eq_refl
                  ltac:(repeat constructor) ltac:(simpl; lia))
               "track" "t1" [] 50%nat eq_refl ltac:(simpl; lia)).
Defined.

Lemma request_loop_429_then_success {B} (url : string) (retries : nat)
    (w : World B) (header : option Z) (body : B) (rest : list (Response B)) :
  http w.1 = RespHttpError 429 header :: RespOk body :: rest →
  0 <= default 1 header →
  (2 <= retries)%nat →
  (request_loop url retries 0 retries w).1 = Return (Some body)
  ∧ ∃ pacing1 pacing2,
      Forall is_sleep pacing1 ∧ Forall is_sleep pacing2
      ∧ events (request_loop url retries 0 retries w).2.1
        = events w.1 ++ pacing1
            ++ [EvGet url; EvSleep (inject_Z (default 1 header)); EvSleep (pow2 0)]
            ++ pacing2 ++ [EvGet url].
Proof.
  intros Hhttp Hwait Hretries. destruct w as [e l].
  destruct retries as [|[|k]]; [lia|lia|].
  rewrite request_loop_step.
  destruct (check_rate_limit_effects e l) as (Hkeep & pacing1 & Hev & Hsl).
  destruct (check_rate_limit (e, l)) as [e1 l1]. simpl in Hev, Hkeep, Hhttp.
  rewrite <- Hkeep in Hhttp.
  destruct (requests_get_head url e1 _ _ Hhttp) as [Hresp Hrest].
  pose proof (requests_get_events url e1) as Hget.
  destruct (requests_get url e1) as [response e2].
  simpl in Hresp, Hrest, Hget. subst response.
  change ((429 =? 429)%Z && (0 <? S (S k) - 1)%nat) with true. cbv iota zeta.
  apply Z.ltb_ge in Hwait. rewrite Hwait.
  set (e3 := sleep (pow2 0) (sleep (inject_Z (default 1 header)) e2)).
  rewrite request_loop_step.
  destruct (check_rate_limit_effects e3 l1) as (Hkeep3 & pacing2 & Hev3 & Hsl3).
  destruct (check_rate_limit (e3, l1)) as [e4 l4]. simpl in Hev3, Hkeep3.
  assert (http e4 = RespOk body :: rest) as Hhttp4 by by rewrite Hkeep3.
  destruct (requests_get_head url e4 _ _ Hhttp4) as [Hresp4 _].
  pose proof (requests_get_events url e4) as Hget4.
  destruct (requests_get url e4) as [response e5].
  simpl in Hresp4, Hget4. subst response.
  split; [done|]. exists pacing1, pacing2. split; [done|]. split; [done|].
  simpl. rewrite Hget4, Hev3. subst e3. unfold sleep. simpl.
  rewrite Hget, Hev. by rewrite <- !app_assoc.
Qed.

Lemma request_loop_429_at_last_attempt {B} (url : string) (w : World B)
    (header : option Z) (rest : list (Response B)) :
  http w.1 = RespHttpError 429 header :: rest →
  (request_loop url 1 0 1 w).1 = Return None
  ∧ ∃ pacing,
      Forall is_sleep pacing
      ∧ events (request_loop url 1 0 1 w).2.1
        = events w.1 ++ pacing ++ [EvGet url; EvSleep (pow2 0)].
Proof.
  intros Hhttp. destruct w as [e l]. rewrite request_loop_step.
  destruct (check_rate_limit_effects e l) as (Hkeep & pacing & Hev & Hsl).
  destruct (check_rate_limit (e, l)) as [e1 l1]. simpl in Hev, Hkeep, Hhttp.
  rewrite <- Hkeep in Hhttp.
  destruct (requests_get_head url e1 _ _ Hhttp) as [Hresp Hrest].
  pose proof (requests_get_events url e1) as Hget.
  destruct (requests_get url e1) as [response e2].
  simpl in Hresp, Hrest, Hget. subst response.
  change ((429 =? 429)%Z && (0 <? 1 - 1)%nat) with false. cbv iota.
  split; [done|]. exists pacing. split; [done|].
  simpl. unfold sleep. simpl. rewrite Hget, Hev. by rewrite <- !app_assoc.
Qed.

(** X6.  A 429 is waited out: when the first answer to get_batch_info is
    429 and the second a body, with at least two attempts allowed, the
    call sleeps Retry-After seconds (1 if the header is absent) and then
    [2 ** 0] second, paces itself through the limiter and sends exactly one
    more request, whose body it returns.  A 429 met at the last attempt is
    not waited out: with one attempt allowed the call sleeps only
    [2 ** 0] second and returns None. *)
Theorem get_batch_info_waits_out_a_429 {B} (item_type id : string)
    (item_ids : list string) (max_size : nat) (w : World B)
    (header : option Z) (rest : list (Response B)) :
  dict_get max_sizes item_type = Some max_size →
  (length (id :: item_ids) <= max_size)%nat →
  0 <= default 1 header →
  let url := batch_url item_type (id :: item_ids) in
  (∀ retries body,
     (2 <= retries)%nat →
     http w.1 = RespHttpError 429 header :: RespOk body :: rest →
     (get_batch_info item_type (id :: item_ids) retries w).1 = Return (Some body)
     ∧ ∃ pacing1 pacing2,
         Forall is_sleep pacing1 ∧ Forall is_sleep pacing2
         ∧ events (get_batch_info item_type (id :: item_ids) retries w).2.1
           = events w.1 ++ pacing1
               ++ [EvGet url; EvSleep (inject_Z (default 1 header));
                   EvSleep (pow2 0)]
               ++ pacing2 ++ [EvGet url])
  ∧ (http w.1 = RespHttpError 429 header :: rest →
     (get_batch_info item_type (id :: item_ids) 1 w).1 = Return None
     ∧ ∃ pacing,
         Forall is_sleep pacing
         ∧ events (get_batch_info item_type (id :: item_ids) 1 w).2.1
           = events w.1 ++ pacing ++ [EvGet url; EvSleep (pow2 0)]).
Proof.
  intros Hmax Hfits Hwait url.
  assert (∀ retries,
    get_batch_info item_type (id :: item_ids) retries w
    = request_loop url retries 0 retries w) as Hloop.
  { intros retries. unfold get_batch_info.
    assert (mem_string item_type ["track"; "album"; "artist"] = true) as ->.
    { unfold max_sizes in Hmax. simpl in Hmax. unfold mem_string. simpl.
      destruct (String.eqb item_type "track"); [done|].
      destruct (String.eqb item_type "artist"); [by rewrite orb_true_r|].
      destruct (String.eqb item_type "album"); [done|]. done. }
    cbn [negb]. rewrite Hmax.
    apply Nat.ltb_ge in Hfits. by rewrite Hfits. }
  split.
  - intros retries body Hretries Hhttp. rewrite Hloop.
    by apply (request_loop_429_then_success url retries w header body rest).
  - intros Hhttp. rewrite Hloop.
    by apply (request_loop_429_at_last_attempt url w header rest).
Qed.

Lemma get_batch_info_waits_out_a_429_witness :
  (get_batch_info "album" ["x"] 3
     ({| now := 0; http := [RespHttpError 429 (Some 2); RespOk "body"];
         events := [] |}, limiter0)).1 = Return (Some "body").
Proof.
  apply (proj1 (get_batch_info_waits_out_a_429 "album" "x" [] 20%nat
                  ({| now := 0; http := [RespHttpError 429 (Some 2); RespOk "body"];
                      events := [] |}, limiter0) (Some 2) []
                  eq_refl ltac:(simpl; lia) ltac:(simpl; lia)) 3%nat "body");
    [lia|reflexivity].
Defined.

(** X7.  get_info raises ValueError, before any request and leaving the
    world as it was, for every item kind other than track, album, artist
    and playlist; the kind playlist, which get_info accepts, is one that
    get_batch_info rejects. *)
Theorem get_info_rejects_unknown_kinds {B} (item_type item_id : string)
    (retries : nat) (w : World B) :
  (item_type ∉ ["track"; "album"; "artist"; "playlist"] →
     ∃ msg, get_info item_type item_id retries w = (Raise (ValueError msg), w))
  ∧ get_info "playlist" item_id retries w
    = request_loop ("https://api.spotify.com/v1/playlists/" +:+ item_id)
        retries 0 retries w
  ∧ ∃ msg, get_batch_info "playlist" [item_id] retries w
           = (Raise (ValueError msg), w).
Proof.
  split; [|split].
  - intros Hinvalid. unfold get_info.
    destruct (mem_string item_type ["track"; "album"; "artist"; "playlist"])
      eqn:Hmem.
    + exfalso. apply Hinvalid. unfold mem_string in Hmem. simpl in Hmem.
      repeat (apply orb_prop in Hmem as [Hmem|Hmem];
              [apply String.eqb_eq in Hmem; subst; set_solver|]).
      done.
    + simpl. eauto.
  - done.
  - unfold get_batch_info. simpl. eauto.
Qed.

Lemma get_info_rejects_unknown_kinds_witness :
  ∃ msg, get_info "show" "s1" 3 (down_env, limiter0)
         = (Raise (ValueError msg), (down_env, limiter0)).
Proof.
  apply (proj1 (get_info_rejects_unknown_kinds "show" "s1" 3 (down_env, limiter0))).
  set_unfold. intros [?|[?|[?|[?|[]]]]]; discriminate.
Defined.

(** ** The paginated album listing *)

Lemma get_artist_albums_never_gives_up_witness :
  get_artist_albums 25 "a1" 3 down_world = None.
Proof.
  apply (get_artist_albums_never_gives_up "a1" 3 25 down_world). reflexivity.
Defined.

Lemma album_page_attempts_success (url : string) (retries : nat)
    (e : Env Payload) (total : Z) (page : list string)
    (rest : list (Response Payload)) :
  http e = RespOk (PAlbumPage total page) :: rest →
  ∃ e', album_page_attempts url (S retries) 0 (S retries) e
        = (Return (PageFetched total page), e')
        ∧ http e' = rest ∧ events e' = events e ++ [EvGet url].
Proof.
  intros Hhttp. cbn [album_page_attempts].
  destruct (requests_get_head url e _ _ Hhttp) as [Hresp Hrest].
  pose proof (requests_get_events url e) as Hget.
  destruct (requests_get url e) as [response e'].
  simpl in Hresp, Hrest, Hget. subst response. by exists e'.
Qed.

Lemma get_artist_albums_loop_pages (artist_id : string) (retries : nat)
    (reported : Z) (rest : list (Response Payload)) :
  ∀ (pages : list (list string)) (fuel : nat) (offset total : Z)
    (items : list string) (w : World Payload),
    (length pages < fuel)%nat →
    http w.1 = album_pages reported pages ++ rest →
    pages_suffice offset total reported pages →
    ∃ w' new,
      get_artist_albums_loop fuel artist_id (S retries) offset total items w
      = Some (Return (items ++ concat pages), w')
      ∧ http w'.1 = rest
      ∧ events w'.1 = events w.1 ++ new
      ∧ requests_of new = page_urls artist_id offset (length pages)
      ∧ total_requests w'.2 = total_requests w.2 + Z.of_nat (length pages).
Proof.
  induction pages as [|page pages IH];
    intros fuel offset total items [e l] Hfuel Hhttp Hfit;
    (destruct fuel as [|fuel]; [simpl in Hfuel; lia|]);
    cbn [get_artist_albums_loop].
  - simpl in Hfit. apply Z.ltb_ge in Hfit. rewrite Hfit.
    exists (e, l), []. simpl. rewrite !app_nil_r. repeat split; try done. lia.
  - destruct Hfit as [Hmore Hfit]. apply Z.ltb_lt in Hmore. rewrite Hmore.
    destruct (check_rate_limit_effects e l) as (Hkeep & pacing & Hev & Hsl).
    pose proof (check_rate_limit_counts e l) as Hcount.
    destruct (check_rate_limit (e, l)) as [e1 l1].
    simpl in Hev, Hkeep, Hhttp, Hcount. rewrite <- Hkeep in Hhttp.
    destruct (album_page_attempts_success (albums_url artist_id offset) retries
                e1 reported page (album_pages reported pages ++ rest) Hhttp)
      as (e2 & -> & Hhttp2 & Hev2).
    destruct (IH fuel (offset + 50) reported (items ++ page) (e2, l1))
      as (w' & new & -> & Hrest & Hnew & Hreq & Htot);
      [simpl in Hfuel; lia|done|done|].
    exists w', (pacing ++ [EvGet (albums_url artist_id offset)] ++ new).
    split; [by rewrite <- app_assoc|]. split; [done|]. split; [|split].
    + rewrite Hnew. simpl. rewrite Hev2, Hev. by rewrite <- !app_assoc.
    + rewrite !requests_of_app, requests_of_sleeps, Hreq by done. done.
    + rewrite Htot. simpl total_requests. rewrite Hcount.
      simpl length. lia.
Qed.

(** X9.  get_artist_albums follows the server's pages: when the server
    answers page after page, and the total it reports is reached with the
    last of them, the result is the pages' items in order; one request is
    sent per page, at offsets 0, 50, 100, ..., and each is counted by the
    limiter.  A first page is always asked for. *)
Theorem get_artist_albums_collects_the_pages (artist_id : string)
    (retries fuel : nat) (reported : Z) (page : list string)
    (pages : list (list string)) (rest : list (Response Payload))
    (w : World Payload) :
  (S (length pages) < fuel)%nat →
  http w.1 = album_pages reported (page :: pages) ++ rest →
  pages_suffice 50 reported reported pages →
  ∃ w' new,
    get_artist_albums fuel artist_id (S retries) w
    = Some (Return (concat (page :: pages)), w')
    ∧ http w'.1 = rest
    ∧ events w'.1 = events w.1 ++ new
    ∧ requests_of new = page_urls artist_id 0 (S (length pages))
    ∧ total_requests w'.2 = total_requests w.2 + Z.of_nat (S (length pages)).
Proof.
  intros Hfuel Hhttp Hfit. unfold get_artist_albums.
  apply (get_artist_albums_loop_pages artist_id retries reported rest
           (page :: pages) fuel 0 51 [] w); [done|done|].
  split; [lia|done].
Qed.

Lemma get_artist_albums_collects_the_pages_witness :
  ∃ w', get_artist_albums 5 "a1" 3
          ({| now := 0;
              http := album_pages 60 [["al1"; "al2"]; ["al3"]];
              events := [] |}, limiter0)
        = Some (Return ["al1"; "al2"; "al3"], w').
Proof.
  destruct (get_artist_albums_collects_the_pages "a1" 2 5 60 ["al1"; "al2"]
              [["al3"]] []
              ({| now := 0; http := album_pages 60 [["al1"; "al2"]; ["al3"]];
                  events := [] |}, limiter0))
    as (w' & new & Hrun & _).
  - simpl. lia.
  - reflexivity.
  - simpl. lia.
  - exists w'. exact Hrun.
Defined.

Lemma album_page_attempts_http_error (url : string) (retries : nat)
    (e : Env Payload) (status_code : Z) (header : option Z)
    (rest : list (Response Payload)) :
  status_code ≠ 429 →
  http e = RespHttpError status_code header :: rest →
  ∃ e', album_page_attempts url (S retries) 0 (S retries) e
        = (Return PageAbandoned, e')
        ∧ http e' = rest ∧ events e' = events e ++ [EvGet url].
Proof.
  intros Hstatus Hhttp. cbn [album_page_attempts].
  destruct (requests_get_head url e _ _ Hhttp) as [Hresp Hrest].
  pose proof (requests_get_events url e) as Hget.
  destruct (requests_get url e) as [response e'].
  simpl in Hresp, Hrest, Hget. subst response.
  apply Z.eqb_neq in Hstatus. rewrite Hstatus. by exists e'.
Qed.

Lemma get_artist_albums_loop_abandons (artist_id : string) (retries : nat)
    (reported status_code : Z) (header : option Z)
    (rest : list (Response Payload)) :
  status_code ≠ 429 →
  ∀ (pages : list (list string)) (fuel : nat) (offset total : Z)
    (items : list string) (w : World Payload),
    (length pages < fuel)%nat →
    http w.1 = album_pages reported pages
                 ++ RespHttpError status_code header :: rest →
    pages_fall_short offset total reported pages →
    ∃ w' new,
      get_artist_albums_loop fuel artist_id (S retries) offset total items w
      = Some (Return (items ++ concat pages), w')
      ∧ http w'.1 = rest
      ∧ events w'.1 = events w.1 ++ new
      ∧ requests_of new = page_urls artist_id offset (S (length pages)).
Proof.
  intros Hstatus.
  induction pages as [|page pages IH];
    intros fuel offset total items [e l] Hfuel Hhttp Hshort;
    (destruct fuel as [|fuel]; [simpl in Hfuel; lia|]);
    cbn [get_artist_albums_loop];
    [|destruct Hshort as [Hshort Hlater]];
    simpl in Hshort; apply Z.ltb_lt in Hshort; rewrite Hshort;
    destruct (check_rate_limit_effects e l) as (Hkeep & pacing & Hev & Hsl);
    destruct (check_rate_limit (e, l)) as [e1 l1];
    simpl in Hev, Hkeep, Hhttp; rewrite <- Hkeep in Hhttp.
  - destruct (album_page_attempts_http_error (albums_url artist_id offset) retries
                e1 status_code header rest Hstatus Hhttp)
      as (e2 & -> & Hhttp2 & Hev2).
    exists (e2, l1), (pacing ++ [EvGet (albums_url artist_id offset)]).
    simpl. rewrite app_nil_r. split; [done|]. split; [done|]. split.
    + rewrite Hev2, Hev. by rewrite <- app_assoc.
    + rewrite requests_of_app, requests_of_sleeps by done. done.
  - destruct (album_page_attempts_success (albums_url artist_id offset) retries
                e1 reported page
                (album_pages reported pages
                   ++ RespHttpError status_code header :: rest) Hhttp)
      as (e2 & -> & Hhttp2 & Hev2).
    destruct (IH fuel (offset + 50) reported (items ++ page) (e2, l1))
      as (w' & new & -> & Hrest & Hnew & Hreq);
      [simpl in Hfuel; lia|done|done|].
    exists w', (pacing ++ [EvGet (albums_url artist_id offset)] ++ new).
    split; [by rewrite <- app_assoc|]. split; [done|]. split.
    + rewrite Hnew. simpl. rewrite Hev2, Hev. by rewrite <- !app_assoc.
    + rewrite !requests_of_app, requests_of_sleeps, Hreq by done. done.
Qed.

(** X10.  An HTTP error status other than 429 ends the listing at once:
    get_artist_albums returns the items of the pages fetched so far (none,
    if the error meets the first page) as if they were all, and sends no
    further request, although the total reported says more are due. *)
Theorem get_artist_albums_stops_at_an_http_error (artist_id : string)
    (retries fuel : nat) (reported status_code : Z) (header : option Z)
    (pages : list (list string)) (rest : list (Response Payload))
    (w : World Payload) :
  status_code ≠ 429 →
  (length pages < fuel)%nat →
  http w.1 = album_pages reported pages
               ++ RespHttpError status_code header :: rest →
  pages_fall_short 0 51 reported pages →
  ∃ w' new,
    get_artist_albums fuel artist_id (S retries) w
    = Some (Return (concat pages), w')
    ∧ http w'.1 = rest
    ∧ events w'.1 = events w.1 ++ new
    ∧ requests_of new = page_urls artist_id 0 (S (length pages)).
Proof.
  intros Hstatus Hfuel Hhttp Hshort. unfold get_artist_albums.
  by apply (get_artist_albums_loop_abandons artist_id retries reported
              status_code header rest Hstatus pages fuel 0 51 [] w).
Qed.

Lemma get_artist_albums_stops_at_an_http_error_witness :
  ∃ w', get_artist_albums 5 "a1" 3
          ({| now := 0;
              http := [RespOk (PAlbumPage 120 ["al1"]); RespHttpError 500 None];
              events := [] |}, limiter0)
        = Some (Return ["al1"], w').
Proof.
  destruct (get_artist_albums_stops_at_an_http_error "a1" 2 5 120 500 None
              [["al1"]] []
              ({| now := 0;
                  http := [RespOk (PAlbumPage 120 ["al1"]); RespHttpError 500 None];
                  events := [] |}, limiter0))
    as (w' & new & Hrun & _).
  - lia.
  - simpl. lia.
  - reflexivity.
  - simpl. lia.
  - exists w'. exact Hrun.
Defined.

(** X11.  The limiter is asked once per page, not once per request: when
    the first attempt at a page meets a transport error and the second
    succeeds, get_artist_albums has sent two requests, one second apart,
    and total_requests has grown by one. *)
Theorem get_artist_albums_retries_uncounted (artist_id : string)
    (retries fuel : nat) (reported : Z) (page : list string)
    (rest : list (Response Payload)) (w : World Payload) :
  (2 <= fuel)%nat →
  reported <= 50 →
  http w.1 = RespTransportError :: RespOk (PAlbumPage reported page) :: rest →
  ∃ w' pacing,
    get_artist_albums fuel artist_id (S (S retries)) w = Some (Return page, w')
    ∧ Forall is_sleep pacing
    ∧ events w'.1
      = events w.1 ++ pacing
          ++ [EvGet (albums_url artist_id 0); EvSleep (pow2 0);
              EvGet (albums_url artist_id 0)]
    ∧ total_requests w'.2 = total_requests w.2 + 1.
Proof.
  intros Hfuel Hreported Hhttp. destruct w as [e l].
  destruct fuel as [|[|fuel]]; [lia|lia|].
  unfold get_artist_albums. cbn [get_artist_albums_loop].
  change (0 <? 51)%Z with true. cbv iota.
  destruct (check_rate_limit_effects e l) as (Hkeep & pacing & Hev & Hsl).
  pose proof (check_rate_limit_counts e l) as Hcount.
  destruct (check_rate_limit (e, l)) as [e1 l1].
  simpl in Hev, Hkeep, Hhttp, Hcount. rewrite <- Hkeep in Hhttp.
  cbn [album_page_attempts].
  destruct (requests_get_head (albums_url artist_id 0) e1 _ _ Hhttp)
    as [Hresp Hrest].
  pose proof (requests_get_events (albums_url artist_id 0) e1) as Hget.
  destruct (requests_get (albums_url artist_id 0) e1) as [response e2].
  simpl in Hresp, Hrest, Hget. subst response.
  set (e3 := sleep (pow2 0) e2).
  assert (http e3 = RespOk (PAlbumPage reported page) :: rest) as Hhttp3 by done.
  destruct (requests_get_head (albums_url artist_id 0) e3 _ _ Hhttp3)
    as [Hresp3 Hrest3].
  pose proof (requests_get_events (albums_url artist_id 0) e3) as Hget3.
  destruct (requests_get (albums_url artist_id 0) e3) as [response e4].
  simpl in Hresp3, Hrest3, Hget3. subst response.
  assert ((0 + 50 <? reported)%Z = false) as -> by (apply Z.ltb_ge; lia).
  exists (e4, l1), pacing. split; [done|]. split; [done|]. split; [|done].
  simpl. rewrite Hget3. subst e3. unfold sleep. simpl.
  rewrite Hget, Hev. by rewrite <- !app_assoc.
Qed.

Lemma get_artist_albums_retries_uncounted_witness :
  ∃ w', get_artist_albums 2 "a1" 3
          ({| now := 0;
              http := [RespTransportError; RespOk (PAlbumPage 1 ["al1"])];
              events := [] |}, limiter0)
        = Some (Return ["al1"], w').
Proof.
  destruct (get_artist_albums_retries_uncounted "a1" 1 2 1 ["al1"] []
              ({| now := 0;
                  http := [RespTransportError; RespOk (PAlbumPage 1 ["al1"])];
                  events := [] |}, limiter0))
    as (w' & pacing & Hrun & _).
  - lia.
  - lia.
  - reflexivity.
  - exists w'. exact Hrun.
Defined.

(** ** More on the persisters *)

Lemma insert_or_ignore_subseteq {V} (id : string) (row : V) (t : gmap string V) :
  t ⊆ insert_or_ignore id row t.
Proof.
  unfold insert_or_ignore. destruct (t !! id) eqn:Hid; [done|].
  by apply insert_subseteq.
Qed.

Lemma tracks_frame_refl (s : Store) : tracks_frame s s.
Proof. by repeat split. Qed.

Lemma tracks_frame_trans (s1 s2 s3 : Store) :
  tracks_frame s1 s2 → tracks_frame s2 s3 → tracks_frame s1 s3.
Proof.
  intros (A1 & B1 & C1 & (D1 & E1 & F1 & G1 & U1 & V1) & H1 & I1)
         (A2 & B2 & C2 & (D2 & E2 & F2 & G2 & U2 & V2) & H2 & I2).
  repeat split; try congruence; by etrans.
Qed.

Lemma tracks_frame_TrackArtist t a s :
  tracks_frame s (insert_or_ignore_TrackArtist t a s).
Proof. repeat split; try done. simpl. apply union_subseteq_r. Qed.

Lemma tracks_frame_Artist a s : tracks_frame s (insert_or_ignore_Artist a s).
Proof. repeat split; try done. simpl. apply insert_or_ignore_subseteq. Qed.

Lemma tracks_frame_Album a s : tracks_frame s (insert_or_ignore_Album a s).
Proof. repeat split; try done. simpl. apply insert_or_ignore_subseteq. Qed.

Lemma tracks_frame_Track id row s : tracks_frame s (insert_or_replace_Track id row s).
Proof. by repeat split. Qed.

Lemma edge_and_artist_frame (track_id artist_id : string) (s s' : Store) :
  tracks_frame s s' →
  (track_id, artist_id) ∈ TrackArtist s ∧ is_Some (Artist s !! artist_id) →
  (track_id, artist_id) ∈ TrackArtist s' ∧ is_Some (Artist s' !! artist_id).
Proof.
  intros (_ & HA & HT & _) [Hin [row Hrow]]. split; [by apply HT|].
  exists row. by eapply lookup_weaken.
Qed.

(** What persisting one track does to the store. *)
Lemma dump_track_effect (track : TrackRec) (c : Cursor) :
  wp (dump_track track)
     (λ r c', r = Return tt
              ∧ Track (db c') = <[t_id track := track_row track]> (Track (db c))
              ∧ tracks_frame (db c) (db c')
              ∧ is_Some (Album (db c') !! t_album track)
              ∧ Forall (λ artist_id,
                   (t_id track, artist_id) ∈ TrackArtist (db c')
                   ∧ is_Some (Artist (db c') !! artist_id)) (t_artists track)) c.
Proof.
  unfold dump_track. fold (track_row track).
  apply wp_bind, wp_execute, wp_bind.
  apply (wp_for_each _
    (λ done c', Track (db c') = <[t_id track := track_row track]> (Track (db c))
                ∧ tracks_frame (db c) (db c')
                ∧ Forall (λ artist_id,
                     (t_id track, artist_id) ∈ TrackArtist (db c')
                     ∧ is_Some (Artist (db c') !! artist_id)) done)).
  - split; [done|]. split; [apply tracks_frame_Track|done].
  - intros done artist_id rest c' _ (Ht & Hf & Hdone).
    set (s2 := insert_or_ignore_Artist artist_id
                 (insert_or_ignore_TrackArtist (t_id track) artist_id (db c'))).
    assert (tracks_frame (db c') s2) as Hstep.
    { eapply tracks_frame_trans; [apply tracks_frame_TrackArtist|].
      apply tracks_frame_Artist. }
    change (Track s2 = <[t_id track := track_row track]> (Track (db c))
            ∧ tracks_frame (db c) s2
            ∧ Forall (λ a, (t_id track, a) ∈ TrackArtist s2
                           ∧ is_Some (Artist s2 !! a)) (done ++ [artist_id])).
    split; [done|]. split; [by eapply tracks_frame_trans|].
    apply Forall_snoc.
    + eapply Forall_impl; [exact Hdone|].
      intros a. by apply edge_and_artist_frame.
    + split; [simpl; set_solver|apply insert_or_ignore_self].
  - intros c' (Ht & Hf & Hall). apply wp_execute. split; [done|].
    set (s3 := insert_or_ignore_Album (t_album track) (db c')).
    assert (tracks_frame (db c') s3) as Hstep by apply tracks_frame_Album.
    change (Track s3 = <[t_id track := track_row track]> (Track (db c))
            ∧ tracks_frame (db c) s3
            ∧ is_Some (Album s3 !! t_album track)
            ∧ Forall (λ a, (t_id track, a) ∈ TrackArtist s3
                           ∧ is_Some (Artist s3 !! a)) (t_artists track)).
    split; [done|]. split; [by eapply tracks_frame_trans|].
    split; [apply insert_or_ignore_self|].
    eapply Forall_impl; [exact Hall|].
    intros a. by apply edge_and_artist_frame.
Qed.

Lemma overwritten_snoc {R V} (key : R → string) (row : R → V) (batch : list R)
    (r : R) (t : gmap string V) :
  overwritten key row (batch ++ [r]) t
  = <[key r := row r]> (overwritten key row batch t).
Proof. unfold overwritten. by rewrite foldl_app. Qed.

Lemma overwritten_lookup {R V} (key : R → string) (row : R → V)
    (P : V → Prop) (batch : list R) (t : gmap string V) (r : R) :
  (∀ r', P (row r')) → r ∈ batch →
  ∃ v, overwritten key row batch t !! key r = Some v ∧ P v.
Proof.
  intros HP. induction batch as [|r' batch IH] using rev_ind; [by intros ?%elem_of_nil|].
  rewrite overwritten_snoc. intros Hin.
  destruct (decide (key r' = key r)) as [Heq|Hne].
  - rewrite Heq, lookup_insert_eq. eauto.
  - rewrite lookup_insert_ne by done. apply IH.
    apply elem_of_app in Hin as [Hin|Hin]; [done|].
    apply list_elem_of_singleton in Hin. by subst.
Qed.

Lemma overwritten_other {R V} (key : R → string) (row : R → V)
    (batch : list R) (t : gmap string V) (id : string) :
  id ∉ map key batch → overwritten key row batch t !! id = t !! id.
Proof.
  induction batch as [|r' batch IH] using rev_ind; [done|].
  rewrite overwritten_snoc, map_app. intros Hnot.
  apply not_elem_of_app in Hnot as [Hnot1 Hnot2].
  rewrite lookup_insert_ne; [by apply IH|].
  intros Heq. apply Hnot2. simpl. rewrite Heq. by left.
Qed.

(** What the statements of dump_tracks do to the store, for track
    objects as the records have them. *)
Lemma dump_tracks_writes (tracks : list TrackRec) (c : Cursor) :
  (dump_tracks tracks c).1 = Return tt
  ∧ Track (db (dump_tracks tracks c).2)
    = overwritten t_id track_row tracks (Track (db c))
  ∧ tracks_frame (db c) (db (dump_tracks tracks c).2)
  ∧ Forall (track_linked (db (dump_tracks tracks c).2)) tracks
  ∧ (∀ id, id ∉ map t_id tracks →
       Track (db (dump_tracks tracks c).2) !! id = Track (db c) !! id).
Proof.
  assert (wp (dump_tracks tracks)
    (λ r c', r = Return tt
             ∧ Track (db c') = overwritten t_id track_row tracks (Track (db c))
             ∧ tracks_frame (db c) (db c')
             ∧ Forall (λ track,
                  is_Some (Album (db c') !! t_album track)
                  ∧ Forall (λ artist_id,
                       (t_id track, artist_id) ∈ TrackArtist (db c')
                       ∧ is_Some (Artist (db c') !! artist_id)) (t_artists track))
                 tracks) c) as Hwp.
  { unfold dump_tracks.
    apply (wp_for_each _
      (λ done c', Track (db c') = overwritten t_id track_row done (Track (db c))
                  ∧ tracks_frame (db c) (db c')
                  ∧ Forall (λ track,
                       is_Some (Album (db c') !! t_album track)
                       ∧ Forall (λ artist_id,
                            (t_id track, artist_id) ∈ TrackArtist (db c')
                            ∧ is_Some (Artist (db c') !! artist_id))
                           (t_artists track)) done)).
    - split; [done|]. split; [apply tracks_frame_refl|done].
    - intros done track rest c' _ (Ht & Hf & Hdone).
      eapply wp_mono; [apply dump_track_effect|].
      intros r c'' (-> & Ht' & Hf' & Hal & Hart).
      split; [by rewrite overwritten_snoc, Ht', Ht|].
      split; [by eapply tracks_frame_trans|].
      apply Forall_snoc; [|done].
      eapply Forall_impl; [exact Hdone|].
      intros tr [[row Hrow] Hedges]. split.
      + exists row. destruct Hf' as (HA & _). by eapply lookup_weaken.
      + eapply Forall_impl; [exact Hedges|].
        intros a. by apply edge_and_artist_frame.
    - done. }
  destruct Hwp as (Hret & Ht & Hf & Hall).
  split; [done|]. split; [done|]. split; [done|]. split.
  - rewrite Forall_forall in Hall. apply Forall_forall. intros track Hin.
    destruct (Hall track Hin) as [Hal Hart]. split; [|done].
    rewrite Ht.
    apply (overwritten_lookup t_id track_row (λ row, is_Some (track_name row)));
      [by eexists|done].
  - intros id Hnot. rewrite Ht. by apply overwritten_other.
Qed.

(** X12.  When dump_tracks returns normally on a batch of track objects
    of the documented structure, it has left the Track table overwritten
    with the rows of the batch, in order, so rows of other ids are
    untouched and every track of the batch has a row with a name; every
    track of the batch has its album and its artists in place, as
    placeholders if they were unknown, and a TrackArtist row for each
    artist.  Rows of Album and Artist that existed are unchanged,
    TrackArtist only grows, and Genre, Area, AlbumArtist and ArtistGenre
    are not touched.  (Whether it returns is not said: in the source a
    null entry, a missing key or an integer that SQLite cannot hold makes
    it raise, and the records leave such entries out.) *)
Theorem dump_tracks_effect (tracks : list TrackRec) (c : Cursor) :
  (dump_tracks tracks c).1 = Return tt →
  Track (db (dump_tracks tracks c).2)
  = overwritten t_id track_row tracks (Track (db c))
  ∧ tracks_frame (db c) (db (dump_tracks tracks c).2)
  ∧ Forall (track_linked (db (dump_tracks tracks c).2)) tracks
  ∧ (∀ id, id ∉ map t_id tracks →
       Track (db (dump_tracks tracks c).2) !! id = Track (db c) !! id).
Proof. intros _. apply dump_tracks_writes. Qed.

Lemma dump_tracks_effect_witness :
  Forall (track_linked (db (dump_tracks [sample_track]
                              (open_cursor empty_store)).2)) [sample_track].
Proof.
  apply (dump_tracks_effect [sample_track] (open_cursor empty_store)).
  reflexivity.
Defined.

Lemma for_each_app {A} (body : A → Sql unit) (l1 l2 : list A) (c : Cursor) :
  for_each (l1 ++ l2) body c
  = match for_each l1 body c with
    | (Return _, c') => for_each l2 body c'
    | (Raise e, c') => (Raise e, c')
    end.
Proof.
  revert c. induction l1 as [|x l1 IH]; intros c; [done|].
  cbn [for_each app]. unfold mbind, Sql_bind.
  destruct (body x c) as [[[]|e] c']; [apply IH|done].
Qed.

Lemma albums_frame_refl (s : Store) : albums_frame s s.
Proof. by repeat split. Qed.

Lemma albums_frame_trans (s1 s2 s3 : Store) :
  albums_frame s1 s2 → albums_frame s2 s3 → albums_frame s1 s3.
Proof.
  intros (A1 & B1 & C1 & (D1 & E1 & F1 & G1 & U1 & V1) & H1 & I1)
         (A2 & B2 & C2 & (D2 & E2 & F2 & G2 & U2 & V2) & H2 & I2).
  repeat split; try congruence; by etrans.
Qed.

Lemma albums_frame_AlbumArtist al a s :
  albums_frame s (insert_or_ignore_AlbumArtist al a s).
Proof. repeat split; try done. simpl. apply union_subseteq_r. Qed.

Lemma albums_frame_Artist a s : albums_frame s (insert_or_ignore_Artist a s).
Proof. repeat split; try done. simpl. apply insert_or_ignore_subseteq. Qed.

Lemma albums_frame_Track t s : albums_frame s (insert_or_ignore_Track t s).
Proof. repeat split; try done. simpl. apply insert_or_ignore_subseteq. Qed.

Lemma albums_frame_Album id row s : albums_frame s (insert_or_replace_Album id row s).
Proof. by repeat split. Qed.

Lemma album_linked_frame (album : AlbumRec) (s s' : Store) :
  albums_frame s s' → album_linked s album → album_linked s' album.
Proof.
  intros (HT & HA & HE & _) [Hart Htr]. split.
  - eapply Forall_impl; [exact Hart|]. intros a [Hin [row Hrow]].
    split; [by apply HE|]. exists row. by eapply lookup_weaken.
  - eapply Forall_impl; [exact Htr|]. intros t [row Hrow].
    exists row. by eapply lookup_weaken.
Qed.

(** What persisting one album with an accepted date does to the store. *)
Lemma dump_album_effect (album : AlbumRec) (c : Cursor) :
  date_accepted album →
  wp (dump_album album)
     (λ r c', r = Return tt
              ∧ Album (db c') = <[al_id album := stored_album_row album]> (Album (db c))
              ∧ albums_frame (db c) (db c')
              ∧ album_linked (db c') album) c.
Proof.
  intros Hdate. unfold dump_album. rewrite Hdate.
  fold (album_row album (stored_release_date album)).
  fold (stored_album_row album).
  apply wp_bind, wp_execute, wp_bind.
  apply (wp_for_each _
    (λ done c', Album (db c') = <[al_id album := stored_album_row album]> (Album (db c))
                ∧ albums_frame (db c) (db c')
                ∧ Forall (λ artist_id,
                     (al_id album, artist_id) ∈ AlbumArtist (db c')
                     ∧ is_Some (Artist (db c') !! artist_id)) done)).
  - split; [done|]. split; [apply albums_frame_Album|done].
  - intros done artist_id rest c' _ (Hal & Hf & Hdone).
    set (s2 := insert_or_ignore_Artist artist_id
                 (insert_or_ignore_AlbumArtist (al_id album) artist_id (db c'))).
    assert (albums_frame (db c') s2) as Hstep.
    { eapply albums_frame_trans; [apply albums_frame_AlbumArtist|].
      apply albums_frame_Artist. }
    change (Album s2 = <[al_id album := stored_album_row album]> (Album (db c))
            ∧ albums_frame (db c) s2
            ∧ Forall (λ a, (al_id album, a) ∈ AlbumArtist s2
                           ∧ is_Some (Artist s2 !! a)) (done ++ [artist_id])).
    split; [done|]. split; [by eapply albums_frame_trans|].
    apply Forall_snoc.
    + eapply Forall_impl; [exact Hdone|]. intros a [Hin [row Hrow]].
      destruct Hstep as (_ & HA & HE & _).
      split; [by apply HE|]. exists row. by eapply lookup_weaken.
    + split; [simpl; set_solver|apply insert_or_ignore_self].
  - intros c' (Hal & Hf & Hart).
    apply (wp_for_each _
      (λ done c'', Album (db c'') = <[al_id album := stored_album_row album]> (Album (db c))
                   ∧ albums_frame (db c) (db c'')
                   ∧ album_linked (db c'')
                       {| al_id := al_id album; al_name := al_name album;
                          al_artists := al_artists album;
                          al_release_date := al_release_date album;
                          al_total_tracks := al_total_tracks album;
                          al_label := al_label album;
                          al_album_type := al_album_type album;
                          al_popularity := al_popularity album;
                          al_tracks := done |})).
    + split; [done|]. split; [done|]. by split.
    + intros done track_id rest c'' _ (Hal' & Hf' & Hlinked).
      set (s2 := insert_or_ignore_Track track_id (db c'')).
      assert (albums_frame (db c'') s2) as Hstep by apply albums_frame_Track.
      split; [done|]. split; [by eapply albums_frame_trans|].
      destruct (album_linked_frame _ _ s2 Hstep Hlinked) as [Hart' Htr'].
      split; [done|]. simpl. apply Forall_snoc; [done|].
      apply insert_or_ignore_self.
    + intros c'' (Hal' & Hf' & [Hart' Htr']).
      split; [done|]. split; [done|]. split; [done|]. by split.
Qed.

(** What the statements of dump_albums do to the store, for album
    objects as the records have them, when every date is accepted. *)
Lemma dump_albums_writes (albums : list AlbumRec) (c : Cursor) :
  Forall date_accepted albums →
  (dump_albums albums c).1 = Return tt
  ∧ Album (db (dump_albums albums c).2)
    = overwritten al_id stored_album_row albums (Album (db c))
  ∧ albums_frame (db c) (db (dump_albums albums c).2)
  ∧ Forall (album_linked (db (dump_albums albums c).2)) albums.
Proof.
  intros Hdates. unfold dump_albums.
  apply (wp_for_each _
    (λ done c', Album (db c') = overwritten al_id stored_album_row done (Album (db c))
                ∧ albums_frame (db c) (db c')
                ∧ Forall (album_linked (db c')) done)).
  - split; [done|]. split; [apply albums_frame_refl|done].
  - intros done album rest c' Hl (Hal & Hf & Hdone).
    assert (date_accepted album) as Hdate.
    { rewrite Forall_forall in Hdates. apply Hdates.
      rewrite Hl, elem_of_app, elem_of_cons. auto. }
    eapply wp_mono; [by apply dump_album_effect|].
    intros r c'' (-> & Hal' & Hf' & Hlinked).
    split; [by rewrite overwritten_snoc, Hal', Hal|].
    split; [by eapply albums_frame_trans|].
    apply Forall_snoc; [|done].
    eapply Forall_impl; [exact Hdone|]. intros a. by apply album_linked_frame.
  - done.
Qed.

Lemma date_accepted_iff (album : AlbumRec) :
  date_accepted album
  ↔ ∃ release_date,
      normalize_release_date (al_release_date album) = Return release_date.
Proof.
  unfold date_accepted, stored_release_date. split.
  - intros H. by eexists.
  - intros [release_date H]. by rewrite H.
Qed.

(** dump_albums returns normally only if it accepted every date. *)
Lemma dump_albums_returned (albums : list AlbumRec) :
  ∀ c, (dump_albums albums c).1 = Return tt → Forall date_accepted albums.
Proof.
  unfold dump_albums. induction albums as [|album albums IH]; intros c Hret;
    [done|].
  cbn [for_each] in Hret. unfold mbind, Sql_bind in Hret.
  destruct (normalize_release_date (al_release_date album))
    as [release_date|e] eqn:Hdate.
  - assert (date_accepted album) as Haccepted
      by (apply date_accepted_iff; by eexists).
    constructor; [done|].
    destruct (dump_album_effect album c Haccepted) as [Hone _].
    destruct (dump_album album c) as [r c']. simpl in Hone. subst r.
    by apply (IH c').
  - unfold dump_album in Hret. rewrite Hdate in Hret. done.
Qed.

(** X13.  When dump_albums returns normally on a batch of album objects
    of the documented structure, every release date of the batch had 4, 7
    or 10 characters, and the Album table is left overwritten with the
    rows of the batch, in order, each with its converted date; every
    album of the batch has its artists and tracks in place, as
    placeholders if they were unknown, and an AlbumArtist row per artist.
    Existing Track and Artist rows are unchanged, AlbumArtist only grows,
    and Genre, Area, TrackArtist and ArtistGenre are not touched.
    (Whether it returns is said only as far as the dates go: in the
    source a null entry, a missing key or an integer that SQLite cannot
    hold makes it raise too, and the records leave such entries out.) *)
Theorem dump_albums_effect (albums : list AlbumRec) (c : Cursor) :
  (dump_albums albums c).1 = Return tt →
  Forall (λ album, String.length (al_release_date album) ∈ [4; 7; 10]%nat)
         albums
  ∧ Album (db (dump_albums albums c).2)
    = overwritten al_id stored_album_row albums (Album (db c))
  ∧ albums_frame (db c) (db (dump_albums albums c).2)
  ∧ Forall (album_linked (db (dump_albums albums c).2)) albums.
Proof.
  intros Hret. pose proof (dump_albums_returned albums c Hret) as Hdates.
  split; [|by apply dump_albums_writes].
  eapply Forall_impl; [exact Hdates|]. intros album Hdate.
  apply date_accepted_iff in Hdate as [release_date Hdate].
  unfold normalize_release_date in Hdate.
  destruct (String.length (al_release_date album) =? 4)%nat eqn:H4.
  { apply Nat.eqb_eq in H4. rewrite H4. set_solver. }
  destruct (String.length (al_release_date album) =? 7)%nat eqn:H7.
  { apply Nat.eqb_eq in H7. rewrite H7. set_solver. }
  destruct (String.length (al_release_date album) =? 10)%nat eqn:H10.
  { apply Nat.eqb_eq in H10. rewrite H10. set_solver. }
  done.
Qed.

Lemma sample_album_date_accepted : Forall date_accepted [sample_album].
Proof. repeat constructor. Qed.

Lemma dump_albums_effect_witness :
  Forall (album_linked (db (dump_albums [sample_album]
                              (open_cursor empty_store)).2)) [sample_album].
Proof.
  apply (dump_albums_effect [sample_album] (open_cursor empty_store)).
  reflexivity.
Defined.

(** X14.  A release date of another length stops dump_albums where it
    stands: the albums before it in the batch have been persisted and stay
    so, the ValueError is raised before anything of the offending album is
    written, and the albums after it are not looked at. *)
Theorem dump_albums_stops_at_a_bad_date (good rest : list AlbumRec)
    (bad : AlbumRec) (c : Cursor) :
  Forall date_accepted good →
  String.length (al_release_date bad) ≠ 4%nat →
  String.length (al_release_date bad) ≠ 7%nat →
  String.length (al_release_date bad) ≠ 10%nat →
  dump_albums (good ++ bad :: rest) c
  = (Raise (ValueError ("Invalid release date: " +:+ al_release_date bad)),
     (dump_albums good c).2)
  ∧ Album (db (dump_albums good c).2)
    = overwritten al_id stored_album_row good (Album (db c)).
Proof.
  intros Hgood H4 H7 H10.
  destruct (dump_albums_writes good c Hgood) as (Hret & Hal & _).
  split; [|done].
  unfold dump_albums in *. rewrite for_each_app.
  destruct (for_each good dump_album c) as [r c'] eqn:Hrun.
  simpl in Hret. subst r. cbn [for_each snd].
  assert (dump_album bad c'
          = (Raise (ValueError ("Invalid release date: " +:+ al_release_date bad)),
             c')) as Hbad.
  { unfold dump_album, normalize_release_date.
    apply Nat.eqb_neq in H4, H7, H10. by rewrite H4, H7, H10. }
  unfold mbind, Sql_bind. by rewrite Hbad.
Qed.

Lemma dump_albums_stops_at_a_bad_date_witness :
  (dump_albums [sample_album;
                {| al_id := "al2"; al_name := "Other"; al_artists := ["a2"];
                   al_release_date := "May 2001"; al_total_tracks := 1;
                   al_label := "Label"; al_album_type := "album";
                   al_popularity := 5; al_tracks := ["t2"] |};
                sample_album]
     (open_cursor empty_store)).1
  = Raise (ValueError "Invalid release date: May 2001").
Proof.
  pose proof (dump_albums_stops_at_a_bad_date [sample_album] [sample_album]
                {| al_id := "al2"; al_name := "Other"; al_artists := ["a2"];
                   al_release_date := "May 2001"; al_total_tracks := 1;
                   al_label := "Label"; al_album_type := "album";
                   al_popularity := 5; al_tracks := ["t2"] |}
                (open_cursor empty_store) sample_album_date_accepted
                ltac:(simpl; lia) ltac:(simpl; lia) ltac:(simpl; lia)) as [H _].
  simpl app in H. by rewrite H.
Defined.

Lemma artists_frame_refl (s : Store) : artists_frame s s.
Proof. by repeat split. Qed.

Lemma artists_frame_trans (s1 s2 s3 : Store) :
  artists_frame s1 s2 → artists_frame s2 s3 → artists_frame s1 s3.
Proof.
  intros (A1 & B1 & C1 & D1 & E1 & F1 & U1 & V1 & G1 & H1)
         (A2 & B2 & C2 & D2 & E2 & F2 & U2 & V2 & G2 & H2).
  repeat split; try congruence; by etrans.
Qed.

Lemma artists_frame_Genre name s : artists_frame s (insert_or_ignore_Genre name s).
Proof.
  unfold insert_or_ignore_Genre. destruct (Genre s !! name) eqn:Hname.
  - apply artists_frame_refl.
  - repeat split; try done. simpl. by apply insert_subseteq.
Qed.

Lemma artists_frame_ArtistGenre a g s :
  artists_frame s (insert_or_ignore_ArtistGenre a g s).
Proof. repeat split; try done. simpl. apply union_subseteq_r. Qed.

Lemma artists_frame_Artist id row s :
  artists_frame s (insert_or_replace_Artist id row s).
Proof. by repeat split. Qed.

Lemma genre_linked_frame (artist_id genre : string) (s s' : Store) :
  artists_frame s s' → genre_linked artist_id s genre → genre_linked artist_id s' genre.
Proof.
  intros (HG & HE & _) (genre_id & Hg & Hin).
  exists genre_id. split; [by eapply lookup_weaken|by apply HE].
Qed.

(** What persisting one artist does to the store. *)
Lemma dump_artist_effect (artist : ArtistRec) (c : Cursor) :
  wp (dump_artist artist)
     (λ r c', r = Return tt
              ∧ Artist (db c') = <[ar_id artist := artist_row artist]> (Artist (db c))
              ∧ artists_frame (db c) (db c')
              ∧ Forall (genre_linked (ar_id artist) (db c')) (ar_genres artist)) c.
Proof.
  unfold dump_artist. fold (artist_row artist).
  apply wp_bind, wp_execute.
  apply (wp_for_each _
    (λ done c', Artist (db c') = <[ar_id artist := artist_row artist]> (Artist (db c))
                ∧ artists_frame (db c) (db c')
                ∧ Forall (genre_linked (ar_id artist) (db c')) done)).
  - split; [done|]. split; [apply artists_frame_Artist|done].
  - intros done genre rest c' _ (Ha & Hf & Hdone).
    apply wp_bind, wp_execute, wp_bind, wp_fetchone. cbn [db executed].
    destruct (select_after_insert_Genre genre (db c')) as [genre_id Hsel].
    rewrite Hsel. apply wp_execute.
    set (s1 := insert_or_ignore_Genre genre (db c')) in *.
    set (s2 := insert_or_ignore_ArtistGenre (ar_id artist) genre_id s1).
    assert (artists_frame (db c') s2) as Hstep.
    { eapply artists_frame_trans; [apply artists_frame_Genre|].
      apply artists_frame_ArtistGenre. }
    assert (Artist s2 = Artist (db c')) as HA.
    { subst s2 s1. unfold insert_or_ignore_Genre.
      by destruct (Genre (db c') !! genre). }
    change (Artist s2 = <[ar_id artist := artist_row artist]> (Artist (db c))
            ∧ artists_frame (db c) s2
            ∧ Forall (genre_linked (ar_id artist) s2) (done ++ [genre])).
    split; [by rewrite HA|]. split; [by eapply artists_frame_trans|].
    apply Forall_snoc.
    + eapply Forall_impl; [exact Hdone|].
      intros g. by apply genre_linked_frame.
    + exists genre_id. split; [done|]. simpl. set_solver.
  - by intros c' (Ha & Hf & Hall).
Qed.

(** What the statements of dump_artists do to the store, for artist
    objects as the records have them. *)
Lemma dump_artists_writes (artists : list ArtistRec) (c : Cursor) :
  (dump_artists artists c).1 = Return tt
  ∧ Artist (db (dump_artists artists c).2)
    = overwritten ar_id artist_row artists (Artist (db c))
  ∧ artists_frame (db c) (db (dump_artists artists c).2)
  ∧ Forall (λ artist,
       Forall (genre_linked (ar_id artist) (db (dump_artists artists c).2))
              (ar_genres artist)) artists.
Proof.
  unfold dump_artists.
  apply (wp_for_each _
    (λ done c', Artist (db c') = overwritten ar_id artist_row done (Artist (db c))
                ∧ artists_frame (db c) (db c')
                ∧ Forall (λ artist,
                     Forall (genre_linked (ar_id artist) (db c')) (ar_genres artist))
                    done)).
  - split; [done|]. split; [apply artists_frame_refl|done].
  - intros done artist rest c' _ (Ha & Hf & Hdone).
    eapply wp_mono; [apply dump_artist_effect|].
    intros r c'' (-> & Ha' & Hf' & Hlinked).
    split; [by rewrite overwritten_snoc, Ha', Ha|].
    split; [by eapply artists_frame_trans|].
    apply Forall_snoc; [|done].
    eapply Forall_impl; [exact Hdone|]. intros a Hall.
    eapply Forall_impl; [exact Hall|]. intros g. by apply genre_linked_frame.
  - done.
Qed.

(** X15.  When dump_artists returns normally on a batch of artist objects
    of the documented structure, it has left the Artist table overwritten
    with the rows of the batch, in order, each with its name, popularity
    and followers and with area_id and retrieved_albums back at their
    column defaults; every artist of the batch is linked to each of its
    genres by an ArtistGenre row on the Genre row of that name.  Genre
    rows that existed keep their ids, ArtistGenre only grows, and Track,
    Album, Area, TrackArtist and AlbumArtist are not touched.  (Whether it
    returns is not said: in the source a null entry or genre, a missing
    key or an integer that SQLite cannot hold makes it raise, and the
    records leave such entries out.) *)
Theorem dump_artists_effect (artists : list ArtistRec) (c : Cursor) :
  (dump_artists artists c).1 = Return tt →
  Artist (db (dump_artists artists c).2)
  = overwritten ar_id artist_row artists (Artist (db c))
  ∧ artists_frame (db c) (db (dump_artists artists c).2)
  ∧ Forall (λ artist,
       Forall (genre_linked (ar_id artist) (db (dump_artists artists c).2))
              (ar_genres artist)) artists.
Proof. intros _. apply dump_artists_writes. Qed.

Lemma dump_artists_effect_witness :
  Forall (λ artist,
     Forall (genre_linked (ar_id artist)
               (db (dump_artists [sample_artist] (open_cursor empty_store)).2))
            (ar_genres artist)) [sample_artist].
Proof.
  apply (dump_artists_effect [sample_artist] (open_cursor empty_store)).
  reflexivity.
Defined.

(** ** The main loop of musicbrainz_load.py *)

Lemma genre_rows_of_cons (artist_id : string) (s : Store)
    (edge : string * nat) (rest : list (string * nat)) :
  genre_rows_of artist_id s = edge :: rest → has_genre artist_id s.
Proof.
  unfold genre_rows_of, has_genre. intros Hrows. destruct edge as [a g].
  assert ((a, g) ∈ filter (λ edge : string * nat, edge.1 = artist_id)
                     (elements (ArtistGenre s))) as Hmem
    by (rewrite Hrows; by left).
  apply list_elem_of_filter in Hmem as [Ha Hin]. simpl in Ha. subst a.
  exists g. by apply elem_of_elements.
Qed.

Lemma genre_rows_of_nil (artist_id : string) (s : Store) :
  genre_rows_of artist_id s = [] → ¬ has_genre artist_id s.
Proof.
  unfold genre_rows_of, has_genre. intros Hnil [genre_id Hin].
  assert ((artist_id, genre_id)
          ∈ filter (λ edge : string * nat, edge.1 = artist_id)
              (elements (ArtistGenre s))) as Hmem.
  { apply list_elem_of_filter. split; [done|]. by apply elem_of_elements. }
  rewrite Hnil in Hmem. by apply elem_of_nil in Hmem.
Qed.

Lemma elem_of_unenriched (s : Store) (artist_id : string) :
  artist_id ∈ unenriched s
  ↔ ∃ row, Artist s !! artist_id = Some row
           ∧ needs_enrichment s artist_id row = true.
Proof.
  unfold unenriched. rewrite elem_of_dom. unfold is_Some.
  setoid_rewrite map_lookup_filter_Some. naive_solver.
Qed.

Lemma needs_enrichment_spec (s : Store) (artist_id : string) (row : ArtistRow) :
  Artist s !! artist_id = Some row →
  needs_enrichment s artist_id row = true
  ↔ is_Some (artist_name row)
    ∧ ¬ (has_area artist_id s ∧ has_genre artist_id s).
Proof.
  intros Hrow. unfold needs_enrichment.
  destruct (artist_name row) as [name|]; [|split; [done|by intros [[? ?] _]]].
  split.
  - intros Hneeds. split; [by eexists|]. intros [(row' & area_id & Hr & Ha) Hg].
    rewrite Hrow in Hr. injection Hr as <-. rewrite Ha in Hneeds. simpl in Hneeds.
    destruct (genre_rows_of artist_id s) eqn:Hrows; [|done].
    by apply genre_rows_of_nil in Hrows.
  - intros [_ Hnot].
    destruct (artist_area_id row) as [area_id|] eqn:Harea; [|done]. simpl.
    destruct (genre_rows_of artist_id s) eqn:Hrows; [done|].
    exfalso. apply Hnot. split.
    + by exists row, area_id.
    + by eapply genre_rows_of_cons.
Qed.

Lemma enriched_only_refl (s : Store) : enriched_only s s.
Proof. split; [|done]. intros id row Hrow. by exists row. Qed.

Lemma enriched_only_trans (s1 s2 s3 : Store) :
  enriched_only s1 s2 → enriched_only s2 s3 → enriched_only s1 s3.
Proof.
  intros [A1 B1] [A2 B2]. split; [|by etrans].
  intros id row3 H3.
  destruct (A2 id row3 H3) as (row2 & H2 & Hn2 & Ha2).
  destruct (A1 id row2 H2) as (row1 & H1 & Hn1 & Ha1).
  exists row1. split; [done|]. split; [congruence|auto].
Qed.

Lemma enriched_only_Area name type s :
  enriched_only s (insert_or_ignore_Area name type s).
Proof.
  unfold insert_or_ignore_Area. destruct (Area s !! (name, type)).
  - apply enriched_only_refl.
  - split; [|done]. intros id row Hrow. by exists row.
Qed.

Lemma enriched_only_Genre name s :
  enriched_only s (insert_or_ignore_Genre name s).
Proof.
  unfold insert_or_ignore_Genre. destruct (Genre s !! name).
  - apply enriched_only_refl.
  - split; [|done]. intros id row Hrow. by exists row.
Qed.

Lemma enriched_only_ArtistGenre a g s :
  enriched_only s (insert_or_ignore_ArtistGenre a g s).
Proof.
  split; [|simpl; apply union_subseteq_r].
  intros id row Hrow. by exists row.
Qed.

Lemma enriched_only_update area_id id s :
  enriched_only s (update_Artist_area_id area_id id s).
Proof.
  split; [|done]. intros id' row' Hrow'. simpl in Hrow'.
  apply lookup_alter_Some in Hrow' as [(-> & row & Hrow & ->)|[Hne Hrow]].
  - exists row. by repeat split.
  - by exists row'.
Qed.

Lemma enriched_only_Area_param name type s :
  enriched_only s (insert_or_ignore_Area_param name type s).
Proof.
  destruct name, type; try apply enriched_only_Area;
    (split; [|done]); intros id row Hrow; by exists row.
Qed.

Lemma enriched_only_Genre_param name s :
  enriched_only s (insert_or_ignore_Genre_param name s).
Proof.
  destruct name; [apply enriched_only_Genre|].
  split; [|done]. intros id row Hrow. by exists row.
Qed.

Lemma save_artist_only_enriches (fetched_data : gmap (option string) ArtistInfo)
    (artist : string * string) (c : Cursor) :
  wp (save_artist fetched_data artist)
     (λ _ c', enriched_only (db c) (db c')) c.
Proof.
  destruct artist as [artist_id artist_name]. unfold save_artist.
  destruct (default unknown_info (fetched_data !! Some artist_name))
    as [area genres].
  apply wp_bind, wp_execute, wp_bind, wp_fetchone. cbn [db executed].
  set (s1 := insert_or_ignore_Area_param area.1 area.2 (db c)).
  assert (enriched_only (db c) s1) as H1 by apply enriched_only_Area_param.
  destruct (select_Area_id_param area.1 area.2 s1) as [area_id|];
    [|by apply wp_ret].
  apply wp_bind, wp_execute.
  apply (wp_for_each _ (λ _ c', enriched_only (db c) (db c'))).
  - eapply enriched_only_trans; [exact H1|]. apply enriched_only_update.
  - intros done genre rest c' _ Hc'.
    apply wp_bind, wp_execute, wp_bind, wp_fetchone. cbn [db executed].
    set (s3 := insert_or_ignore_Genre_param genre (db c')).
    assert (enriched_only (db c) s3) as H3.
    { eapply enriched_only_trans; [exact Hc'|]. apply enriched_only_Genre_param. }
    destruct (select_Genre_id_param genre s3) as [genre_id|]; [|by apply wp_ret].
    apply wp_execute.
    eapply enriched_only_trans; [exact H3|]. apply enriched_only_ArtistGenre.
  - done.
Qed.

Lemma save_artist_data_only_enriches (artist_data : list (string * string))
    (fetched_data : gmap (option string) ArtistInfo) (c : Cursor) :
  enriched_only (db c) (db (save_artist_data_to_db artist_data fetched_data c).2).
Proof.
  unfold save_artist_data_to_db.
  apply (wp_for_each _ (λ _ c', enriched_only (db c) (db c'))
           (λ _ c', enriched_only (db c) (db c'))).
  - apply enriched_only_refl.
  - intros done artist rest c' _ Hc'.
    eapply wp_mono; [apply save_artist_only_enriches|].
    intros [[]|e] c'' Hstep; by eapply enriched_only_trans.
  - done.
Qed.

Lemma unenriched_shrinks (s s' : Store) :
  enriched_only s s' → unenriched s' ⊆ unenriched s.
Proof.
  intros [Hrows Hedges] id. rewrite !elem_of_unenriched.
  intros (row' & Hrow' & Hneeds).
  destruct (Hrows id row' Hrow') as (row & Hrow & Hname & Harea).
  exists row. split; [done|].
  unfold needs_enrichment in *. rewrite Hname.
  destruct (artist_name row') as [name|]; [|done].
  apply orb_true_iff in Hneeds as [Hnull|Hnone]; apply orb_true_iff.
  - left. destruct (artist_area_id row') eqn:Ha; [done|]. by rewrite Harea.
  - right. destruct (genre_rows_of id s') eqn:Hrows'; [|done].
    apply genre_rows_of_nil in Hrows'.
    destruct (genre_rows_of id s) eqn:Hrows0; [done|].
    exfalso. apply Hrows'.
    apply genre_rows_of_cons in Hrows0 as [g Hg]. exists g. by apply Hedges.
Qed.

Lemma unenriched_rows_sound (s : Store) (id : string) (row : ArtistRow)
    (artist_id name' : string) :
  (artist_id, name') ∈ unenriched_rows s (id, row) →
  artist_id = id ∧ needs_enrichment s id row = true.
Proof.
  unfold unenriched_rows, needs_enrichment.
  destruct (artist_name row) as [name|]; [|by intros ?%elem_of_nil].
  destruct (genre_rows_of id s) as [|edge edges] eqn:Hrows.
  - intros Hin%list_elem_of_singleton. injection Hin as -> ->.
    split; [done|]. apply orb_true_r.
  - destruct (artist_area_id row); simpl; [by intros ?%elem_of_nil|].
    intros Hin. split; [|done].
    apply elem_of_cons in Hin as [Hin|Hin]; [by injection Hin|].
    apply list_elem_of_fmap in Hin as (? & Hin & _). by injection Hin.
Qed.

Lemma select_unenriched_sound (s : Store) (artist_id artist_name : string) :
  (artist_id, artist_name) ∈ select_unenriched s →
  is_Some (Artist s !! artist_id) ∧ artist_id ∈ unenriched s.
Proof.
  unfold select_unenriched. intros Hin.
  apply (subseteq_take BATCH_SIZE) in Hin.
  apply list_elem_of_In, in_flat_map in Hin as ([id row] & Hkv & Hin).
  apply list_elem_of_In, elem_of_map_to_list in Hkv.
  apply list_elem_of_In, unenriched_rows_sound in Hin as [-> Hneeds].
  split; [by eexists|]. apply elem_of_unenriched. eauto.
Qed.

Lemma unenriched_rows_complete (s : Store) (id : string) (row : ArtistRow) :
  unenriched_rows s (id, row) = [] → needs_enrichment s id row = false.
Proof.
  unfold unenriched_rows, needs_enrichment.
  destruct (artist_name row) as [name|]; [|done].
  destruct (genre_rows_of id s) as [|edge edges]; [done|].
  by destruct (artist_area_id row).
Qed.

Lemma select_unenriched_complete (s : Store) :
  select_unenriched s = [] → unenriched s = ∅.
Proof.
  unfold select_unenriched. intros Hnil.
  assert (flat_map (unenriched_rows s) (map_to_list (Artist s)) = []) as Hall.
  { destruct (flat_map _ _); [done|]. done. }
  apply set_eq. intros id. rewrite elem_of_unenriched. split; [|set_solver].
  intros (row & Hrow & Hneeds). exfalso.
  apply elem_of_map_to_list, list_elem_of_In in Hrow.
  assert (unenriched_rows s (id, row) = []) as Hrows.
  { destruct (unenriched_rows s (id, row)) as [|x l] eqn:Hr; [done|].
    assert (In x (flat_map (unenriched_rows s) (map_to_list (Artist s)))) as Hx.
    { apply in_flat_map. exists (id, row). split; [done|]. rewrite Hr. by left. }
    rewrite Hall in Hx. done. }
  apply unenriched_rows_complete in Hrows. congruence.
Qed.

Lemma mb_pass_shrinks (s : Store) (c : Cursor)
    (fetched_data : gmap (option string) ArtistInfo)
    (artist : string * string) (batch : list (string * string)) :
  db c = s →
  select_unenriched s = artist :: batch →
  map_Forall (λ _ info, complete_info info) fetched_data →
  (save_artist_data_to_db (artist :: batch) fetched_data c).1 = Return tt
  ∧ unenriched (db (save_artist_data_to_db (artist :: batch) fetched_data c).2)
    ⊂ unenriched s.
Proof.
  intros Hs Hscan Hcomplete.
  assert (Forall (λ a : string * string, is_Some (Artist (db c) !! a.1))
            (artist :: batch)) as Hrows.
  { apply Forall_forall. intros [id name] Hin. rewrite <- Hscan in Hin.
    rewrite Hs. by apply select_unenriched_sound in Hin as [? _]. }
  destruct (save_artist_data_enriches (artist :: batch) fetched_data c Hrows)
    as [Hret Hdone].
  split; [done|].
  pose proof (save_artist_data_only_enriches (artist :: batch) fetched_data c)
    as Honly.
  rewrite Hs in Honly.
  apply strict_spec_alt. split; [by apply unenriched_shrinks|].
  destruct artist as [id name].
  assert (id ∈ unenriched s) as Hwas.
  { apply (select_unenriched_sound s id name). rewrite Hscan. by left. }
  assert (id ∉ unenriched (db (save_artist_data_to_db ((id, name) :: batch)
                                  fetched_data c).2)) as Hnow.
  { rewrite elem_of_unenriched. intros (row & Hrow & Hneeds).
    apply needs_enrichment_spec in Hneeds as [_ Hnot]; [|done]. apply Hnot.
    destruct (info_used_complete fetched_data name Hcomplete) as [Hknown Hsome].
    apply Forall_cons in Hdone as [Hfirst _].
    destruct (Hfirst Hknown) as [Harea Hgenre]. split; [done|].
    by apply Hgenre. }
  intros Heq. apply Hnow. by rewrite Heq.
Qed.

Lemma mb_main_enough_fuel (n : nat) :
  ∀ st, Forall clean_answer (http (mb_env (mb_world st))) →
        (size (unenriched (db (mb_cursor st))) <= n)%nat →
    ∃ st', mb_main (S n) st = Some (Return tt, st')
           ∧ select_unenriched (db (mb_cursor st')) = []
           ∧ mb_committed st' = db (mb_cursor st').
Proof.
  induction n as [|n IH]; intros st Hclean Hsize; cbn [mb_main];
    destruct (select_unenriched (db (mb_cursor st))) as [|artist batch] eqn:Hscan;
    try (eexists; split; [reflexivity|]; by split).
  - exfalso. destruct artist as [id name].
    assert (id ∈ unenriched (db (mb_cursor st))) as Hin.
    { apply (select_unenriched_sound _ id name). rewrite Hscan. by left. }
    assert (unenriched (db (mb_cursor st)) = ∅) as Hempty.
    { apply leibniz_equiv, size_empty_iff. lia. }
    rewrite Hempty in Hin. by apply not_elem_of_empty in Hin.
  - destruct (get_artist_data_batch_clean (map snd (artist :: batch)) 5
                (mb_world st) Hclean) as (fetched_data & Hfetched & Hall & Hrest).
    destruct (get_artist_data_batch (map snd (artist :: batch)) 5 (mb_world st))
      as [fetched w].
    simpl in Hfetched, Hrest. subst fetched.
    destruct (mb_pass_shrinks (db (mb_cursor st)) (mb_cursor st) fetched_data
                artist batch eq_refl Hscan Hall) as [Hret Hless].
    destruct (save_artist_data_to_db (artist :: batch) fetched_data (mb_cursor st))
      as [r c']. simpl in Hret, Hless. subst r.
    apply IH; [done|]. simpl. apply subset_size in Hless. lia.
Qed.

(** X16.  Facing a server whose answers have no holes (every hit has a
    name, no area has a null name or type, every tag has a string for
    name), the main loop of musicbrainz_load.py ends, however many
    requests fail: a pass leaves every artist of its batch with an area
    and a genre (the sentinel's, if the fetch brought nothing), so after
    at most as many passes as there were named artists without area or
    genre the scan comes back empty and the loop leaves, with everything
    committed.  It does not raise. *)
Theorem mb_main_terminates (st : MBSched) :
  Forall clean_answer (http (mb_env (mb_world st))) →
  ∃ st',
    mb_main (S (size (unenriched (db (mb_cursor st))))) st = Some (Return tt, st')
    ∧ select_unenriched (db (mb_cursor st')) = []
    ∧ unenriched (db (mb_cursor st')) = ∅
    ∧ mb_committed st' = db (mb_cursor st').
Proof.
  intros Hclean.
  destruct (mb_main_enough_fuel (size (unenriched (db (mb_cursor st)))) st)
    as (st' & Hrun & Hscan & Hcommit); [done|done|].
  exists st'. split; [done|]. split; [done|].
  split; [by apply select_unenriched_complete|done].
Qed.

Lemma mb_main_terminates_witness :
  ∃ st',
    mb_main (S (size (unenriched (db (mb_cursor (band_sched [RespOk (MBJson [band_of_oslo])]))))))
      (band_sched [RespOk (MBJson [band_of_oslo])]) = Some (Return tt, st')
    ∧ select_unenriched (db (mb_cursor st')) = []
    ∧ unenriched (db (mb_cursor st')) = ∅
    ∧ mb_committed st' = db (mb_cursor st').
Proof.
  apply (mb_main_terminates (band_sched [RespOk (MBJson [band_of_oslo])])).
  repeat constructor; try done. by eexists.
Defined.

(** *** An artist that is never enriched *)

Lemma get_artist_data_batch_first_answer (artist_names : list string)
    (retries : nat) (w : MBWorld) (hits : list MBArtist)
    (rest : list (Response MBBody)) :
  http (mb_env w) = RespOk (MBJson hits) :: rest →
  (get_artist_data_batch artist_names (S retries) w).1 = organize hits
  ∧ http (mb_env (get_artist_data_batch artist_names (S retries) w).2) = rest.
Proof.
  intros Hhttp. unfold get_artist_data_batch.
  set (e := match evict (now (mb_env w)) 1 (timestamps w) with
            | [] => mb_env w
            | t0 :: _ => sleep (1 - (now (mb_env w) - t0)) (mb_env w)
            end).
  assert (http e = RespOk (MBJson hits) :: rest) as He.
  { subst e. by destruct (evict (now (mb_env w)) 1 (timestamps w)). }
  cbn [mb_request_loop mb_env].
  destruct (requests_get_head (mb_url artist_names) e _ _ He) as [Hresp Hrest].
  destruct (requests_get (mb_url artist_names) e) as [response e'].
  simpl in Hresp, Hrest. subst response. by destruct (next_draw _).
Qed.

(** One pass over a scan of one artist whose area, as fetched, lacks name
    or type: the pass writes an Area row that nothing refers to, and the
    loop is where it was. *)
Lemma mb_pass_stalls (st : MBSched) (artist_id artist_name : string)
    (hits : list MBArtist) (fetched_data : gmap (option string) ArtistInfo)
    (rest : list (Response MBBody)) :
  select_unenriched (db (mb_cursor st)) = [(artist_id, artist_name)] →
  http (mb_env (mb_world st)) = RespOk (MBJson hits) :: rest →
  organize hits = Return fetched_data →
  ¬ area_known (info_used fetched_data artist_name) →
  ∃ st1,
    (∀ fuel, mb_main (S fuel) st = mb_main fuel st1)
    ∧ db (mb_cursor st1)
      = insert_Area_unkeyed (info_used fetched_data artist_name).1.1
          (info_used fetched_data artist_name).1.2 (db (mb_cursor st))
    ∧ http (mb_env (mb_world st1)) = rest.
Proof.
  intros Hscan Hhttp Hfetched Hunknown.
  destruct (get_artist_data_batch_first_answer [artist_name] 4 (mb_world st)
              hits rest Hhttp) as [Hres Hrest].
  rewrite Hfetched in Hres.
  pose proof (save_artist_skips fetched_data artist_id artist_name
                (mb_cursor st) Hunknown) as Hskip.
  set (stmt := insert_Area_unkeyed (info_used fetched_data artist_name).1.1
                 (info_used fetched_data artist_name).1.2) in *.
  exists {| mb_world := (get_artist_data_batch [artist_name] 5 (mb_world st)).2;
            mb_cursor := executed stmt (mb_cursor st);
            mb_committed := db (executed stmt (mb_cursor st)) |}.
  split; [|split; [reflexivity|exact Hrest]].
  intros fuel. cbn [mb_main]. rewrite Hscan. cbn [map snd].
  destruct (get_artist_data_batch [artist_name] 5 (mb_world st)) as [fetched w].
  simpl in Hres. subst fetched.
  unfold save_artist_data_to_db. cbn [for_each]. unfold mbind, Sql_bind.
  rewrite Hskip. reflexivity.
Qed.

(** X17.  An artist whose area MusicBrainz gives without name or without
    type (a JSON null) is never enriched.  While the scan selects that
    one artist and the server keeps answering with such hits, every pass
    fetches, skips the artist at [continue], commits and scans again: as
    many passes as there are such answers leave the loop running, the
    Artist and ArtistGenre tables as they were, and one more row in Area,
    with a NULL in it, per pass. *)
Theorem mb_main_stalls_on_an_unknown_area (artist_id artist_name : string)
    (hits : list MBArtist) (fetched_data : gmap (option string) ArtistInfo)
    (n : nat) :
  organize hits = Return fetched_data →
  ¬ area_known (info_used fetched_data artist_name) →
  ∀ (st : MBSched) (rest : list (Response MBBody)),
    select_unenriched (db (mb_cursor st)) = [(artist_id, artist_name)] →
    http (mb_env (mb_world st)) = replicate n (RespOk (MBJson hits)) ++ rest →
    mb_main n st = None
    ∧ ∃ st',
        (∀ fuel, mb_main (n + fuel) st = mb_main fuel st')
        ∧ select_unenriched (db (mb_cursor st')) = [(artist_id, artist_name)]
        ∧ Artist (db (mb_cursor st')) = Artist (db (mb_cursor st))
        ∧ ArtistGenre (db (mb_cursor st')) = ArtistGenre (db (mb_cursor st))
        ∧ Area_seq (db (mb_cursor st')) = (Area_seq (db (mb_cursor st)) + n)%nat
        ∧ (∀ k, (k < n)%nat →
             Area_unkeyed (db (mb_cursor st'))
               !! (Area_seq (db (mb_cursor st)) + S k)%nat
             = Some (info_used fetched_data artist_name).1)
        ∧ http (mb_env (mb_world st')) = rest.
Proof.
  intros Hfetched Hunknown.
  assert (∀ (st : MBSched) (rest : list (Response MBBody)),
    select_unenriched (db (mb_cursor st)) = [(artist_id, artist_name)] →
    http (mb_env (mb_world st)) = replicate n (RespOk (MBJson hits)) ++ rest →
    ∃ st',
      (∀ fuel, mb_main (n + fuel) st = mb_main fuel st')
      ∧ select_unenriched (db (mb_cursor st')) = [(artist_id, artist_name)]
      ∧ Artist (db (mb_cursor st')) = Artist (db (mb_cursor st))
      ∧ ArtistGenre (db (mb_cursor st')) = ArtistGenre (db (mb_cursor st))
      ∧ Area_seq (db (mb_cursor st')) = (Area_seq (db (mb_cursor st)) + n)%nat
      ∧ (∀ k, (k < n)%nat →
           Area_unkeyed (db (mb_cursor st'))
             !! (Area_seq (db (mb_cursor st)) + S k)%nat
           = Some (info_used fetched_data artist_name).1)
      ∧ http (mb_env (mb_world st')) = rest) as Hpasses.
  { induction n as [|n IH]; intros st rest Hscan Hhttp.
    { exists st. split; [done|]. split; [done|]. split; [done|].
      split; [done|]. split; [lia|]. split; [|done]. intros k Hk. lia. }
    rewrite replicate_S_end, <- app_assoc in Hhttp.
    destruct (IH st (RespOk (MBJson hits) :: rest) Hscan Hhttp)
      as (st1 & Hrun & Hscan1 & HA & HG & Hseq & Hrows & Hrest1).
    destruct (mb_pass_stalls st1 artist_id artist_name hits fetched_data rest
                Hscan1 Hrest1 Hfetched Hunknown) as (st2 & Hstep & Hdb & Hrest2).
    exists st2. split; [|split; [by rewrite Hdb|]].
    { intros fuel. replace (S n + fuel)%nat with (n + S fuel)%nat by lia.
      by rewrite Hrun, Hstep. }
    rewrite Hdb. cbn [Artist ArtistGenre Area_seq Area_unkeyed insert_Area_unkeyed].
    split; [done|]. split; [done|]. split; [lia|]. split; [|done].
    intros k Hk. rewrite Hseq.
    destruct (decide (k = n)) as [->|Hne].
    - replace (Area_seq (db (mb_cursor st)) + S n)%nat
        with (S (Area_seq (db (mb_cursor st)) + n)) by lia.
      rewrite lookup_insert_eq. by destruct (info_used fetched_data artist_name).1.
    - rewrite lookup_insert_ne by lia. apply Hrows. lia. }
  intros st rest Hscan Hhttp.
  destruct (Hpasses st rest Hscan Hhttp) as (st' & Hrun & Hrest).
  split; [|by exists st'].
  specialize (Hrun 0%nat). rewrite Nat.add_0_r in Hrun. by rewrite Hrun.
Qed.

Lemma mb_main_stalls_on_an_unknown_area_witness :
  mb_main 3 (band_sched (replicate 3 (RespOk (MBJson [band_of_untyped_area])))) = None.
Proof.
  pose (fetched_data :=
          ({[ Some "Band" := ((Some "Oslo", None), [Some "rock"]) ]}
           : gmap (option string) ArtistInfo)).
  assert (organize [band_of_untyped_area] = Return fetched_data) as Hfetched
    by (vm_compute; reflexivity).
  assert (¬ area_known (info_used fetched_data "Band")) as Hunknown.
  { intros [_ [? H]]. vm_compute in H. done. }
  apply (mb_main_stalls_on_an_unknown_area "a1" "Band" [band_of_untyped_area]
           fetched_data 3 Hfetched Hunknown
           (band_sched (replicate 3 (RespOk (MBJson [band_of_untyped_area])))) []).
  - vm_compute. reflexivity.
  - reflexivity.
Defined.

(** ** The limiter of musicbrainz_load.py *)

Lemma pow2_ge_1 (attempt : nat) : (1 <= pow2 attempt)%Q.
Proof.
  unfold pow2, Qle. simpl.
  pose proof (Z.pow_pos_nonneg 2 (Z.of_nat attempt)). lia.
Qed.

Lemma next_draw_nonneg (draws : list Q) :
  Forall (λ u, 0 <= u)%Q draws →
  (0 <= (next_draw draws).1)%Q ∧ Forall (λ u, 0 <= u)%Q (next_draw draws).2.
Proof.
  intros [|u rest Hu Hrest]; simpl; [|done]. split; [lra|constructor].
Qed.

Lemma apart_snoc (gap T : Q) (d : list Q) :
  apart gap d → Forall (λ ts, ts + gap <= T)%Q d → apart gap (d ++ [T]).
Proof.
  induction 1 as [|t|t t' d Hgap Hd IH]; intros Hall.
  - constructor.
  - apply Forall_cons in Hall as [Ht _]. simpl. constructor; [done|constructor].
  - apply Forall_cons in Hall as [_ Hall]. simpl. constructor; [done|].
    by apply IH.
Qed.

(** The retry loop never turns the clock back.  Entered at least a second
    after the timestamps of the deque, it appends timestamps that are a
    second apart (one for each response of status 200, decodable or not:
    the handler of a failure sleeps at least [2 ** 0] seconds), none
    before it was entered and none after it returned. *)
Lemma mb_request_loop_clock (url : string) :
  ∀ (remaining attempt : nat) (w : MBWorld),
    Forall (λ u, 0 <= u)%Q (uniform_draws w) →
    apart 1 (timestamps w) →
    Forall (λ ts, ts + 1 <= now (mb_env w))%Q (timestamps w) →
    let w' := (mb_request_loop url attempt remaining w).2 in
    ∃ new,
      timestamps w' = timestamps w ++ new
      ∧ Forall (λ t', now (mb_env w) <= t')%Q new
      ∧ apart 1 (timestamps w')
      ∧ Forall (λ ts, ts <= now (mb_env w'))%Q (timestamps w')
      ∧ Forall (λ u, 0 <= u)%Q (uniform_draws w').
Proof.
  induction remaining as [|remaining IH]; intros attempt w Hdraws Hapart Hpast;
    simpl.
  { exists []. rewrite app_nil_r. split; [done|]. split; [done|].
    split; [done|]. split; [|done].
    eapply Forall_impl; [exact Hpast|]. simpl. intros ts Hts. lra. }
  assert (now (requests_get url (mb_env w)).2 = now (mb_env w)) as Hnow.
  { unfold requests_get. by destruct (http (mb_env w)). }
  destruct (requests_get url (mb_env w)) as [response e1].
  simpl in Hnow.
  destruct (next_draw_nonneg _ Hdraws) as [Hu Hrest].
  destruct (next_draw (uniform_draws w)) as [u draws]. simpl in Hu, Hrest.
  pose proof (pow2_ge_1 attempt) as Hpow.
  assert (apart 1 (timestamps w ++ [now e1])) as Hsnoc.
  { apply apart_snoc; [done|]. by rewrite Hnow. }
  assert (∀ w1 : MBWorld,
    mb_env w1 = sleep (pow2 attempt + u) e1 →
    uniform_draws w1 = draws →
    timestamps w1 = timestamps w →
    ∃ new,
      timestamps (mb_request_loop url (S attempt) remaining w1).2
      = timestamps w ++ new
      ∧ Forall (λ t', now (mb_env w) <= t')%Q new
      ∧ apart 1 (timestamps (mb_request_loop url (S attempt) remaining w1).2)
      ∧ Forall (λ ts,
           ts <= now (mb_env (mb_request_loop url (S attempt) remaining w1).2))%Q
          (timestamps (mb_request_loop url (S attempt) remaining w1).2)
      ∧ Forall (λ u, 0 <= u)%Q
          (uniform_draws (mb_request_loop url (S attempt) remaining w1).2))
    as Hfailed.
  { intros w1 He Hd Hts.
    assert (now (mb_env w1) == now (mb_env w) + (pow2 attempt + u))%Q as Hw1.
    { rewrite He. simpl. by rewrite Hnow. }
    destruct (IH (S attempt) w1) as (new & Hnew & Hlate & Hap & Hle & Hdr).
    - by rewrite Hd.
    - by rewrite Hts.
    - rewrite Hts. eapply Forall_impl; [exact Hpast|]. simpl. intros ts H. lra.
    - exists new. split; [by rewrite Hnew, Hts|]. split; [|done].
      eapply Forall_impl; [exact Hlate|]. simpl. intros t' H. lra. }
  destruct response as [[data|]|status header|];
    [| |by apply Hfailed|by apply Hfailed].
  - simpl. exists [now e1]. split; [done|]. split; [|split; [done|split; [|done]]].
    + constructor; [rewrite Hnow; lra|constructor].
    + apply Forall_app_2.
      * eapply Forall_impl; [exact Hpast|]. simpl. intros ts H.
        rewrite Hnow. lra.
      * constructor; [lra|constructor].
  - set (w1 := {| mb_env := sleep (pow2 attempt + u) e1;
                  timestamps := timestamps w ++ [now e1];
                  uniform_draws := draws |}).
    assert (now (mb_env w1) == now (mb_env w) + (pow2 attempt + u))%Q as Hw1.
    { unfold w1. simpl. by rewrite Hnow. }
    destruct (IH (S attempt) w1) as (new & Hnew & Hlate & Hap & Hle & Hdr).
    + done.
    + done.
    + simpl. apply Forall_app_2.
      * eapply Forall_impl; [exact Hpast|]. simpl. intros ts H.
        rewrite Hnow. lra.
      * constructor; [rewrite Hnow; lra|constructor].
    + exists (now e1 :: new).
      split; [rewrite Hnew; simpl; by rewrite <- app_assoc|]. split; [|done].
      constructor; [rewrite Hnow; lra|].
      eapply Forall_impl; [exact Hlate|]. intros t' H.
      unfold w1 in H. simpl in H. rewrite Hnow in H. lra.
Qed.

Lemma evict_popped (t window : Q) (d : list Q) :
  ∃ old, d = old ++ evict t window d ∧ Forall (λ ts, window < t - ts)%Q old.
Proof.
  induction d as [|ts d (old & IH & Hold)]; [by exists []|].
  simpl. destruct (Qgtb (t - ts) window) eqn:Hgt.
  - exists (ts :: old). simpl. split; [by rewrite <- IH|].
    constructor; [|done]. unfold Qgtb in Hgt.
    apply negb_true_iff in Hgt.
    destruct (Qlt_le_dec window (t - ts)) as [|Hle]; [done|].
    apply Qle_bool_iff in Hle. congruence.
  - by exists [].
Qed.

Lemma apart_head (gap t0 : Q) (d : list Q) :
  (0 <= gap)%Q → apart gap (t0 :: d) → Forall (λ ts, t0 + gap <= ts)%Q d.
Proof.
  intros Hgap. revert t0. induction d as [|t d IH]; intros t0 Hd; [done|].
  inversion Hd as [| |? ? ? Hstep Hrest]; subst.
  constructor; [done|]. eapply Forall_impl; [exact (IH t Hrest)|].
  simpl. intros ts Hts. lra.
Qed.

Lemma apart_app (gap : Q) (old d : list Q) :
  (0 <= gap)%Q → apart gap (old ++ d) →
  apart gap d ∧ Forall (λ ts, Forall (λ ts', ts + gap <= ts')%Q d) old.
Proof.
  intros Hgap. induction old as [|t old IH]; intros Hd; [done|].
  simpl in Hd.
  assert (apart gap (old ++ d)) as Htail.
  { inversion Hd as [|? Heq|]; subst; [|done].
    destruct old; [|done]. simpl in *. subst. constructor. }
  destruct (IH Htail) as [Hsp Hold]. split; [done|].
  constructor; [|done].
  apply apart_head in Hd; [|done]. by apply Forall_app in Hd as [_ Hd].
Qed.

(** One call on a deque whose timestamps are a second apart and all in the
    past. *)
Lemma get_artist_data_batch_step (artist_names : list string) (retries : nat)
    (w : MBWorld) :
  Forall (λ u, 0 <= u)%Q (uniform_draws w) →
  apart 1 (timestamps w) →
  Forall (λ ts, ts < now (mb_env w))%Q (timestamps w) →
  let w' := (get_artist_data_batch artist_names retries w).2 in
  (∃ new,
     timestamps w' = evict (now (mb_env w)) 1 (timestamps w) ++ new
     ∧ Forall (λ t', Forall (λ ts, ts + 1 <= t')%Q (timestamps w)) new)
  ∧ apart 1 (timestamps w')
  ∧ Forall (λ ts, ts <= now (mb_env w'))%Q (timestamps w')
  ∧ Forall (λ u, 0 <= u)%Q (uniform_draws w').
Proof.
  intros Hdraws Hapart Hpast. unfold get_artist_data_batch.
  set (cur := now (mb_env w)) in *.
  destruct (evict_popped cur 1 (timestamps w)) as (old & Hsplit & Hold).
  pose proof (evict_head 1 cur) as Hhead.
  rewrite Hsplit in Hapart, Hpast.
  apply apart_app in Hapart as [Hkept Hbefore]; [|lra].
  apply Forall_app in Hpast as [_ Hpast].
  destruct (evict cur 1 (timestamps w)) as [|t0 rest] eqn:Hev.
  - set (w1 := {| mb_env := mb_env w; timestamps := [];
                  uniform_draws := uniform_draws w |}).
    destruct (mb_request_loop_clock (mb_url artist_names) retries 0 w1)
      as (new & Hnew & Hlate & Hap & Hle & Hd); [done|constructor|constructor|].
    rewrite app_nil_r in Hsplit. rewrite Hsplit.
    change (now (mb_env w1)) with cur in Hlate.
    split; [|done]. exists new. split; [done|].
    eapply Forall_impl; [exact Hlate|]. simpl. intros t' Ht'.
    eapply Forall_impl; [exact Hold|]. simpl. intros ts Hts. lra.
  - assert (rest = []) as ->.
    { destruct rest as [|t1 rest]; [done|]. exfalso.
      apply apart_head in Hkept; [|lra].
      apply Forall_cons in Hkept as [Ht1 _].
      apply Forall_cons in Hpast as [_ Hpast].
      apply Forall_cons in Hpast as [Hlt _].
      specialize (Hhead t0 (timestamps w) (t1 :: rest) Hev). lra. }
    specialize (Hhead t0 (timestamps w) [] Hev).
    set (w1 := {| mb_env := sleep (1 - (cur - t0)) (mb_env w); timestamps := [t0];
                  uniform_draws := uniform_draws w |}).
    assert (now (mb_env w1) == t0 + 1)%Q as Hw1.
    { unfold w1. simpl. fold cur. lra. }
    destruct (mb_request_loop_clock (mb_url artist_names) retries 0 w1)
      as (new & Hnew & Hlate & Hap & Hle & Hd);
      [done|constructor|constructor; [lra|constructor]|].
    assert (Forall (λ ts, ts + 1 <= t0)%Q old) as Hold0.
    { eapply Forall_impl; [exact Hbefore|]. simpl. intros ts Hts'.
      by apply Forall_cons in Hts' as [? _]. }
    split; [|done]. exists new. split; [done|].
    eapply Forall_impl; [exact Hlate|]. cbv beta. intros t' Ht'.
    rewrite Hsplit. apply Forall_app_2.
    + eapply Forall_impl; [exact Hold0|]. simpl. intros ts Hts'. lra.
    + constructor; [lra|constructor].
Qed.

Lemma mb_run_invariant (calls : list (Q * list string)) :
  Forall (λ call, 0 < call.1)%Q calls →
  ∀ w, Forall (λ u, 0 <= u)%Q (uniform_draws w) →
       apart 1 (timestamps w) →
       Forall (λ ts, ts <= now (mb_env w))%Q (timestamps w) →
       Forall (λ u, 0 <= u)%Q (uniform_draws (mb_run calls w))
       ∧ apart 1 (timestamps (mb_run calls w))
       ∧ Forall (λ ts, ts <= now (mb_env (mb_run calls w)))%Q
                (timestamps (mb_run calls w)).
Proof.
  induction 1 as [|[gap names] calls Hgap _ IH]; intros w Hdraws Hapart Hpast;
    [done|].
  change (mb_run ((gap, names) :: calls) w)
    with (mb_run calls (get_artist_data_batch names 5 (after_gap gap w)).2).
  destruct (get_artist_data_batch_step names 5 (after_gap gap w))
    as (_ & Hap & Hp & Hd); [done|done| |by apply IH].
  eapply Forall_impl; [exact Hpast|]. simpl in *. intros ts Hts. lra.
Qed.

(** X18.  MusicBrainz answers at most once a second.  In any run of
    calls of get_artist_data_batch that starts from an empty deque, time
    passing between the calls and [random.uniform(0, 1)] never negative,
    every response of status 200 (its timestamp is appended before the
    body is decoded) is recorded at least one second after every response
    the deque held when the call began; the deque keeps its timestamps a
    second apart, and none of them lies in the future. *)
Theorem get_artist_data_batch_spaces_the_responses (w0 : MBWorld)
    (calls : list (Q * list string)) (gap : Q) (artist_names : list string)
    (retries : nat) :
  timestamps w0 = [] →
  Forall (λ u, 0 <= u)%Q (uniform_draws w0) →
  Forall (λ call, 0 < call.1)%Q calls →
  (0 < gap)%Q →
  let w := after_gap gap (mb_run calls w0) in
  let w' := (get_artist_data_batch artist_names retries w).2 in
  (∃ new,
     timestamps w' = evict (now (mb_env w)) 1 (timestamps w) ++ new
     ∧ Forall (λ t', Forall (λ ts, ts + 1 <= t')%Q (timestamps w)) new)
  ∧ apart 1 (timestamps w')
  ∧ Forall (λ ts, ts <= now (mb_env w'))%Q (timestamps w').
Proof.
  intros Hempty Hdraws Hgaps Hgap.
  destruct (mb_run_invariant calls Hgaps w0) as (Hd & Hap & Hp);
    [done|rewrite Hempty; constructor|rewrite Hempty; constructor|].
  destruct (get_artist_data_batch_step artist_names retries
              (after_gap gap (mb_run calls w0)))
    as (Hnew & Hap' & Hp' & _); [done|done| |done].
  eapply Forall_impl; [exact Hp|]. simpl in *. intros ts Hts. lra.
Qed.

Lemma get_artist_data_batch_spaces_the_responses_witness :
  apart 1 (timestamps
             (get_artist_data_batch ["Band"] 5
                (after_gap 1
                   (mb_run [(1 # 2, ["Band"]); (1 # 4, ["Band"])]%Q
                      (mb_world_of [RespOk (MBJson [band_of_oslo]);
                                    RespOk (MBJson [band_of_oslo]);
                                    RespOk (MBJson [band_of_oslo])])))).2).
Proof.
  apply (get_artist_data_batch_spaces_the_responses
           (mb_world_of [RespOk (MBJson [band_of_oslo]); RespOk (MBJson [band_of_oslo]);
                         RespOk (MBJson [band_of_oslo])])
           [(1 # 2, ["Band"]); (1 # 4, ["Band"])]%Q 1 ["Band"] 5).
  - reflexivity.
  - constructor.
  - repeat constructor.
  - reflexivity.
Defined.
